(** * geecache: the LRU store, the hash ring, the call deduplicator, the
      namespace lookup, the registry of groups, the HTTP pool and the byte
      views, embedded from the Go sources and checked against the
      properties stated for them. *)

From Stdlib Require Import ZArith Lia List DecimalString.
From stdpp Require Import gmap strings list fin_maps sorting.

Open Scope Z_scope.

(** ** Machine integers

    [nbytes] and [maxBytes] are Go [int64]; additions and subtractions on
    them wrap around. *)

Definition max_int64 : Z := 2 ^ 63 - 1.

Definition wrap64 (z : Z) : Z := (z + 2 ^ 63) mod 2 ^ 64 - 2 ^ 63.

Definition add64 (x y : Z) : Z := wrap64 (x + y).
Definition sub64 (x y : Z) : Z := wrap64 (x - y).

(** ** package lru (src/unnamed/part_001) *)

Module lru.

(** [type Value interface { Len() int }].  The interface comment says that
    [Len] reports the number of bytes the value occupies in memory, which is
    never negative. *)
Class Value (V : Type) := {
  Len : V → Z;
  Len_nonneg : ∀ v, 0 ≤ Len v
}.

Section Cache.
Context {V : Type} `{Value V}.
(** [W] is the state the eviction callback closes over. *)
Context {W : Type}.

(** [type entry struct { key string; value Value }] *)
Record entry := Entry { key : string; value : V }.

(** [len(key)]: strings are byte sequences. *)
Definition len (s : string) : Z := Z.of_nat (String.length s).

(** [type Cache struct].  [ll] is the recency list, front (most recently
    used) first.  [cache] maps a key to its list element; an element is
    shared between the list and the map, so a write through the element is
    seen by both. *)
Record Cache := mkCache {
  maxBytes : Z;
  nbytes : Z;
  ll : list entry;
  cache : gmap string entry;
  OnEvicted : option (string → V → W → W)
}.

(** [func New(maxBytes int64, onEvicted func(string, Value)) *Cache] *)
Definition New (maxBytes : Z) (onEvicted : option (string → V → W → W)) : Cache :=
  {| maxBytes := maxBytes; nbytes := 0; ll := []; cache := ∅;
     OnEvicted := onEvicted |}.

(** [ll.Remove(ele)] and the removal half of [ll.MoveToFront(ele)]: the
    element is found by its key, the keys of the list being distinct. *)
Fixpoint remove_elem (k : string) (l : list entry) : list entry :=
  match l with
  | [] => []
  | e :: l' => if decide (key e = k) then l' else e :: remove_elem k l'
  end.

(** [ll.Back()] *)
Definition Back (l : list entry) : option entry := last l.

(** [func (c *Cache) RemoveOldest()] *)
Definition RemoveOldest (c : Cache) (w : W) : Cache * W :=
  match Back (ll c) with
  | Some kv =>
      let c' := {| maxBytes := maxBytes c;
                   nbytes := sub64 (nbytes c) (add64 (len (key kv)) (Len (value kv)));
                   ll := removelast (ll c);
                   cache := delete (key kv) (cache c);
                   OnEvicted := OnEvicted c |} in
      match OnEvicted c with
      | Some f => (c', f (key kv) (value kv) w)
      | None => (c', w)
      end
  | None => (c, w)
  end.

(** The guard of the eviction loop,
    [c.maxBytes != 0 && c.maxBytes < c.nbytes]. *)
Definition over (c : Cache) : bool :=
  negb (maxBytes c =? 0) && (maxBytes c <? nbytes c).

(** [for c.maxBytes != 0 && c.maxBytes < c.nbytes { c.RemoveOldest() }].
    [None] is a loop that has not exited within [fuel] iterations. *)
Fixpoint evict (fuel : nat) (c : Cache) (w : W) : option (Cache * W) :=
  if over c then
    match fuel with
    | O => None
    | S fuel' => let '(c', w') := RemoveOldest c w in evict fuel' c' w'
    end
  else Some (c, w).

(** The two branches of [Add] before the eviction loop. *)
Definition store (c : Cache) (k : string) (v : V) : Cache :=
  match cache c !! k with
  | Some kv =>
      let kv' := {| key := key kv; value := v |} in
      {| maxBytes := maxBytes c;
         nbytes := add64 (nbytes c) (sub64 (Len v) (Len (value kv)));
         ll := kv' :: remove_elem k (ll c);
         cache := <[k := kv']> (cache c);
         OnEvicted := OnEvicted c |}
  | None =>
      let ele := {| key := k; value := v |} in
      {| maxBytes := maxBytes c;
         nbytes := add64 (nbytes c) (add64 (len k) (Len v));
         ll := ele :: ll c;
         cache := <[k := ele]> (cache c);
         OnEvicted := OnEvicted c |}
  end.

(** [func (c *Cache) Add(key string, value Value)].  Every iteration of the
    eviction loop that changes anything shortens the list, so one more
    iteration than the list has elements decides whether the loop exits
    ([evict_more_fuel], [evict_stuck] below); [None] is an [Add] that never
    returns. *)
Definition Add (c : Cache) (k : string) (v : V) (w : W) : option (Cache * W) :=
  let c' := store c k v in
  evict (S (length (ll c'))) c' w.

(** [func (c *Cache) Get(key string) (value Value, ok bool)] *)
Definition Get (c : Cache) (k : string) : Cache * option V :=
  match cache c !! k with
  | Some kv =>
      ({| maxBytes := maxBytes c; nbytes := nbytes c;
          ll := kv :: remove_elem k (ll c);
          cache := cache c; OnEvicted := OnEvicted c |},
       Some (value kv))
  | None => (c, None)
  end.

(** [func (c *Cache) Len() int] *)
Definition CacheLen (c : Cache) : Z := Z.of_nat (length (ll c)).

End Cache.

Arguments entry V : clear implicits.
Arguments Cache V W : clear implicits.

End lru.

(** ** package consistenthash (src/consistenthash/consistenthash.go) *)

Module consistenthash.

(** [type Hash func(data []byte) uint32].  A hash function is any function
    on byte strings; its result is read as a [uint32]. *)
Definition Hash := string → Z.

Definition uint32 (z : Z) : Z := z mod 2 ^ 32.

(** [type Map struct] *)
Record Map := mkMap {
  hash : Hash;
  replicas : Z;
  keys : list Z;
  hashMap : gmap Z string
}.

Section Ring.
(** [crc32.ChecksumIEEE], the default hash function. *)
Variable ChecksumIEEE : Hash.

(** [func New(replicas int, fn Hash) *Map] *)
Definition New (replicas : Z) (fn : option Hash) : Map :=
  {| hash := match fn with Some f => f | None => ChecksumIEEE end;
     replicas := replicas; keys := []; hashMap := ∅ |}.

End Ring.

(** [strconv.Itoa] *)
Definition Itoa (i : Z) : string := NilZero.string_of_int (Z.to_int i).

(** The body of the inner loop of [Add], for the replica number [i] of the
    peer [key]. *)
Definition add_replica (key : string) (m : Map) (i : Z) : Map :=
  let virtualKey := Itoa i +:+ key in
  let h := uint32 (hash m virtualKey) in
  {| hash := hash m; replicas := replicas m;
     keys := keys m ++ [h];
     hashMap := <[h := key]> (hashMap m) |}.

(** [for i := 0; i < m.replicas; i++ { ... }] *)
Definition add_peer (m : Map) (key : string) : Map :=
  foldl (add_replica key) m (seqZ 0 (replicas m)).

(** [sort.Ints] *)
Definition sort_Ints (l : list Z) : list Z := merge_sort Z.le l.

(** [func (m *Map) Add(keys ...string)] *)
Definition Add (m : Map) (peers : list string) : Map :=
  let m' := foldl add_peer m peers in
  {| hash := hash m'; replicas := replicas m';
     keys := sort_Ints (keys m'); hashMap := hashMap m' |}.

(** [sort.Search] of the Go standard library:
    [i, j := 0, n; for i < j { h := int(uint(i+j) >> 1);
     if !f(h) { i = h + 1 } else { j = h } }; return i].
    The interval [j - i] shrinks at every iteration, so [j - i] iterations
    are enough ([search_loop_fuel] below). *)
Fixpoint search_loop (fuel : nat) (f : nat → bool) (i j : nat) : nat :=
  match fuel with
  | O => i
  | S fuel' =>
      if (i <? j)%nat then
        let h := ((i + j) / 2)%nat in
        if negb (f h) then search_loop fuel' f (h + 1)%nat j
        else search_loop fuel' f i h
      else i
  end.

Definition Search (n : nat) (f : nat → bool) : nat := search_loop n f 0%nat n.

(** [func (m *Map) Get(key string) string].  A missing map key reads as the
    empty string. *)
Definition Get (m : Map) (key : string) : string :=
  if (length (keys m) =? 0)%nat then ""
  else
    let h := uint32 (hash m key) in
    let idx := Search (length (keys m)) (λ i, h <=? keys m !!! i) in
    default "" (hashMap m !! (keys m !!! (idx mod length (keys m))%nat)).

End consistenthash.

(** ** package geecache (src/byteview.go, src/cache.go, src/geecache.go) *)

Module geecache.

(** [type ByteView struct { b []byte }] *)
Record ByteView := mkByteView { b : list Byte.byte }.

(** [func (v ByteView) Len() int] *)
Definition ByteView_Len (v : ByteView) : Z := Z.of_nat (length (b v)).

#[global] Instance ByteView_Value : lru.Value ByteView :=
  {| lru.Len := ByteView_Len;
     lru.Len_nonneg := λ v, Nat2Z.is_nonneg (length (b v)) |}.

(** [func cloneBytes(b []byte) []byte]: a fresh slice with the same
    contents. *)
Definition cloneBytes (bs : list Byte.byte) : list Byte.byte := bs.

(** [func (v ByteView) ByteSlice() []byte] *)
Definition ByteSlice (v : ByteView) : list Byte.byte := cloneBytes (b v).

(** Go [error] values: [fmt.Errorf] without [%w] makes a plain message,
    with [%w] it wraps the error it formats. *)
Inductive error :=
  | errorString (msg : string)
  | wrapError (msg : string) (err : error).

Definition Error (e : error) : string :=
  match e with errorString msg => msg | wrapError msg _ => msg end.

Definition Unwrap (e : error) : option error :=
  match e with errorString _ => None | wrapError _ err => Some err end.

(** [fmt.Errorf(prefix + "%w", err)] *)
Definition Errorf_w (prefix : string) (err : error) : error :=
  wrapError (prefix +:+ Error err) err.

(** [type cache struct].  [lru] is [None] while the pointer is nil; the LRU
    store is created without an eviction callback, so the callback state is
    [unit]. *)
Record cache := mkcache {
  lru : option (lru.Cache ByteView unit);
  cacheBytes : Z
}.

(** [func (c *cache) add(key string, value ByteView)]; [None] when
    [lru.Add] does not return. *)
Definition add (c : cache) (key : string) (value : ByteView) : option cache :=
  let l := match lru c with
           | None => lru.New (cacheBytes c) None
           | Some l => l
           end in
  match lru.Add l key value tt with
  | Some (l', _) => Some {| lru := Some l'; cacheBytes := cacheBytes c |}
  | None => None
  end.

(** [func (c *cache) get(key string) (value ByteView, ok bool)] *)
Definition get (c : cache) (key : string) : cache * option ByteView :=
  match lru c with
  | None => (c, None)
  | Some l =>
      let '(l', r) := lru.Get l key in
      ({| lru := Some l'; cacheBytes := cacheBytes c |}, r)
  end.

(** [type Getter interface { Get(key string) ([]byte, error) }] *)
Definition Getter := string → list Byte.byte + error.

(** [type Group struct] *)
Record Group := mkGroup {
  name : string;
  getter : Getter;
  mainCache : cache
}.

(** What a lookup does to the components around the group, in order: calls
    of [mainCache.get] and [mainCache.add], of the loader [getter.Get], of
    [log.Println], and calls into the packages [singleflight] and
    [consistenthash]. *)
Inductive event :=
  | EvCacheGet (key : string)
  | EvCacheAdd (key : string) (value : ByteView)
  | EvGetter (key : string)
  | EvLog (msg : string)
  | EvSingleflightDo (key : string)
  | EvRingGet (key : string).

(** A computation on a group: [None] when it does not return, otherwise the
    result, the group afterwards and the events in order. *)
Definition M (A : Type) : Type := Group → option (A * Group * list event).

#[global] Instance M_ret : MRet M := λ A a g, Some (a, g, []).

#[global] Instance M_bind : MBind M := λ A B f m g,
  match m g with
  | None => None
  | Some (a, g', t) =>
      match f a g' with
      | None => None
      | Some (r, g'', t') => Some (r, g'', t ++ t')
      end
  end.

Definition emit (e : event) : M unit := λ g, Some (tt, g, [e]).

(** [g.mainCache.get(key)] *)
Definition mainCache_get (key : string) : M (option ByteView) :=
  λ g, let '(c', r) := get (mainCache g) key in
       Some (r, {| name := name g; getter := getter g; mainCache := c' |},
             [EvCacheGet key]).

(** [g.getter.Get(key)] *)
Definition getter_Get (key : string) : M (list Byte.byte + error) :=
  λ g, Some (getter g key, g, [EvGetter key]).

(** [func (g *Group) populateCache(key string, value ByteView)] *)
Definition populateCache (key : string) (value : ByteView) : M unit :=
  λ g, match add (mainCache g) key value with
       | Some c' =>
           Some (tt, {| name := name g; getter := getter g; mainCache := c' |},
                 [EvCacheAdd key value])
       | None => None
       end.

(** [func (g *Group) getLocally(key string) (ByteView, error)] *)
Definition getLocally (key : string) : M (ByteView + error) :=
  r ← getter_Get key;
  match r with
  | inr err => mret (inr (Errorf_w "getter failed: " err))
  | inl bytes =>
      let value := {| b := cloneBytes bytes |} in
      populateCache key value;;
      mret (inl value)
  end.

(** [func (g *Group) load(key string) (value ByteView, err error)] *)
Definition load (key : string) : M (ByteView + error) := getLocally key.

(** [func (g *Group) Get(key string) (ByteView, error)] *)
Definition Get (key : string) : M (ByteView + error) :=
  if decide (key = "") then mret (inr (errorString "key is required"))
  else
    r ← mainCache_get key;
    match r with
    | Some v => emit (EvLog "[GeeCache] hit");; mret (inl v)
    | None => load key
    end.

(** [func NewGroup(name string, cacheBytes int64, getter Getter) *Group],
    for a getter that is not nil. *)
Definition NewGroup (name : string) (cacheBytes : Z) (getter : Getter) : Group :=
  {| name := name; getter := getter;
     mainCache := {| lru := None; cacheBytes := cacheBytes |} |}.

End geecache.

(** ** package singleflight (src/singleflight/singleflight.go)

    [Do] is run by several goroutines at once.  Each goroutine is at one
    statement of [Do]; a step of the system is one goroutine executing its
    current statement, and a schedule is the order in which goroutines are
    given a step. *)

Module singleflight.

Section Do.
(** The types of [c.val] and [c.err], with their zero values. *)
Context {Val Err : Type} (nil_val : Val) (nil_err : Err).

(** [type call struct { wg sync.WaitGroup; val interface{}; err error }];
    [wg] is the counter of the wait group. *)
Record call := mkcall { wg : nat; val : Val; err : Err }.

(** [type Group struct { mu sync.Mutex; m map[string]*call }].  [mu] is
    [true] while the mutex is held, [m] is [None] while the map is nil; a
    [*call] is an index into the store of allocated calls. *)
Record Group := mkGroup { mu : bool; m : option (gmap string nat) }.

(** The statement of [Do] a goroutine is about to execute, by source line;
    [c] is the local variable [c]. *)
Inductive pc :=
  | L38_Lock
  | L41_init
  | L46_lookup
  | L47_Unlock (c : nat)
  | L48_Wait (c : nat)
  | L49_return (c : nat)
  | L53_new
  | L54_wg_Add (c : nat)
  | L55_register (c : nat)
  | L56_Unlock (c : nat)
  | L59_fn (c : nat)
  | L60_wg_Done (c : nat)
  | L63_Lock (c : nat)
  | L64_delete (c : nat)
  | L65_Unlock (c : nat)
  | L67_return (c : nat)
  | Returned (v : Val) (e : Err).

(** What has happened so far, most recent first: a goroutine read
    [g.m[key]], a goroutine ran its [fn], a goroutine ran
    [delete(g.m, key)]. *)
Inductive label :=
  | Lookup (key : string)
  | Exec (key : string)
  | Delete (key : string).

Record state := mkstate {
  g : Group;
  heap : list call;
  pcs : list pc;
  log : list label
}.

(** The number of times [fn] has run. *)
Fixpoint execs (l : list label) : nat :=
  match l with
  | [] => O
  | Exec _ :: l' => S (execs l')
  | _ :: l' => execs l'
  end.

Definition set_pc (t : nat) (p : pc) (s : state) : state :=
  {| g := g s; heap := heap s; pcs := <[t := p]> (pcs s); log := log s |}.

Definition set_mu (x : bool) (s : state) : state :=
  {| g := {| mu := x; m := m (g s) |}; heap := heap s; pcs := pcs s;
     log := log s |}.

Definition set_m (x : option (gmap string nat)) (s : state) : state :=
  {| g := {| mu := mu (g s); m := x |}; heap := heap s; pcs := pcs s;
     log := log s |}.

Definition set_heap (h : list call) (s : state) : state :=
  {| g := g s; heap := h; pcs := pcs s; log := log s |}.

Definition note (l : label) (s : state) : state :=
  {| g := g s; heap := heap s; pcs := pcs s; log := l :: log s |}.

(** One statement of [Do(key, fn)] executed by goroutine [t].  [fn] is
    given the number of runs of [fn] before this one, so that it may count
    its runs and answer differently each time.  [None]: the goroutine is
    blocked ([Lock] on a held mutex, [Wait] on a positive counter), has
    returned, or would panic. *)
Definition Do_step (key : string) (fn : nat → Val * Err) (t : nat) (s : state)
  : option state :=
  p ← pcs s !! t;
  match p with
  | L38_Lock =>
      if mu (g s) then None else Some (set_pc t L41_init (set_mu true s))
  | L41_init =>
      Some (set_pc t L46_lookup
              (match m (g s) with None => set_m (Some ∅) s | Some _ => s end))
  | L46_lookup =>
      mp ← m (g s);
      Some (note (Lookup key)
              (match mp !! key with
               | Some c => set_pc t (L47_Unlock c) s
               | None => set_pc t L53_new s
               end))
  | L47_Unlock c => Some (set_pc t (L48_Wait c) (set_mu false s))
  | L48_Wait c =>
      cl ← heap s !! c;
      if (wg cl =? 0)%nat then Some (set_pc t (L49_return c) s) else None
  | L49_return c =>
      cl ← heap s !! c; Some (set_pc t (Returned (val cl) (err cl)) s)
  | L53_new =>
      Some (set_pc t (L54_wg_Add (length (heap s)))
              (set_heap (heap s ++ [mkcall 0 nil_val nil_err]) s))
  | L54_wg_Add c =>
      cl ← heap s !! c;
      Some (set_pc t (L55_register c)
              (set_heap (<[c := mkcall (wg cl + 1) (val cl) (err cl)]> (heap s)) s))
  | L55_register c =>
      mp ← m (g s);
      Some (set_pc t (L56_Unlock c) (set_m (Some (<[key := c]> mp)) s))
  | L56_Unlock c => Some (set_pc t (L59_fn c) (set_mu false s))
  | L59_fn c =>
      cl ← heap s !! c;
      let '(v, e) := fn (execs (log s)) in
      Some (note (Exec key)
              (set_pc t (L60_wg_Done c)
                 (set_heap (<[c := mkcall (wg cl) v e]> (heap s)) s)))
  | L60_wg_Done c =>
      cl ← heap s !! c;
      match wg cl with
      | O => None
      | S n =>
          Some (set_pc t (L63_Lock c)
                  (set_heap (<[c := mkcall n (val cl) (err cl)]> (heap s)) s))
      end
  | L63_Lock c =>
      if mu (g s) then None else Some (set_pc t (L64_delete c) (set_mu true s))
  | L64_delete c =>
      Some (note (Delete key)
              (set_pc t (L65_Unlock c)
                 (set_m (delete key <$> m (g s)) s)))
  | L65_Unlock c => Some (set_pc t (L67_return c) (set_mu false s))
  | L67_return c =>
      cl ← heap s !! c; Some (set_pc t (Returned (val cl) (err cl)) s)
  | Returned _ _ => None
  end.

(** [n] goroutines, each about to call [Do] on a fresh [Group]. *)
Definition init (n : nat) : state :=
  {| g := {| mu := false; m := None |}; heap := [];
     pcs := replicate n L38_Lock; log := [] |}.

(** The system run under a schedule; a goroutine that cannot take a step
    when it is scheduled is passed over. *)
Fixpoint run (key : string) (fn : nat → Val * Err) (sched : list nat)
  (s : state) : state :=
  match sched with
  | [] => s
  | t :: sched' => run key fn sched' (default s (Do_step key fn t s))
  end.

(** No goroutine can take a step. *)
Definition quiescent (key : string) (fn : nat → Val * Err) (s : state) : Prop :=
  ∀ t, Do_step key fn t s = None.

(** One window of demand: no goroutine reads [g.m[key]] after a
    [delete(g.m, key)] has run. *)
Fixpoint one_window (l : list label) : bool :=
  match l with
  | [] => true
  | Lookup _ :: l' =>
      forallb (λ x, match x with Delete _ => false | _ => true end) l'
      && one_window l'
  | _ :: l' => one_window l'
  end.

End Do.

Arguments pc Val Err : clear implicits.
Arguments call Val Err : clear implicits.
Arguments state Val Err : clear implicits.

End singleflight.

(** ** package geecache: the registry of groups (src/geecache.go) *)

Module registry.

(** [var groups = make(map[string]*Group)]: the [Group] objects by address,
    and the map from names to addresses.  The lock [mu] is held for the
    whole of [NewGroup] and around the map read of [GetGroup]; the functions
    here are run one at a time. *)
Record state := mkstate {
  objs : list geecache.Group;
  groups : gmap string nat
}.

Definition empty : state := {| objs := []; groups := ∅ |}.

Inductive result (A : Type) :=
  | Ok (a : A)
  | Panic (msg : string).
Arguments Ok {A} a.
Arguments Panic {A} msg.

(** [func NewGroup(name string, cacheBytes int64, getter Getter) *Group];
    the getter is [None] when it is nil. *)
Definition NewGroup (name : string) (cacheBytes : Z)
  (getter : option geecache.Getter) (s : state) : result (nat * state) :=
  match getter with
  | None => Panic "nil Getter"
  | Some f =>
      let g := length (objs s) in
      Ok (g, {| objs := objs s ++ [geecache.NewGroup name cacheBytes f];
                groups := <[name := g]> (groups s) |})
  end.

(** [func GetGroup(name string) *Group]; [None] is the nil pointer. *)
Definition GetGroup (name : string) (s : state) : option nat :=
  groups s !! name.

(** [group.Get(key)] for the group at the address [g]: [None] when the
    lookup does not return, and for an address at which there is no group,
    which no entry of [groups] has ([registry_reachable_ok] below). *)
Definition Get (g : nat) (key : string) (s : state)
  : option ((geecache.ByteView + geecache.error) * state * list geecache.event) :=
  grp ← objs s !! g;
  '(r, grp', tr) ← geecache.Get key grp;
  Some (r, {| objs := <[g := grp']> (objs s); groups := groups s |}, tr).

End registry.

(** ** package geecache: the HTTP pool (src/unnamed/part_000) *)

Module http.

Definition defaultBasePath : string := "/_geecache/".

(** [type HTTPPool struct] *)
Record HTTPPool := mkHTTPPool {
  self : string;
  basePath : string
}.

(** [func NewHTTPPool(self string) *HTTPPool] *)
Definition NewHTTPPool (self : string) : HTTPPool :=
  {| self := self; basePath := defaultBasePath |}.

(** What a handler reads of [*http.Request]: [r.Method] and [r.URL.Path]. *)
Record Request := mkRequest {
  Method : string;
  Path : string
}.

Definition StatusBadRequest : Z := 400.
Definition StatusNotFound : Z := 404.
Definition StatusInternalServerError : Z := 500.

(** What a handler does to its surroundings, in order: a line given to
    [log.Printf], an event of the group's lookup, and the calls on the
    [http.ResponseWriter]: [http.Error(w, msg, code)],
    [w.Header().Set(k, v)] and [w.Write(body)]. *)
Inductive effect :=
  | LogPrintf (line : string)
  | GroupGet (e : geecache.event)
  | Error (msg : string) (code : Z)
  | HeaderSet (k v : string)
  | Write (body : list Byte.byte).

(** [func (p *HTTPPool) Log(format string, v ...interface{})], given
    [fmt.Sprintf(format, v...)]. *)
Definition Log (p : HTTPPool) (msg : string) : effect :=
  LogPrintf ("[Server " +:+ self p +:+ "] " +:+ msg).

(** [strings.HasPrefix(s, prefix)] *)
Definition HasPrefix (s prefix : string) : bool := String.prefix prefix s.

(** The slice expression [s[n:]], which panics when [n] exceeds [len(s)]. *)
Fixpoint slice_from (n : nat) (s : string) : option string :=
  match n, s with
  | O, _ => Some s
  | S n', String _ s' => slice_from n' s'
  | S _, EmptyString => None
  end.

(** The text before and after the first ["/"] of [s], if there is one. *)
Fixpoint cut_slash (s : string) : option (string * string) :=
  match s with
  | EmptyString => None
  | String a s' =>
      if decide (String a EmptyString = "/") then Some (EmptyString, s')
      else match cut_slash s' with
           | Some (x, y) => Some (String a x, y)
           | None => None
           end
  end.

(** [strings.SplitN(s, "/", 2)] *)
Definition SplitN_slash_2 (s : string) : list string :=
  match cut_slash s with
  | Some (x, y) => [x; y]
  | None => [s]
  end.

Inductive outcome :=
  | Returned
  | Panicked (msg : string).

(** [func (p *HTTPPool) ServeHTTP(w http.ResponseWriter, r *http.Request)];
    [None] when the group's lookup does not return. *)
Definition ServeHTTP (p : HTTPPool) (r : Request) (s : registry.state)
  : option (outcome * registry.state * list effect) :=
  if negb (HasPrefix (Path r) (basePath p)) then
    Some (Panicked ("HTTPPool serving unexpected path: " +:+ Path r), s, [])
  else
    let line := Log p (Method r +:+ " " +:+ Path r) in
    match slice_from (String.length (basePath p)) (Path r) with
    | None => Some (Panicked "slice bounds out of range", s, [line])
    | Some rest =>
        match SplitN_slash_2 rest with
        | [groupName; key] =>
            match registry.GetGroup groupName s with
            | None =>
                Some (Returned, s,
                      [line; Error ("no such group: " +:+ groupName) StatusNotFound])
            | Some group =>
                match registry.Get group key s with
                | None => None
                | Some (inr err, s', tr) =>
                    Some (Returned, s',
                          line :: (GroupGet <$> tr) ++
                          [Error (geecache.Error err) StatusInternalServerError])
                | Some (inl view, s', tr) =>
                    Some (Returned, s',
                          line :: (GroupGet <$> tr) ++
                          [HeaderSet "Content-Type" "application/octet-stream";
                           Write (geecache.ByteSlice view)])
                end
            end
        | _ => Some (Returned, s, [line; Error "bad request" StatusBadRequest])
        end
    end.

End http.

(** ** package geecache: byte views over shared memory (src/byteview.go)

    Above a [ByteView] is the sequence of its bytes.  Here a byte slice is
    what it is in Go, a window on a backing array that other slices may
    share, so that a write through one slice is seen through the others. *)

Module byteview.

(** A slice: the address of its backing array, the index of its first
    element in the array, and its length. *)
Record slice := mkslice { arr : nat; off : nat; len : nat }.

(** The backing arrays by address. *)
Abbreviation mem := (list (list Byte.byte)).

(** The bytes that a slice shows. *)
Definition bytes (m : mem) (s : slice) : list Byte.byte :=
  match m !! arr s with
  | Some a => take (len s) (drop (off s) a)
  | None => []
  end.

(** [s[i] = x], which panics ([None]) when [i] is not below [len(s)]. *)
Definition set (s : slice) (i : nat) (x : Byte.byte) (m : mem) : option mem :=
  if decide (i < len s)%nat then
    a ← m !! arr s;
    Some (<[arr s := <[(off s + i)%nat := x]> a]> m)
  else None.

(** [make([]byte, n)]: a new array of [n] zero bytes. *)
Definition make (n : nat) (m : mem) : slice * mem :=
  ({| arr := length m; off := 0%nat; len := n |}, m ++ [replicate n Byte.x00]).

(** [copy(dst, src)]: the first [min(len(dst), len(src))] bytes of [src]
    are written to the start of [dst]; the number of bytes copied is
    returned. *)
Definition copy (dst src : slice) (m : mem) : nat * mem :=
  let n := Nat.min (len dst) (len src) in
  let data := take n (bytes m src) in
  match m !! arr dst with
  | Some a =>
      (n, <[arr dst := take (off dst) a ++ data ++ drop (off dst + n)%nat a]> m)
  | None => (n, m)
  end.

(** [type ByteView struct { b []byte }] *)
Record ByteView := mkByteView { b : slice }.

(** [func (v ByteView) Len() int] *)
Definition Len (v : ByteView) : Z := Z.of_nat (len (b v)).

(** [func cloneBytes(b []byte) []byte] *)
Definition cloneBytes (bs : slice) (m : mem) : slice * mem :=
  let '(c, m1) := make (len bs) m in
  let '(_, m2) := copy c bs m1 in
  (c, m2).

(** [func (v ByteView) ByteSlice() []byte] *)
Definition ByteSlice (v : ByteView) (m : mem) : slice * mem :=
  cloneBytes (b v) m.

(** [func (v ByteView) String() string]: the conversion [string(v.b)] makes
    a string value of the bytes. *)
Definition String (v : ByteView) (m : mem) : string :=
  String.string_of_list_byte (bytes m (b v)).

End byteview.

(** * Properties *)

(** ** Arithmetic on [int64] *)

Lemma wrap64_small z : - 2 ^ 63 ≤ z ≤ max_int64 → wrap64 z = z.
Proof.
  unfold wrap64, max_int64. intros Hz.
  rewrite Z.mod_small by lia. lia.
Qed.

Lemma wrap64_range z : - 2 ^ 63 ≤ wrap64 z ≤ max_int64.
Proof.
  unfold wrap64, max_int64.
  pose proof (Z.mod_pos_bound (z + 2 ^ 63) (2 ^ 64)). lia.
Qed.

Lemma wrap64_congr a b : a mod 2 ^ 64 = b mod 2 ^ 64 → wrap64 a = wrap64 b.
Proof.
  unfold wrap64. intros Hab.
  rewrite (Zplus_mod a), (Zplus_mod b), Hab. reflexivity.
Qed.

Lemma wrap64_mod z : wrap64 z mod 2 ^ 64 = z mod 2 ^ 64.
Proof.
  unfold wrap64.
  rewrite Zminus_mod, Z.mod_mod by lia.
  rewrite <- Zminus_mod. f_equal. lia.
Qed.

Lemma wrap64_add_l a b :
  wrap64 (wrap64 a + b) = wrap64 (a + b).
Proof.
  apply wrap64_congr.
  rewrite Zplus_mod, wrap64_mod, <- Zplus_mod. reflexivity.
Qed.

Lemma wrap64_add_r a b :
  wrap64 (a + wrap64 b) = wrap64 (a + b).
Proof.
  apply wrap64_congr.
  rewrite Zplus_mod, wrap64_mod, <- Zplus_mod. reflexivity.
Qed.

Lemma wrap64_sub_l a b :
  wrap64 (wrap64 a - b) = wrap64 (a - b).
Proof.
  apply wrap64_congr.
  rewrite Zminus_mod, wrap64_mod, <- Zminus_mod. reflexivity.
Qed.

Lemma wrap64_sub_r a b :
  wrap64 (a - wrap64 b) = wrap64 (a - b).
Proof.
  apply wrap64_congr.
  rewrite Zminus_mod, wrap64_mod, <- Zminus_mod. reflexivity.
Qed.

Lemma wrap64_0 : wrap64 0 = 0.
Proof. reflexivity. Qed.

(** ** The LRU store *)

Section lru_facts.
Context {V : Type} `{lru.Value V} {W : Type}.

Abbreviation entry := (lru.entry V).
Abbreviation Cache := (lru.Cache V W).

(** The size of an entry as [Add] and [RemoveOldest] count it. *)
Definition size (e : entry) : Z := lru.len (lru.key e) + lru.Len (lru.value e).

(** The bytes held: the sum of the sizes of the live entries. *)
Definition total (l : list entry) : Z := foldr (λ e acc, size e + acc) 0 l.

(** The map is the index of the list by key. *)
Definition index_ok (c : Cache) : Prop :=
  NoDup (lru.key <$> lru.ll c) ∧
  ∀ k e, lru.cache c !! k = Some e ↔ e ∈ lru.ll c ∧ lru.key e = k.

(** [nbytes] is the sum of the sizes, as an [int64]. *)
Definition counted (c : Cache) : Prop :=
  lru.nbytes c = wrap64 (total (lru.ll c)).

Definition inv (c : Cache) : Prop := index_ok c ∧ counted c.

(** The states of a store: a new one, and what [Add], [Get] and
    [RemoveOldest] make of a state. *)
Inductive reachable : Cache → Prop :=
  | reachable_New maxBytes onEvicted :
      reachable (lru.New maxBytes onEvicted)
  | reachable_Add c k v w c' w' :
      reachable c → lru.Add c k v w = Some (c', w') → reachable c'
  | reachable_Get c k :
      reachable c → reachable (lru.Get c k).1
  | reachable_RemoveOldest c w :
      reachable c → reachable (lru.RemoveOldest c w).1.

Lemma size_nonneg e : 0 ≤ size e.
Proof. unfold size, lru.len. pose proof (lru.Len_nonneg (lru.value e)). lia. Qed.

Lemma total_nonneg l : 0 ≤ total l.
Proof. induction l as [|e l IH]; simpl; [lia | pose proof (size_nonneg e); lia]. Qed.

Lemma total_app l1 l2 : total (l1 ++ l2) = total l1 + total l2.
Proof. induction l1 as [|e l1 IH]; simpl; lia. Qed.

Lemma total_le_elem e l : e ∈ l → size e ≤ total l.
Proof.
  induction 1 as [e l|e e' l _ IH]; simpl.
  - pose proof (total_nonneg l). lia.
  - pose proof (size_nonneg e'). lia.
Qed.

(** *** The list operations *)

Lemma remove_elem_absent k (l : list entry) :
  k ∉ lru.key <$> l → lru.remove_elem k l = l.
Proof.
  induction l as [|e l IH]; simpl; [done|].
  rewrite not_elem_of_cons. intros [Hne Hl].
  destruct (decide (lru.key e = k)); [congruence | by rewrite IH].
Qed.

Lemma elem_of_remove_elem k (l : list entry) e :
  NoDup (lru.key <$> l) →
  e ∈ lru.remove_elem k l ↔ e ∈ l ∧ lru.key e ≠ k.
Proof.
  induction l as [|a l IH]; simpl; intros Hnd.
  - rewrite elem_of_nil. tauto.
  - apply NoDup_cons in Hnd as [Ha Hnd].
    destruct (decide (lru.key a = k)) as [<-|Hne].
    + rewrite elem_of_cons. split.
      * intros He. split; [by right|].
        intros Heq. apply Ha. rewrite <- Heq. by apply list_elem_of_fmap_2.
      * intros [[->|He] Hk]; [done | done].
    + rewrite !elem_of_cons, IH by done. split.
      * intros [->|[He Hk]]; [by split; [left|] | by split; [right|]].
      * intros [[->|He] Hk]; [by left | by right].
Qed.

Lemma remove_elem_keys k (l : list entry) :
  NoDup (lru.key <$> l) →
  NoDup (lru.key <$> lru.remove_elem k l) ∧ k ∉ lru.key <$> lru.remove_elem k l.
Proof.
  induction l as [|a l IH]; simpl; intros Hnd.
  - split; [constructor | apply not_elem_of_nil].
  - apply NoDup_cons in Hnd as [Ha Hnd].
    destruct (decide (lru.key a = k)) as [<-|Hne]; [done|].
    destruct (IH Hnd) as [IH1 IH2]. simpl. split.
    + apply NoDup_cons. split; [|done].
      intros (e & Hke & He)%list_elem_of_fmap.
      apply elem_of_remove_elem in He as [He _]; [|done].
      apply Ha. rewrite Hke. by apply list_elem_of_fmap_2.
    + rewrite not_elem_of_cons. done.
Qed.

Lemma total_remove_elem k (l : list entry) e :
  e ∈ l → lru.key e = k → NoDup (lru.key <$> l) →
  total (lru.remove_elem k l) = total l - size e.
Proof.
  induction l as [|a l IH]; simpl; intros He Hk Hnd.
  - by apply elem_of_nil in He.
  - apply NoDup_cons in Hnd as [Ha Hnd].
    destruct (decide (lru.key a = k)) as [Hak|Hne].
    + apply elem_of_cons in He as [->|He]; [lia|].
      exfalso. apply Ha. rewrite Hak, <- Hk. by apply list_elem_of_fmap_2.
    + apply elem_of_cons in He as [->|He]; [done|].
      simpl. rewrite IH by done. lia.
Qed.

Lemma remove_elem_length k (l : list entry) e :
  e ∈ l → lru.key e = k → S (length (lru.remove_elem k l)) = length l.
Proof.
  induction l as [|a l IH]; simpl; intros He Hk.
  - by apply elem_of_nil in He.
  - destruct (decide (lru.key a = k)) as [Hak|Hne]; [done|].
    apply elem_of_cons in He as [->|He]; [done|].
    simpl. by rewrite IH.
Qed.

Lemma remove_elem_head k (e : entry) l :
  lru.key e = k → lru.remove_elem k (e :: l) = l.
Proof. intros Hk. simpl. by rewrite decide_True. Qed.

Lemma Back_snoc (l : list entry) e : lru.Back (l ++ [e]) = Some e.
Proof. unfold lru.Back. apply last_snoc. Qed.

Lemma Back_Some (l : list entry) e :
  lru.Back l = Some e → ∃ l', l = l' ++ [e].
Proof. unfold lru.Back. by intros ?%last_Some. Qed.

Lemma Back_None (l : list entry) : lru.Back l = None → l = [].
Proof. unfold lru.Back. apply last_None. Qed.

(** *** The invariant *)

Lemma key_unique (l : list entry) e e' :
  NoDup (lru.key <$> l) → e ∈ l → e' ∈ l → lru.key e = lru.key e' → e = e'.
Proof.
  induction l as [|a l IH]; simpl; intros Hnd He He' Hk.
  - by apply elem_of_nil in He.
  - apply NoDup_cons in Hnd as [Ha Hnd].
    apply elem_of_cons in He as [->|He], He' as [->|He'].
    + done.
    + exfalso. apply Ha. rewrite Hk. by apply list_elem_of_fmap_2.
    + exfalso. apply Ha. rewrite <- Hk. by apply list_elem_of_fmap_2.
    + by apply IH.
Qed.

Lemma index_ok_lookup_None (c : Cache) k :
  index_ok c → lru.cache c !! k = None → k ∉ lru.key <$> lru.ll c.
Proof.
  intros [_ Hidx] Hk (e & Hke & He)%list_elem_of_fmap.
  assert (lru.cache c !! k = Some e) as Hs by (apply Hidx; done).
  congruence.
Qed.

Lemma inv_New maxBytes onEvicted : inv (lru.New maxBytes onEvicted : Cache).
Proof.
  split; [split|]; simpl.
  - constructor.
  - intros k e. rewrite lookup_empty, elem_of_nil. split; [done | tauto].
  - done.
Qed.

Lemma index_ok_store (c : Cache) k v : index_ok c → index_ok (lru.store c k v).
Proof.
  intros Hc. pose proof Hc as [Hnd Hidx]. unfold lru.store.
  destruct (lru.cache c !! k) as [kv|] eqn:Hk.
  - apply Hidx in Hk as [Hin Hkey].
    destruct (remove_elem_keys k (lru.ll c) Hnd) as [Hnd' Hk'].
    split; simpl.
    + apply NoDup_cons. by rewrite Hkey.
    + intros k' e. rewrite lookup_insert, elem_of_cons.
      rewrite elem_of_remove_elem by done. case_decide as Hkk.
      * subst k'. split.
        -- intros [= <-]. simpl. by split; [left|].
        -- intros [[->|[_ Hne]] He]; [done | done].
      * rewrite Hidx. split.
        -- intros [He <-]. split; [right; done | done].
        -- intros [[->|[He _]] Hke]; simpl in *; [congruence | done].
  - pose proof (index_ok_lookup_None c k Hc Hk) as Hfresh.
    split; simpl.
    + by apply NoDup_cons.
    + intros k' e. rewrite lookup_insert, elem_of_cons. case_decide as Hkk.
      * subst k'. split.
        -- intros [= <-]. by split; [left|].
        -- intros [[->|He] Hke]; [done|].
           exfalso. apply Hfresh. rewrite <- Hke. by apply list_elem_of_fmap_2.
      * rewrite Hidx. split.
        -- intros [He <-]. by split; [right|].
        -- intros [[->|He] Hke]; simpl in *; [congruence | done].
Qed.

Lemma counted_store (c : Cache) k v : inv c → counted (lru.store c k v).
Proof.
  intros [[Hnd Hidx] Hcnt]. unfold counted, lru.store.
  destruct (lru.cache c !! k) as [kv|] eqn:Hk; simpl; rewrite Hcnt.
  - apply Hidx in Hk as [Hin Hkey].
    rewrite (total_remove_elem k _ kv) by done.
    unfold add64, sub64. rewrite wrap64_add_r, wrap64_add_l.
    f_equal. unfold size. simpl. lia.
  - unfold add64. rewrite wrap64_add_r, wrap64_add_l.
    f_equal. unfold size. simpl. lia.
Qed.

Lemma inv_store (c : Cache) k v : inv c → inv (lru.store c k v).
Proof. intros Hc. split; [apply index_ok_store, Hc | by apply counted_store]. Qed.

Lemma RemoveOldest_empty (c : Cache) w :
  lru.ll c = [] → lru.RemoveOldest c w = (c, w).
Proof. intros Hl. unfold lru.RemoveOldest. by rewrite Hl. Qed.

(** What [RemoveOldest] does to a list that has a last element. *)
Lemma RemoveOldest_snoc (c : Cache) w l e :
  lru.ll c = l ++ [e] →
  lru.RemoveOldest c w =
    ({| lru.maxBytes := lru.maxBytes c;
        lru.nbytes := sub64 (lru.nbytes c)
                        (add64 (lru.len (lru.key e)) (lru.Len (lru.value e)));
        lru.ll := l;
        lru.cache := delete (lru.key e) (lru.cache c);
        lru.OnEvicted := lru.OnEvicted c |},
     match lru.OnEvicted c with
     | Some f => f (lru.key e) (lru.value e) w
     | None => w
     end).
Proof.
  intros Hl. unfold lru.RemoveOldest.
  rewrite Hl, Back_snoc, removelast_last. by destruct (lru.OnEvicted c).
Qed.

Lemma inv_RemoveOldest (c : Cache) w : inv c → inv (lru.RemoveOldest c w).1.
Proof.
  intros Hc. destruct (lru.Back (lru.ll c)) as [e|] eqn:Hb.
  - apply Back_Some in Hb as [l Hb]. rewrite (RemoveOldest_snoc c w l e Hb).
    simpl. destruct Hc as [[Hnd Hidx] Hcnt]. rewrite Hb in Hnd, Hidx.
    rewrite fmap_app in Hnd. apply NoDup_app in Hnd as (Hnd & Hdisj & _).
    split; [split|]; simpl.
    + done.
    + intros k e'. rewrite lookup_delete. case_decide as Hk.
      * subst k. split; [done|]. intros [He' Hke].
        exfalso. apply (Hdisj (lru.key e)).
        -- rewrite <- Hke. by apply list_elem_of_fmap_2.
        -- simpl. apply list_elem_of_singleton. done.
      * rewrite Hidx, elem_of_app, list_elem_of_singleton. split.
        -- intros [[He'| ->] Hke]; [done | congruence].
        -- intros [He' Hke]. split; [by left | done].
    + unfold counted. simpl. rewrite Hcnt, Hb, total_app. simpl.
      unfold add64, sub64. rewrite wrap64_sub_r, wrap64_sub_l. f_equal.
      unfold size. lia.
  - apply Back_None in Hb. by rewrite RemoveOldest_empty.
Qed.

Lemma inv_Get (c : Cache) k : inv c → inv (lru.Get c k).1.
Proof.
  intros Hc. pose proof Hc as [[Hnd Hidx] Hcnt]. unfold lru.Get.
  destruct (lru.cache c !! k) as [kv|] eqn:Hk; [|done]. simpl.
  apply Hidx in Hk as [Hin Hkey].
  destruct (remove_elem_keys k (lru.ll c) Hnd) as [Hnd' Hk'].
  split; [split|]; simpl.
  - apply NoDup_cons. by rewrite Hkey.
  - intros k' e. rewrite Hidx, elem_of_cons, elem_of_remove_elem by done.
    split.
    + intros [He Hke]. split; [|done].
      destruct (decide (lru.key e = k)) as [Hek|Hek]; [|by right].
      left. apply (key_unique (lru.ll c)); congruence.
    + intros [[->|[He _]] Hke]; done.
  - unfold counted. simpl. rewrite Hcnt.
    rewrite (total_remove_elem k _ kv) by done. f_equal. lia.
Qed.

Lemma inv_evict n (c : Cache) w c' w' :
  inv c → lru.evict n c w = Some (c', w') → inv c'.
Proof.
  revert c w. induction n as [|n IHn]; intros c w Hc Hev; simpl in Hev.
  - destruct (lru.over c); [done|]. by injection Hev as <- <-.
  - destruct (lru.over c); [|by injection Hev as <- <-].
    destruct (lru.RemoveOldest c w) as [c1 w1] eqn:Hr.
    apply (IHn c1 w1); [|done].
    pose proof (inv_RemoveOldest c w Hc) as Hi. by rewrite Hr in Hi.
Qed.

Lemma inv_Add (c : Cache) k v w c' w' :
  inv c → lru.Add c k v w = Some (c', w') → inv c'.
Proof. intros Hc. apply inv_evict, inv_store, Hc. Qed.

Lemma reachable_inv (c : Cache) : reachable c → inv c.
Proof.
  induction 1 as [mb cb|c k v w c' w' _ IH Hadd|c k _ IH|c w _ IH].
  - apply inv_New.
  - by apply (inv_Add c k v w c' w').
  - by apply inv_Get.
  - by apply inv_RemoveOldest.
Qed.

(** *** The eviction loop *)

Lemma evict_stuck n (c : Cache) w :
  lru.ll c = [] → lru.over c = true → lru.evict n c w = None.
Proof.
  intros Hl Hov. induction n as [|n IHn]; simpl; rewrite Hov; [done|].
  by rewrite RemoveOldest_empty.
Qed.

Lemma RemoveOldest_length (c : Cache) w :
  lru.ll c ≠ [] →
  S (length (lru.ll (lru.RemoveOldest c w).1)) = length (lru.ll c).
Proof.
  intros Hne. destruct (lru.Back (lru.ll c)) as [e|] eqn:Hb.
  - apply Back_Some in Hb as [l Hb]. rewrite (RemoveOldest_snoc c w l e Hb).
    simpl. rewrite Hb, length_app. simpl. lia.
  - by apply Back_None in Hb.
Qed.

(** More fuel than the list has elements changes nothing: the fuel given by
    [Add] never cuts a loop short. *)
Lemma evict_more_fuel n (c : Cache) w :
  (length (lru.ll c) < n)%nat →
  lru.evict n c w = lru.evict (S (length (lru.ll c))) c w.
Proof.
  revert c w. induction n as [|n IHn]; intros c w Hn; [lia|].
  simpl. destruct (lru.over c) eqn:Hov; [|done].
  destruct (decide (lru.ll c = [])) as [Hl|Hl].
  - rewrite RemoveOldest_empty by done. rewrite Hl. simpl. rewrite Hov.
    by apply evict_stuck.
  - pose proof (RemoveOldest_length c w Hl) as Hlen.
    destruct (lru.RemoveOldest c w) as [c1 w1]. simpl in Hlen.
    rewrite IHn by lia. by rewrite Hlen.
Qed.

Lemma evict_mono n m (c : Cache) w r :
  lru.evict n c w = Some r → (n ≤ m)%nat → lru.evict m c w = Some r.
Proof.
  revert m c w. induction n as [|n IHn]; intros m c w Hev Hnm; simpl in Hev.
  - destruct (lru.over c) eqn:Hov; [done|]. destruct m; simpl; by rewrite Hov.
  - destruct m as [|m]; [lia|]. simpl. destruct (lru.over c); [|done].
    destruct (lru.RemoveOldest c w) as [c1 w1]. apply IHn; [done | lia].
Qed.

(** An [Add] that does not return with the fuel it is given returns with
    none. *)
Lemma Add_None_diverges (c : Cache) k v w :
  lru.Add c k v w = None → ∀ n, lru.evict n (lru.store c k v) w = None.
Proof.
  unfold lru.Add. intros Hadd n.
  destruct (lru.evict n (lru.store c k v) w) as [r|] eqn:Hev; [|done].
  apply evict_mono with (m := (n `max` S (length (lru.ll (lru.store c k v))))%nat)
    in Hev; [|lia].
  rewrite evict_more_fuel in Hev by lia. congruence.
Qed.

Lemma over_false (c : Cache) :
  lru.over c = false ↔ lru.maxBytes c = 0 ∨ lru.nbytes c ≤ lru.maxBytes c.
Proof.
  unfold lru.over. rewrite andb_false_iff, negb_false_iff, Z.eqb_eq, Z.ltb_ge.
  done.
Qed.

Lemma over_true (c : Cache) :
  lru.over c = true ↔ lru.maxBytes c ≠ 0 ∧ lru.maxBytes c < lru.nbytes c.
Proof.
  unfold lru.over. rewrite andb_true_iff, negb_true_iff, Z.eqb_neq, Z.ltb_lt.
  done.
Qed.

(** From a state that satisfies the invariant, with a capacity that is not
    negative, the loop exits. *)
Lemma evict_returns (c : Cache) w :
  inv c → 0 ≤ lru.maxBytes c →
  ∃ c' w', lru.evict (S (length (lru.ll c))) c w = Some (c', w').
Proof.
  remember (length (lru.ll c)) as n eqn:Hn. revert c w Hn.
  induction n as [|n IHn]; intros c w Hn Hc Hmax.
  - simpl. destruct (lru.over c) eqn:Hov; [|eauto].
    apply over_true in Hov as [_ Hov]. exfalso.
    destruct Hc as [_ Hcnt]. unfold counted in Hcnt.
    symmetry in Hn. apply nil_length_inv in Hn. rewrite Hn in Hcnt.
    simpl in Hcnt. rewrite wrap64_0 in Hcnt. lia.
  - cbn [lru.evict]. destruct (lru.over c) eqn:Hov; [|eauto].
    assert (lru.ll c ≠ []) as Hl by (intros Hl; by rewrite Hl in Hn).
    pose proof (RemoveOldest_length c w Hl) as Hlen.
    pose proof (inv_RemoveOldest c w Hc) as Hc1.
    assert (lru.maxBytes (lru.RemoveOldest c w).1 = lru.maxBytes c) as Hm.
    { unfold lru.RemoveOldest.
      destruct (lru.Back (lru.ll c)); [destruct (lru.OnEvicted c)|]; done. }
    destruct (lru.RemoveOldest c w) as [c1 w1]. simpl in *.
    apply IHn; [lia | done | lia].
Qed.

Lemma Add_returns (c : Cache) k v w :
  inv c → 0 ≤ lru.maxBytes c → ∃ c' w', lru.Add c k v w = Some (c', w').
Proof.
  intros Hc Hmax. unfold lru.Add. apply evict_returns.
  - by apply inv_store.
  - unfold lru.store. by destruct (lru.cache c !! k).
Qed.

(** The eviction callback run on the entries [l], in order. *)
Definition notify (cb : option (string → V → W → W)) (l : list entry) (w : W) : W :=
  match cb with
  | Some f => foldl (λ w e, f (lru.key e) (lru.value e) w) w l
  | None => w
  end.

Lemma notify_cons cb e l w :
  notify cb (e :: l) w = notify cb l (notify cb [e] w).
Proof. by destruct cb. Qed.

(** What the loop has done when it exits: the entries it evicted are the
    last ones of the list, and the callback has seen them from the back. *)
Lemma evict_spec n (c : Cache) w c' w' :
  lru.evict n c w = Some (c', w') →
  lru.over c' = false ∧
  lru.maxBytes c' = lru.maxBytes c ∧
  lru.OnEvicted c' = lru.OnEvicted c ∧
  ∃ ev, lru.ll c = lru.ll c' ++ ev ∧
        w' = notify (lru.OnEvicted c) (reverse ev) w.
Proof.
  assert (∀ (c : Cache) w, lru.over c = false →
    lru.over c = false ∧ lru.maxBytes c = lru.maxBytes c ∧
    lru.OnEvicted c = lru.OnEvicted c ∧
    ∃ ev, lru.ll c = lru.ll c ++ ev ∧
          w = notify (lru.OnEvicted c) (reverse ev) w) as Hexit.
  { intros c0 w0 Hov. split_and!; [done..|]. exists [].
    rewrite app_nil_r. split; [done|]. by destruct (lru.OnEvicted c0). }
  revert c w. induction n as [|n IHn]; intros c w Hev; simpl in Hev.
  - destruct (lru.over c) eqn:Hov; [done|]. injection Hev as <- <-. by apply Hexit.
  - destruct (lru.over c) eqn:Hov; [|injection Hev as <- <-; by apply Hexit].
    destruct (lru.Back (lru.ll c)) as [e|] eqn:Hb.
    + apply Back_Some in Hb as [l Hb].
      rewrite (RemoveOldest_snoc c w l e Hb) in Hev.
      apply IHn in Hev as (Hov' & Hm & Hcb & ev & Hl & Hw). simpl in *.
      split_and!; [done..|]. exists (ev ++ [e]). split.
      * by rewrite Hb, Hl, app_assoc.
      * rewrite reverse_app. simpl. by rewrite notify_cons, Hw.
    + apply Back_None in Hb. rewrite RemoveOldest_empty in Hev by done.
      by rewrite evict_stuck in Hev.
Qed.

(** When the bytes held fit in an [int64], [nbytes] is their exact sum. *)
Lemma counted_exact (c : Cache) :
  counted c → total (lru.ll c) ≤ max_int64 → lru.nbytes c = total (lru.ll c).
Proof.
  unfold counted. intros -> Hfit. apply wrap64_small.
  pose proof (total_nonneg (lru.ll c)). lia.
Qed.

(** *** Sequences of [Add] *)

(** [Add] called on each pair of [ops] in turn. *)
Fixpoint AddAll (c : Cache) (ops : list (string * V)) (w : W)
  : option (Cache * W) :=
  match ops with
  | [] => Some (c, w)
  | (k, v) :: ops' =>
      match lru.Add c k v w with
      | Some (c', w') => AddAll c' ops' w'
      | None => None
      end
  end.

Lemma store_maxBytes (c : Cache) k v :
  lru.maxBytes (lru.store c k v) = lru.maxBytes c.
Proof. unfold lru.store. by destruct (lru.cache c !! k). Qed.

Lemma store_OnEvicted (c : Cache) k v :
  lru.OnEvicted (lru.store c k v) = lru.OnEvicted c.
Proof. unfold lru.store. by destruct (lru.cache c !! k). Qed.

Lemma Add_spec (c : Cache) k v w c' w' :
  lru.Add c k v w = Some (c', w') →
  lru.over c' = false ∧
  lru.maxBytes c' = lru.maxBytes c ∧
  lru.OnEvicted c' = lru.OnEvicted c ∧
  ∃ ev, lru.ll (lru.store c k v) = lru.ll c' ++ ev ∧
        w' = notify (lru.OnEvicted c) (reverse ev) w.
Proof.
  unfold lru.Add. intros Hev. apply evict_spec in Hev.
  by rewrite store_maxBytes, store_OnEvicted in Hev.
Qed.

Lemma AddAll_bounded (C : Z) (ops : list (string * V)) :
  0 < C → ∀ (c : Cache) w,
  inv c → lru.maxBytes c = C →
  ∃ c' w', AddAll c ops w = Some (c', w') ∧ inv c' ∧ lru.maxBytes c' = C ∧
           (ops ≠ [] → lru.nbytes c' ≤ C).
Proof.
  intros HC. induction ops as [|[k v] ops IH]; intros c w Hc Hm; simpl.
  - exists c, w. done.
  - destruct (Add_returns c k v w Hc) as (c1 & w1 & Hadd); [lia|].
    rewrite Hadd. pose proof (inv_Add _ _ _ _ _ _ Hc Hadd) as Hc1.
    apply Add_spec in Hadd as (Hov & Hm1 & _).
    destruct (IH c1 w1 Hc1) as (c' & w' & Hall & Hc' & Hm' & Hle); [congruence|].
    exists c', w'. split_and!; [done..|]. intros _.
    destruct ops as [|op ops]; [|by apply Hle].
    simpl in Hall. injection Hall as <- <-.
    apply over_false in Hov. lia.
Qed.

(** C1.  Capacity bound: with a capacity [C > 0], every sequence of [Add]
    calls on a new store returns, and after each call the byte count
    [nbytes] is at most [C]; [nbytes] is the sum of the sizes (key length
    plus value length) of the live entries whenever that sum fits in an
    [int64], so the bytes held are at most [C]. *)
Theorem capacity_bound (C : Z) cb (ops : list (string * V)) (w : W) (n : nat) :
  0 < C →
  ∃ c w', AddAll (lru.New C cb) (take n ops) w = Some (c, w') ∧
          lru.nbytes c ≤ C ∧
          (total (lru.ll c) ≤ max_int64 →
           lru.nbytes c = total (lru.ll c) ∧ total (lru.ll c) ≤ C).
Proof.
  intros HC.
  destruct (AddAll_bounded C (take n ops) HC (lru.New C cb) w)
    as (c & w' & Hall & Hc & Hm & Hle); [apply inv_New | done |].
  exists c, w'. split; [done|].
  assert (lru.nbytes c ≤ C) as Hn.
  { destruct (take n ops) as [|op l]; [|by apply Hle].
    simpl in Hall. injection Hall as <- <-. simpl. lia. }
  split; [done|]. intros Hfit.
  destruct Hc as [_ Hcnt]. apply counted_exact in Hcnt; [|done]. lia.
Qed.

(** *** Byte accounting *)

Lemma store_new (c : Cache) k v :
  lru.cache c !! k = None →
  lru.ll (lru.store c k v) = lru.Entry k v :: lru.ll c ∧
  lru.nbytes (lru.store c k v) = add64 (lru.nbytes c) (add64 (lru.len k) (lru.Len v)).
Proof. intros Hk. unfold lru.store. by rewrite Hk. Qed.

Lemma store_old (c : Cache) k v kv :
  lru.cache c !! k = Some kv →
  lru.ll (lru.store c k v) = lru.Entry (lru.key kv) v :: lru.remove_elem k (lru.ll c) ∧
  lru.nbytes (lru.store c k v) =
    add64 (lru.nbytes c) (sub64 (lru.Len v) (lru.Len (lru.value kv))).
Proof. intros Hk. unfold lru.store. by rewrite Hk. Qed.

Lemma total_store_new (c : Cache) k v :
  lru.cache c !! k = None →
  total (lru.ll (lru.store c k v)) = total (lru.ll c) + (lru.len k + lru.Len v).
Proof.
  intros Hk. destruct (store_new c k v Hk) as [-> _]. unfold total, size.
  simpl. lia.
Qed.

Lemma total_store_old (c : Cache) k v kv :
  index_ok c → lru.cache c !! k = Some kv →
  total (lru.ll (lru.store c k v)) =
    total (lru.ll c) + (lru.Len v - lru.Len (lru.value kv)).
Proof.
  intros [Hnd Hidx] Hk. destruct (store_old c k v kv Hk) as [-> _].
  apply Hidx in Hk as [Hin Hkey]. simpl.
  rewrite (total_remove_elem k _ kv) by done. unfold size. simpl. lia.
Qed.

Lemma total_store_le (c : Cache) k v :
  index_ok c →
  total (lru.ll (lru.store c k v)) ≤ total (lru.ll c) + (lru.len k + lru.Len v).
Proof.
  intros Hc. destruct (lru.cache c !! k) as [kv|] eqn:Hk.
  - rewrite (total_store_old c k v kv) by done.
    pose proof (lru.Len_nonneg (lru.value kv)). unfold lru.len. lia.
  - rewrite total_store_new by done. lia.
Qed.

Lemma total_RemoveOldest_le (c : Cache) w :
  total (lru.ll (lru.RemoveOldest c w).1) ≤ total (lru.ll c).
Proof.
  destruct (lru.Back (lru.ll c)) as [e|] eqn:Hb.
  - apply Back_Some in Hb as [l Hb]. rewrite (RemoveOldest_snoc c w l e Hb).
    simpl. rewrite Hb, total_app. pose proof (total_nonneg [e]). lia.
  - apply Back_None in Hb. by rewrite RemoveOldest_empty.
Qed.

Lemma total_Get (c : Cache) k :
  index_ok c → total (lru.ll (lru.Get c k).1) = total (lru.ll c).
Proof.
  intros [Hnd Hidx]. unfold lru.Get.
  destruct (lru.cache c !! k) as [kv|] eqn:Hk; [|done]. simpl.
  apply Hidx in Hk as [Hin Hkey].
  rewrite (total_remove_elem k _ kv) by done. lia.
Qed.

(** C9.  Byte accounting: in every state of the store between operations,
    [nbytes] is the sum of key length plus value length over the live
    entries (those of the list, which are those of the map), as long as
    that sum fits in an [int64].  [Add] of a new key raises both by the key
    length plus the value length, [Add] on a key that is present applies
    only the difference of the value lengths, and the equality holds again
    after [Add] (with its evictions), after [Get] and after
    [RemoveOldest]. *)
Theorem byte_accounting (c : Cache) :
  reachable c → total (lru.ll c) ≤ max_int64 →
  index_ok c ∧
  lru.nbytes c = total (lru.ll c) ∧
  (∀ k v, lru.cache c !! k = None →
     total (lru.ll c) + (lru.len k + lru.Len v) ≤ max_int64 →
     lru.nbytes (lru.store c k v) = lru.nbytes c + (lru.len k + lru.Len v) ∧
     lru.nbytes (lru.store c k v) = total (lru.ll (lru.store c k v))) ∧
  (∀ k v kv, lru.cache c !! k = Some kv →
     total (lru.ll c) + lru.Len v ≤ max_int64 →
     lru.nbytes (lru.store c k v) =
       lru.nbytes c + (lru.Len v - lru.Len (lru.value kv)) ∧
     lru.nbytes (lru.store c k v) = total (lru.ll (lru.store c k v))) ∧
  (∀ k v w, 0 ≤ lru.maxBytes c → ∃ c' w', lru.Add c k v w = Some (c', w')) ∧
  (∀ k v w c' w', lru.Add c k v w = Some (c', w') →
     total (lru.ll c') ≤ max_int64 → lru.nbytes c' = total (lru.ll c')) ∧
  (∀ k, lru.nbytes (lru.Get c k).1 = total (lru.ll (lru.Get c k).1)) ∧
  (∀ w, lru.nbytes (lru.RemoveOldest c w).1 =
        total (lru.ll (lru.RemoveOldest c w).1)).
Proof.
  intros Hr Hfit. pose proof (reachable_inv c Hr) as Hc.
  pose proof Hc as [Hidx Hcnt].
  pose proof (counted_exact c Hcnt Hfit) as Hex.
  split_and!; [done | done | | | | | |].
  - intros k v Hk Hfit'.
    pose proof (inv_store c k v Hc) as [_ Hcnt'].
    pose proof (total_store_new c k v Hk) as Ht.
    apply counted_exact in Hcnt'; [|lia]. lia.
  - intros k v kv Hk Hfit'.
    pose proof (inv_store c k v Hc) as [_ Hcnt'].
    pose proof (total_store_old c k v kv Hidx Hk) as Ht.
    pose proof (lru.Len_nonneg (lru.value kv)).
    apply counted_exact in Hcnt'; [|lia]. lia.
  - intros k v w Hmax. by apply Add_returns.
  - intros k v w c' w' Hadd Hfit'.
    pose proof (inv_Add _ _ _ _ _ _ Hc Hadd) as [_ Hcnt'].
    by apply counted_exact.
  - intros k. pose proof (inv_Get c k Hc) as [_ Hcnt'].
    apply counted_exact; [done|]. by rewrite total_Get.
  - intros w. pose proof (inv_RemoveOldest c w Hc) as [_ Hcnt'].
    apply counted_exact; [done|]. pose proof (total_RemoveOldest_le c w). lia.
Qed.

(** *** Entries larger than the capacity *)

Lemma store_head (c : Cache) k v :
  index_ok c →
  ∃ rest, lru.ll (lru.store c k v) = lru.Entry k v :: rest ∧
          (lru.ll c = [] → rest = []).
Proof.
  intros [Hnd Hidx]. unfold lru.store.
  destruct (lru.cache c !! k) as [kv|] eqn:Hk; simpl.
  - apply Hidx in Hk as [Hin Hkey]. rewrite Hkey. eexists. split; [done|].
    intros Hl. rewrite Hl in Hin. by apply elem_of_nil in Hin.
  - eauto.
Qed.

Lemma store_lookup (c : Cache) k v :
  index_ok c → lru.cache (lru.store c k v) !! k = Some (lru.Entry k v).
Proof.
  intros [Hnd Hidx]. unfold lru.store.
  destruct (lru.cache c !! k) as [kv|] eqn:Hk; simpl.
  - apply Hidx in Hk as [Hin Hkey]. by rewrite Hkey, lookup_insert_eq.
  - by rewrite lookup_insert_eq.
Qed.

Lemma inv_nil (c : Cache) :
  inv c → lru.ll c = [] →
  c = lru.New (lru.maxBytes c) (lru.OnEvicted c).
Proof.
  intros [[_ Hidx] Hcnt] Hl. unfold counted in Hcnt. rewrite Hl in Hcnt.
  destruct c as [mb nb l mp cb]. simpl in *. subst l. unfold lru.New.
  f_equal; [done|]. apply map_eq. intros k. rewrite lookup_empty.
  destruct (mp !! k) as [e|] eqn:Hk; [|done].
  apply Hidx in Hk as [Hin _]. by apply elem_of_nil in Hin.
Qed.

Lemma Add_oversized (c : Cache) k v w :
  inv c → 0 < lru.maxBytes c → lru.maxBytes c < lru.len k + lru.Len v →
  total (lru.ll c) + (lru.len k + lru.Len v) ≤ max_int64 →
  ∃ rest, lru.ll (lru.store c k v) = lru.Entry k v :: rest ∧
          (lru.ll c = [] → rest = []) ∧
          lru.Add c k v w =
            Some (lru.New (lru.maxBytes c) (lru.OnEvicted c),
                  notify (lru.OnEvicted c) (reverse rest ++ [lru.Entry k v]) w).
Proof.
  intros Hc Hpos Hbig Hfit. pose proof Hc as [Hidx _].
  destruct (store_head c k v Hidx) as (rest & Hhead & Hrest).
  exists rest. split_and!; [done..|].
  destruct (Add_returns c k v w Hc) as (c' & w' & Hadd); [lia|].
  rewrite Hadd. pose proof (inv_Add _ _ _ _ _ _ Hc Hadd) as Hc'.
  apply Add_spec in Hadd as (Hov & Hm & Hcb & ev & Hl & ->).
  pose proof (total_store_le c k v Hidx) as Hle.
  rewrite Hl, total_app in Hle. pose proof (total_nonneg ev).
  pose proof (total_nonneg (lru.ll c')).
  destruct Hc' as [Hidx' Hcnt']. pose proof Hcnt' as Hex.
  apply counted_exact in Hex; [|lia].
  apply over_false in Hov.
  destruct (lru.ll c') as [|e l'] eqn:Hll.
  - rewrite (inv_nil c') by done. rewrite Hm, Hcb. do 2 f_equal.
    simpl in Hl. rewrite <- Hl, Hhead. by rewrite reverse_cons.
  - exfalso. rewrite Hhead in Hl. simpl in Hl. injection Hl as <- _.
    simpl in Hex. unfold size in Hex. simpl in Hex.
    pose proof (total_nonneg l'). lia.
Qed.

(** C8.  An entry larger than the capacity: with a capacity [C > 0], [Add]
    of an entry whose key length plus value length exceeds [C] puts the
    entry at the front of the list and in the map, and the eviction loop
    then removes every entry, this one last: [Add] returns the empty store,
    [Get] of the key misses, and the callback, when there is one, has been
    called on the evicted entries, last of all on this key and value.  From
    an empty store the callback is called on this entry alone. *)
Theorem oversized_entry (c : Cache) k v w :
  reachable c → 0 < lru.maxBytes c →
  lru.maxBytes c < lru.len k + lru.Len v →
  total (lru.ll c) + (lru.len k + lru.Len v) ≤ max_int64 →
  ∃ rest c' w',
    lru.ll (lru.store c k v) = lru.Entry k v :: rest ∧
    lru.cache (lru.store c k v) !! k = Some (lru.Entry k v) ∧
    lru.Add c k v w = Some (c', w') ∧
    c' = lru.New (lru.maxBytes c) (lru.OnEvicted c) ∧
    lru.Get c' k = (c', None) ∧
    w' = notify (lru.OnEvicted c) (reverse rest ++ [lru.Entry k v]) w ∧
    (lru.ll c = [] →
     c' = c ∧ w' = match lru.OnEvicted c with Some f => f k v w | None => w end).
Proof.
  intros Hr Hpos Hbig Hfit. pose proof (reachable_inv c Hr) as Hc.
  destruct (Add_oversized c k v w Hc Hpos Hbig Hfit) as (rest & Hhead & Hrest & Hadd).
  eexists rest, _, _. split_and!; [done | | done | done | done | done |].
  - apply store_lookup, Hc.
  - intros Hl. split; [by rewrite <- inv_nil|].
    rewrite (Hrest Hl). simpl. by destruct (lru.OnEvicted c).
Qed.

(** *** [Add] twice *)

Lemma evict_keeps_head n (c : Cache) w c' w' e rest :
  inv c → total (lru.ll c) ≤ max_int64 →
  lru.ll c = e :: rest →
  lru.maxBytes c = 0 ∨ size e ≤ lru.maxBytes c →
  lru.evict n c w = Some (c', w') →
  ∃ l', lru.ll c' = e :: l'.
Proof.
  revert c w rest. induction n as [|n IHn]; intros c w rest Hc Hfit Hl Hsz Hev;
    simpl in Hev.
  - destruct (lru.over c); [done|]. injection Hev as <- <-. eauto.
  - destruct (lru.over c) eqn:Hov; [|injection Hev as <- <-; eauto].
    apply over_true in Hov as [Hne Hlt].
    pose proof (counted_exact c (proj2 Hc) Hfit) as Hex.
    destruct (lru.Back (lru.ll c)) as [x|] eqn:Hb.
    + apply Back_Some in Hb as [l Hb].
      pose proof (inv_RemoveOldest c w Hc) as Hc1.
      pose proof (total_RemoveOldest_le c w) as Hle.
      rewrite (RemoveOldest_snoc c w l x Hb) in Hev, Hc1, Hle.
      simpl in Hc1, Hle. rewrite Hl in Hb.
      destruct l as [|e0 l0]; simpl in Hb.
      * injection Hb as -> ->. rewrite Hl in Hex. simpl in Hex. lia.
      * injection Hb as <- ->.
        apply (IHn _ _ l0) in Hev; [done | done | simpl in *; lia | done | done].
    + apply Back_None in Hb. congruence.
Qed.

(** [Add] of the key and value that are at the front already changes
    nothing. *)
Lemma store_front (c : Cache) k v l :
  inv c → lru.ll c = lru.Entry k v :: l → lru.store c k v = c.
Proof.
  intros [[Hnd Hidx] Hcnt] Hl.
  assert (lru.cache c !! k = Some (lru.Entry k v)) as Hk.
  { apply Hidx. rewrite Hl. split; [by left | done]. }
  unfold lru.store. rewrite Hk. simpl.
  destruct c as [mb nb ll0 mp cb]. simpl in *. f_equal.
  - rewrite Hcnt. unfold add64, sub64. rewrite wrap64_add_r, wrap64_add_l.
    f_equal. lia.
  - rewrite Hl. by rewrite remove_elem_head.
  - by apply insert_id.
Qed.

Lemma Add_maxBytes_nonneg (c : Cache) k v w c' w' :
  inv c → total (lru.ll c) + (lru.len k + lru.Len v) ≤ max_int64 →
  lru.Add c k v w = Some (c', w') → 0 ≤ lru.maxBytes c.
Proof.
  intros Hc Hfit Hadd. pose proof (inv_Add _ _ _ _ _ _ Hc Hadd) as [_ Hcnt'].
  apply Add_spec in Hadd as (Hov & Hm & _ & ev & Hl & _).
  pose proof (total_store_le c k v (proj1 Hc)) as Hle.
  rewrite Hl, total_app in Hle.
  pose proof (total_nonneg ev). pose proof (total_nonneg (lru.ll c')).
  apply counted_exact in Hcnt'; [|lia].
  apply over_false in Hov. lia.
Qed.

(** C10, as the code has it.  [Add] of the same key and value twice in a
    row leaves the store as the first [Add] left it.  When the capacity is
    unlimited or the entry fits in it, the second [Add] changes nothing
    before its eviction loop, the loop does not run, and the callback is not
    called.  When the entry alone exceeds a positive capacity, both calls
    leave the store empty and the second one evicts the entry again. *)
Theorem Add_twice (c : Cache) k v w c1 w1 :
  reachable c →
  total (lru.ll c) + (lru.len k + lru.Len v) ≤ max_int64 →
  lru.Add c k v w = Some (c1, w1) →
  ∃ w2, lru.Add c1 k v w1 = Some (c1, w2) ∧
    (lru.maxBytes c = 0 ∨ lru.len k + lru.Len v ≤ lru.maxBytes c →
       lru.store c1 k v = c1 ∧ lru.over (lru.store c1 k v) = false ∧ w2 = w1) ∧
    (0 < lru.maxBytes c < lru.len k + lru.Len v →
       lru.ll c1 = [] ∧
       w2 = notify (lru.OnEvicted c) [lru.Entry k v] w1).
Proof.
  intros Hr Hfit Hadd. pose proof (reachable_inv c Hr) as Hc.
  pose proof (inv_Add _ _ _ _ _ _ Hc Hadd) as Hc1.
  pose proof (Add_maxBytes_nonneg _ _ _ _ _ _ Hc Hfit Hadd) as Hnn.
  pose proof (total_store_le c k v (proj1 Hc)) as Hle.
  destruct (decide (lru.maxBytes c = 0 ∨ lru.len k + lru.Len v ≤ lru.maxBytes c))
    as [Hfits|Hbig].
  - destruct (store_head c k v (proj1 Hc)) as (rest & Hhead & _).
    pose proof Hadd as Hspec. apply Add_spec in Hspec as (Hov & Hm & Hcb & _).
    assert (∃ l1, lru.ll c1 = lru.Entry k v :: l1) as [l1 Hl1].
    { unfold lru.Add in Hadd.
      apply (evict_keeps_head _ _ _ _ _ _ rest
               (inv_store c k v Hc) ltac:(lia) Hhead) in Hadd; [done|].
      by rewrite store_maxBytes. }
    pose proof (store_front c1 k v l1 Hc1 Hl1) as Hst.
    exists w1. split_and!.
    + unfold lru.Add. rewrite Hst. simpl. by rewrite Hov.
    + intros _. by rewrite Hst.
    + lia.
  - assert (0 < lru.maxBytes c < lru.len k + lru.Len v) as Hb by lia.
    destruct (Add_oversized c k v w Hc) as (rest & _ & _ & Hadd'); [lia..|].
    rewrite Hadd in Hadd'. injection Hadd' as Hc1eq Hw1.
    assert (lru.ll c1 = []) as Hl1 by by rewrite Hc1eq.
    assert (lru.maxBytes c1 = lru.maxBytes c) as Hm by by rewrite Hc1eq.
    assert (lru.OnEvicted c1 = lru.OnEvicted c) as Hcb by by rewrite Hc1eq.
    destruct (Add_oversized c1 k v w1 Hc1) as (rest1 & _ & Hrest1 & Hadd1).
    { lia. } { lia. } { rewrite Hl1. simpl. pose proof (total_nonneg (lru.ll c)). lia. }
    rewrite (Hrest1 Hl1), Hm, Hcb in Hadd1. simpl in Hadd1.
    rewrite <- Hc1eq in Hadd1.
    eexists. split_and!; [done | intros; lia | done].
Qed.

(** *** Recency *)

(** The history of a store is the list of the keys that were touched, the
    most recent touch first.  [Add] touches its key, [Get] touches its key
    when it hits.  The states below include those inside the eviction loop
    of [Add]: [store] is the first half of [Add], [RemoveOldest] one
    iteration of its loop. *)
Inductive history : Cache → list string → Prop :=
  | history_New maxBytes onEvicted :
      history (lru.New maxBytes onEvicted) []
  | history_store c tr k v :
      history c tr → history (lru.store c k v) (k :: tr)
  | history_RemoveOldest c tr w :
      history c tr → history (lru.RemoveOldest c w).1 tr
  | history_Get_hit c tr k :
      history c tr → is_Some (lru.cache c !! k) →
      history (lru.Get c k).1 (k :: tr)
  | history_Get_miss c tr k :
      history c tr → lru.cache c !! k = None →
      history (lru.Get c k).1 tr.

(** The number of touches of other keys since [k] was last touched. *)
Fixpoint age (tr : list string) (k : string) : nat :=
  match tr with
  | [] => O
  | k' :: tr' => if decide (k' = k) then O else S (age tr' k)
  end.

Definition older (tr : list string) (e e' : entry) : Prop :=
  (age tr (lru.key e) < age tr (lru.key e'))%nat.

(** The list is in the order of the last touches, and every live key has
    been touched. *)
Definition by_recency (tr : list string) (l : list entry) : Prop :=
  StronglySorted (older tr) l ∧ Forall (λ e, lru.key e ∈ tr) l.

Lemma StronglySorted_impl_in {A} (R R' : A → A → Prop) (l : list A) :
  (∀ x y, x ∈ l → y ∈ l → R x y → R' x y) →
  StronglySorted R l → StronglySorted R' l.
Proof.
  induction l as [|a l IH]; intros Himp Hs; [constructor|].
  apply StronglySorted_cons in Hs as [Hall Hs]. apply StronglySorted_cons. split.
  - rewrite Forall_forall in *. intros y Hy.
    apply Himp; [by left | by right | by apply Hall].
  - apply IH; [|done]. intros x y Hx Hy. apply Himp; by right.
Qed.

Lemma by_recency_touch tr (l : list entry) k v :
  by_recency tr l → (∀ e, e ∈ l → lru.key e ≠ k) →
  by_recency (k :: tr) (lru.Entry k v :: l).
Proof.
  intros [Hs Hin] Hne. split.
  - apply StronglySorted_cons. split.
    + apply Forall_forall. intros e He. unfold older. simpl.
      rewrite decide_True by done. specialize (Hne e He).
      rewrite decide_False by done. lia.
    + revert Hs. apply StronglySorted_impl_in. intros x y Hx Hy. unfold older.
      simpl. specialize (Hne x Hx) as Hx'. specialize (Hne y Hy) as Hy'.
      rewrite !decide_False by done. lia.
  - constructor; simpl; [by left|].
    apply (Forall_impl _ _ _ Hin). intros e He. by right.
Qed.

Lemma by_recency_remove_elem tr (l : list entry) k :
  by_recency tr l → by_recency tr (lru.remove_elem k l).
Proof.
  intros [Hs Hin]. induction l as [|a l IH]; simpl; [done|].
  apply StronglySorted_cons in Hs as [Hall Hs].
  apply Forall_cons in Hin as [Ha Hin].
  destruct (decide (lru.key a = k)); [done|].
  destruct (IH Hs Hin) as [IHs IHin]. split.
  - apply StronglySorted_cons. split; [|done].
    rewrite Forall_forall in *. intros e He. apply Hall.
    clear -He. induction l as [|b l IHl]; simpl in He; [done|].
    destruct (decide (lru.key b = k)); [by right|].
    apply elem_of_cons in He as [->|He]; [by left | right; auto].
  - by constructor.
Qed.

Lemma history_recency (c : Cache) tr :
  history c tr → inv c ∧ by_recency tr (lru.ll c).
Proof.
  induction 1 as [mb cb|c tr k v _ [Hc Hs]|c tr w _ [Hc Hs]
                 |c tr k _ [Hc Hs] [kv Hk]|c tr k _ [Hc Hs] Hk].
  - split; [apply inv_New|]. split; constructor.
  - split; [by apply inv_store|]. pose proof Hc as [[Hnd Hidx] _].
    destruct (lru.cache c !! k) as [kv|] eqn:Hk.
    + destruct (store_old c k v kv Hk) as [-> _].
      apply Hidx in Hk as [_ ->]. apply by_recency_touch.
      * by apply by_recency_remove_elem.
      * intros e He. by apply elem_of_remove_elem in He as [_ ?].
    + destruct (store_new c k v Hk) as [-> _]. apply by_recency_touch; [done|].
      intros e He Hke. apply (index_ok_lookup_None c k); [apply Hc | done|].
      rewrite <- Hke. by apply list_elem_of_fmap_2.
  - split; [by apply inv_RemoveOldest|].
    destruct (lru.Back (lru.ll c)) as [e|] eqn:Hb.
    + apply Back_Some in Hb as [l Hb]. rewrite (RemoveOldest_snoc c w l e Hb).
      simpl. rewrite Hb in Hs. destruct Hs as [Hs Hin]. split.
      * by apply StronglySorted_app_1_l in Hs.
      * by apply Forall_app in Hin as [? _].
    + apply Back_None in Hb. by rewrite RemoveOldest_empty.
  - split; [by apply inv_Get|]. pose proof Hc as [[Hnd Hidx] _].
    unfold lru.Get. rewrite Hk. simpl. pose proof Hk as Hk'.
    apply Hidx in Hk' as [_ Hkey]. destruct kv as [k0 v0]. simpl in Hkey.
    subst k0. apply by_recency_touch.
    + by apply by_recency_remove_elem.
    + intros e He. by apply elem_of_remove_elem in He as [_ ?].
  - unfold lru.Get. rewrite Hk. done.
Qed.

Lemma history_evict n (c : Cache) tr w c' w' :
  history c tr → lru.evict n c w = Some (c', w') → history c' tr.
Proof.
  revert c w. induction n as [|n IHn]; intros c w Hh Hev; simpl in Hev.
  - destruct (lru.over c); [done|]. by injection Hev as <- <-.
  - destruct (lru.over c); [|by injection Hev as <- <-].
    destruct (lru.RemoveOldest c w) as [c1 w1] eqn:Hr.
    apply (IHn c1 w1); [|done].
    pose proof (history_RemoveOldest c tr w Hh) as Hh1. by rewrite Hr in Hh1.
Qed.

Lemma history_Add (c : Cache) tr k v w c' w' :
  history c tr → lru.Add c k v w = Some (c', w') → history c' (k :: tr).
Proof. intros Hh. apply history_evict. by constructor. Qed.

(** What [RemoveOldest] removes is the live entry touched least recently. *)
Lemma RemoveOldest_least_recent (c : Cache) tr w e :
  history c tr → lru.Back (lru.ll c) = Some e →
  lru.ll c = lru.ll (lru.RemoveOldest c w).1 ++ [e] ∧
  lru.cache (lru.RemoveOldest c w).1 = delete (lru.key e) (lru.cache c) ∧
  lru.key e ∈ tr ∧
  ∀ e', e' ∈ lru.ll c → e' ≠ e →
        (age tr (lru.key e') < age tr (lru.key e))%nat.
Proof.
  intros Hh Hb. apply history_recency in Hh as [Hc [Hs Hin]].
  apply Back_Some in Hb as [l Hb]. rewrite (RemoveOldest_snoc c w l e Hb).
  simpl. rewrite Hb in Hs, Hin |- *. split_and!; [done | done | |].
  - rewrite Forall_forall in Hin. apply Hin, elem_of_app. right. by left.
  - intros e' [He'|He']%elem_of_app Hne.
    + apply (StronglySorted_app_1_elem_of _ _ _ _ _ Hs He'). by left.
    + apply list_elem_of_singleton in He'. done.
Qed.

(** *** Scenarios *)

(** An operation of a scenario and the run of a list of them; the results
    of the [Get] calls are collected in order. *)
Inductive op := OpAdd (k : string) (v : V) | OpGet (k : string).

Fixpoint run (c : Cache) (ops : list op) (w : W)
  : option (Cache * W * list (option V)) :=
  match ops with
  | [] => Some (c, w, [])
  | OpAdd k v :: ops' =>
      match lru.Add c k v w with
      | Some (c', w') => run c' ops' w'
      | None => None
      end
  | OpGet k :: ops' =>
      let '(c', r) := lru.Get c k in
      match run c' ops' w with
      | Some (c'', w', rs) => Some (c'', w', r :: rs)
      | None => None
      end
  end.

End lru_facts.

(** *** Concrete stores of byte views *)

Definition bytes1 : geecache.ByteView := geecache.mkByteView [Byte.x31].
Definition bytes2 : geecache.ByteView := geecache.mkByteView [Byte.x32].
Definition bytes3 : geecache.ByteView := geecache.mkByteView [Byte.x33].

(** An eviction callback that records what it is called on. *)
Definition record_eviction (k : string) (v : geecache.ByteView)
  (w : list (string * geecache.ByteView)) : list (string * geecache.ByteView) :=
  w ++ [(k, v)].

Definition scenario_result {V W : Type} (r : lru.Cache V W * W * list (option V))
  : W * list (option V) := (r.1.2, r.2).

(** C4.  LRU order.  In every state of a store, also inside the eviction
    loop of [Add], the entry that [RemoveOldest] removes is the last of the
    list and was touched less recently than every other live entry, where
    [Add] of a key and a [Get] that hits are the touches.  With keys of one
    byte, values of one byte and a capacity of four bytes, which holds two
    entries: after [Add] of A, B and C, A has been evicted, [Get] of A
    misses and [Get] of B and of C hit; when A is read before C is added,
    B is evicted instead and A is still there. *)
Theorem lru_eviction_order :
  (∀ (V : Type) (HV : lru.Value V) (W : Type) (c : lru.Cache V W) tr w e,
     history c tr → lru.Back (lru.ll c) = Some e →
     lru.ll c = lru.ll (lru.RemoveOldest c w).1 ++ [e] ∧
     lru.cache (lru.RemoveOldest c w).1 = delete (lru.key e) (lru.cache c) ∧
     lru.key e ∈ tr ∧
     ∀ e', e' ∈ lru.ll c → e' ≠ e →
           (age tr (lru.key e') < age tr (lru.key e))%nat) ∧
  (∀ (V : Type) (HV : lru.Value V) (W : Type) (c : lru.Cache V W) tr k v w c' w',
     history c tr → lru.Add c k v w = Some (c', w') → history c' (k :: tr)) ∧
  (∀ (V : Type) (HV : lru.Value V) (W : Type) (c : lru.Cache V W) tr k,
     history c tr →
     history (lru.Get c k).1
       (if lru.cache c !! k is Some _ then k :: tr else tr)) ∧
  scenario_result <$>
    run (lru.New 4 (Some record_eviction))
      [OpAdd "A" bytes1; OpAdd "B" bytes2; OpAdd "C" bytes3;
       OpGet "A"; OpGet "B"; OpGet "C"] []
  = Some ([("A", bytes1)], [None; Some bytes2; Some bytes3]) ∧
  scenario_result <$>
    run (lru.New 4 (Some record_eviction))
      [OpAdd "A" bytes1; OpAdd "B" bytes2; OpGet "A"; OpAdd "C" bytes3;
       OpGet "A"; OpGet "B"; OpGet "C"] []
  = Some ([("B", bytes2)], [Some bytes1; Some bytes1; None; Some bytes3]).
Proof.
  split_and!.
  - intros V HV W c tr w e. apply RemoveOldest_least_recent.
  - intros V HV W c tr k v w c' w'. apply history_Add.
  - intros V HV W c tr k Hh. destruct (lru.cache c !! k) eqn:Hk.
    + by apply history_Get_hit.
    + by apply history_Get_miss.
  - vm_compute. reflexivity.
  - vm_compute. reflexivity.
Qed.

Lemma capacity_bound_witness :
  0 < 4 ∧
  ∃ c w', AddAll (lru.New 4 (Some record_eviction))
            (take 3 [("A", bytes1); ("B", bytes2); ("C", bytes3)]) [] = Some (c, w') ∧
          lru.nbytes c ≤ 4 ∧
          (total (lru.ll c) ≤ max_int64 →
           lru.nbytes c = total (lru.ll c) ∧ total (lru.ll c) ≤ 4).
Proof. split; [lia | apply capacity_bound; lia]. Defined.

(** The store of capacity four after [Add] of A and of B. *)
Definition store_AB : lru.Cache geecache.ByteView (list (string * geecache.ByteView)) :=
  lru.mkCache 4 4 [lru.Entry "B" bytes2; lru.Entry "A" bytes1]
    (<["B" := lru.Entry "B" bytes2]> (<["A" := lru.Entry "A" bytes1]> ∅))
    (Some record_eviction).

Lemma store_AB_reachable : reachable store_AB.
Proof.
  apply (reachable_Add
           (lru.mkCache 4 2 [lru.Entry "A" bytes1]
              (<["A" := lru.Entry "A" bytes1]> ∅) (Some record_eviction))
           "B" bytes2 [] store_AB []); [|vm_compute; reflexivity].
  apply (reachable_Add (lru.New 4 (Some record_eviction)) "A" bytes1 [] _ []);
    [constructor | vm_compute; reflexivity].
Defined.

Lemma byte_accounting_witness :
  let c := store_AB in
  reachable c ∧ total (lru.ll c) ≤ max_int64 ∧
  index_ok c ∧
  lru.nbytes c = total (lru.ll c) ∧
  (∀ k v, lru.cache c !! k = None →
     total (lru.ll c) + (lru.len k + lru.Len v) ≤ max_int64 →
     lru.nbytes (lru.store c k v) = lru.nbytes c + (lru.len k + lru.Len v) ∧
     lru.nbytes (lru.store c k v) = total (lru.ll (lru.store c k v))) ∧
  (∀ k v kv, lru.cache c !! k = Some kv →
     total (lru.ll c) + lru.Len v ≤ max_int64 →
     lru.nbytes (lru.store c k v) =
       lru.nbytes c + (lru.Len v - lru.Len (lru.value kv)) ∧
     lru.nbytes (lru.store c k v) = total (lru.ll (lru.store c k v))) ∧
  (∀ k v w, 0 ≤ lru.maxBytes c → ∃ c' w', lru.Add c k v w = Some (c', w')) ∧
  (∀ k v w c' w', lru.Add c k v w = Some (c', w') →
     total (lru.ll c') ≤ max_int64 → lru.nbytes c' = total (lru.ll c')) ∧
  (∀ k, lru.nbytes (lru.Get c k).1 = total (lru.ll (lru.Get c k).1)) ∧
  (∀ w, lru.nbytes (lru.RemoveOldest c w).1 =
        total (lru.ll (lru.RemoveOldest c w).1)).
Proof.
  intros c.
  assert (total (lru.ll c) ≤ max_int64) as Hfit by (vm_compute; discriminate).
  split; [apply store_AB_reachable|]. split; [exact Hfit|].
  exact (byte_accounting c store_AB_reachable Hfit).
Defined.

Lemma oversized_entry_witness :
  let c := lru.New 1 (Some record_eviction) in
  reachable c ∧ 0 < lru.maxBytes c ∧
  lru.maxBytes c < lru.len "A" + lru.Len bytes1 ∧
  total (lru.ll c) + (lru.len "A" + lru.Len bytes1) ≤ max_int64 ∧
  ∃ rest c' w',
    lru.ll (lru.store c "A" bytes1) = lru.Entry "A" bytes1 :: rest ∧
    lru.cache (lru.store c "A" bytes1) !! "A" = Some (lru.Entry "A" bytes1) ∧
    lru.Add c "A" bytes1 [] = Some (c', w') ∧
    c' = lru.New (lru.maxBytes c) (lru.OnEvicted c) ∧
    lru.Get c' "A" = (c', None) ∧
    w' = notify (lru.OnEvicted c) (reverse rest ++ [lru.Entry "A" bytes1]) [] ∧
    (lru.ll c = [] →
     c' = c ∧ w' = match lru.OnEvicted c with
                   | Some f => f "A" bytes1 []
                   | None => []
                   end).
Proof.
  intros c.
  assert (reachable c) as Hr by constructor.
  assert (0 < lru.maxBytes c) as Hpos by (vm_compute; reflexivity).
  assert (lru.maxBytes c < lru.len "A" + lru.Len bytes1) as Hbig
    by (vm_compute; reflexivity).
  assert (total (lru.ll c) + (lru.len "A" + lru.Len bytes1) ≤ max_int64) as Hfit
    by (vm_compute; discriminate).
  split_and!; [done..|].
  exact (oversized_entry c "A" bytes1 [] Hr Hpos Hbig Hfit).
Defined.

Lemma Add_twice_witness :
  let c := store_AB in
  let c1 := lru.mkCache 4 4 [lru.Entry "C" bytes3; lru.Entry "B" bytes2]
              (<["C" := lru.Entry "C" bytes3]> (<["B" := lru.Entry "B" bytes2]> ∅))
              (Some record_eviction) in
  let w1 := [("A", bytes1)] in
  reachable c ∧
  total (lru.ll c) + (lru.len "C" + lru.Len bytes3) ≤ max_int64 ∧
  lru.Add c "C" bytes3 [] = Some (c1, w1) ∧
  ∃ w2, lru.Add c1 "C" bytes3 w1 = Some (c1, w2) ∧
    (lru.maxBytes c = 0 ∨ lru.len "C" + lru.Len bytes3 ≤ lru.maxBytes c →
       lru.store c1 "C" bytes3 = c1 ∧
       lru.over (lru.store c1 "C" bytes3) = false ∧ w2 = w1) ∧
    (0 < lru.maxBytes c < lru.len "C" + lru.Len bytes3 →
       lru.ll c1 = [] ∧
       w2 = notify (lru.OnEvicted c) [lru.Entry "C" bytes3] w1).
Proof.
  intros c c1 w1.
  assert (total (lru.ll c) + (lru.len "C" + lru.Len bytes3) ≤ max_int64) as Hfit
    by (vm_compute; discriminate).
  assert (lru.Add c "C" bytes3 [] = Some (c1, w1)) as Hadd
    by (vm_compute; reflexivity).
  split_and!; [apply store_AB_reachable | done | done |].
  exact (Add_twice c "C" bytes3 [] c1 w1 store_AB_reachable Hfit Hadd).
Defined.

(** C10, as stated, fails: with a capacity of one byte, the second [Add] of
    a two-byte entry evicts it again, so the callback is called a second
    time. *)
Lemma Add_twice_evicts_again :
  let c := lru.New 1 (Some record_eviction) in
  let w1 := [("A", bytes1)] in
  lru.Add c "A" bytes1 [] = Some (c, w1) ∧
  lru.Add c "A" bytes1 w1 = Some (c, [("A", bytes1); ("A", bytes1)]) ∧
  ¬ (lru.Add c "A" bytes1 w1 = Some (c, w1)).
Proof.
  split_and!; [vm_compute; reflexivity | vm_compute; reflexivity |].
  vm_compute. discriminate.
Qed.

(** ** The namespace lookup *)

(** An event of another kind than those of the trace is not in it. *)
Ltac absent_from_trace :=
  let Hin := fresh "Hin" in
  intros Hin;
  repeat (apply elem_of_cons in Hin as [Hin|Hin]; [discriminate Hin|]);
  by apply elem_of_nil in Hin.

Section group_facts.

Abbreviation Group := geecache.Group.

(** The key is in the local cache of the group. *)
Definition cached (g : Group) (key : string) : option geecache.ByteView :=
  (geecache.get (geecache.mainCache g) key).2.

(** The local cache is a store made by [add] with the capacity of the
    group. *)
Definition cache_ok (c : geecache.cache) : Prop :=
  match geecache.lru c with
  | Some l => reachable l ∧ lru.maxBytes l = geecache.cacheBytes c
  | None => True
  end.

Lemma get_miss (c : geecache.cache) key :
  (geecache.get c key).2 = None → geecache.get c key = (c, None).
Proof.
  unfold geecache.get. destruct c as [[l|] cb]; simpl; [|done].
  unfold lru.Get. by destruct (lru.cache l !! key).
Qed.

Lemma add_returns (c : geecache.cache) key value :
  cache_ok c → 0 ≤ geecache.cacheBytes c →
  ∃ c', geecache.add c key value = Some c' ∧ cache_ok c'.
Proof.
  unfold cache_ok, geecache.add. intros Hc Hcb.
  destruct c as [[l|] cb]; simpl in *.
  - destruct Hc as [Hr Hm].
    destruct (Add_returns l key value tt (reachable_inv l Hr)) as (l' & [] & Hadd);
      [lia|].
    rewrite Hadd. eexists. split; [done|]. simpl. split.
    + by apply (reachable_Add l key value tt l' tt).
    + apply Add_spec in Hadd as (_ & -> & _). done.
  - destruct (Add_returns (lru.New cb None) key value tt) as (l' & [] & Hadd);
      [apply inv_New | done |].
    rewrite Hadd. eexists. split; [done|]. simpl. split.
    + apply (reachable_Add (lru.New cb None) key value tt l' tt); [constructor | done].
    + apply Add_spec in Hadd as (_ & -> & _). done.
Qed.

Lemma Get_miss_eq (g : Group) key :
  key ≠ "" → cached g key = None →
  geecache.Get key g =
    match geecache.getter g key with
    | inr e =>
        Some (inr (geecache.Errorf_w "getter failed: " e), g,
              [geecache.EvCacheGet key; geecache.EvGetter key])
    | inl bs =>
        let value := geecache.mkByteView (geecache.cloneBytes bs) in
        match geecache.add (geecache.mainCache g) key value with
        | Some c' =>
            Some (inl value,
                  geecache.mkGroup (geecache.name g) (geecache.getter g) c',
                  [geecache.EvCacheGet key; geecache.EvGetter key;
                   geecache.EvCacheAdd key value])
        | None => None
        end
    end.
Proof.
  intros Hkey Hmiss. unfold cached in Hmiss. apply get_miss in Hmiss.
  unfold geecache.Get. rewrite decide_False by done.
  unfold mbind, geecache.M_bind, geecache.mainCache_get. rewrite Hmiss.
  destruct g as [nm gt mc]. simpl in *.
  unfold geecache.load, geecache.getLocally, mbind, geecache.M_bind,
    geecache.getter_Get. simpl.
  destruct (gt key) as [bs|e]; simpl; [|done].
  unfold geecache.populateCache. simpl.
  by destruct (geecache.add mc key _).
Qed.

(** C7.  The empty key: [Get] of the empty key returns the error "key is
    required" at once; the group is as it was and nothing has been called:
    the local cache has not been read or written and the loader has not
    run. *)
Theorem empty_key_rejected (g : Group) :
  geecache.Get "" g =
    Some (inr (geecache.errorString "key is required"), g, []).
Proof. reflexivity. Qed.

(** C6, as the code has it.  Loader failure: for a key that is not empty
    and not in the local cache, when the loader fails [Get] returns the
    loader's error wrapped as "getter failed: ...", having read the cache
    and called the loader once; the group, its cache included, is as it
    was, and the key is still not in the cache. *)
Theorem loader_failure (g : Group) key e :
  key ≠ "" → cached g key = None → geecache.getter g key = inr e →
  ∃ err,
    geecache.Get key g =
      Some (inr err, g, [geecache.EvCacheGet key; geecache.EvGetter key]) ∧
    err = geecache.Errorf_w "getter failed: " e ∧
    geecache.Unwrap err = Some e ∧
    geecache.Error err = ("getter failed: " +:+ geecache.Error e) ∧
    cached g key = None.
Proof.
  intros Hkey Hmiss Hget. eexists. split_and!; [|done..].
  rewrite Get_miss_eq by done. by rewrite Hget.
Qed.

(** C3, as the code has it.  The miss path: for a key that is not empty and
    not in the local cache, [Get] reads the cache, calls the loader with
    the key, and on success stores the value in the local cache and
    returns it; it makes no call into [singleflight] and none into
    [consistenthash].  With a capacity that is not negative it returns. *)
Theorem miss_path (g : Group) key :
  key ≠ "" → cached g key = None →
  cache_ok (geecache.mainCache g) →
  0 ≤ geecache.cacheBytes (geecache.mainCache g) →
  ∃ r g' tr,
    geecache.Get key g = Some (r, g', tr) ∧
    cache_ok (geecache.mainCache g') ∧
    (∀ k, (geecache.EvSingleflightDo k ∉ tr) ∧ (geecache.EvRingGet k ∉ tr)) ∧
    match geecache.getter g key with
    | inr e =>
        r = inr (geecache.Errorf_w "getter failed: " e) ∧ g' = g ∧
        tr = [geecache.EvCacheGet key; geecache.EvGetter key]
    | inl bs =>
        let value := geecache.mkByteView bs in
        r = inl value ∧
        geecache.add (geecache.mainCache g) key value
          = Some (geecache.mainCache g') ∧
        tr = [geecache.EvCacheGet key; geecache.EvGetter key;
              geecache.EvCacheAdd key value]
    end.
Proof.
  intros Hkey Hmiss Hok Hcb. rewrite Get_miss_eq by done.
  destruct (geecache.getter g key) as [bs|e].
  - destruct (add_returns (geecache.mainCache g) key (geecache.mkByteView bs) Hok Hcb)
      as (c' & Hadd & Hok').
    unfold geecache.cloneBytes. simpl. rewrite Hadd.
    eexists _, _, _. split_and!; [done | done | | done..].
    intros k. split; absent_from_trace.
  - eexists _, _, _. split_and!; [done | done | | done..].
    intros k. split; absent_from_trace.
Qed.

End group_facts.

(** *** A concrete namespace *)

(** The loader of the namespace "scores": 42 for alice, an error for every
    other key. *)
Definition scores_loader : geecache.Getter :=
  λ key, if decide (key = "alice") then inl [Byte.x34; Byte.x32]
         else inr (geecache.errorString "no such key").

Definition scores : geecache.Group := geecache.NewGroup "scores" 64 scores_loader.

Definition trace_of {A} (r : option (A * geecache.Group * list geecache.event))
  : option (list geecache.event) := (λ x, x.2) <$> r.

(** C3, as stated, fails: a lookup that misses calls the loader without
    going through the deduplicator or the ring. *)
Lemma miss_path_not_deduplicated :
  cached scores "alice" = None ∧
  trace_of (geecache.Get "alice" scores) =
    Some [geecache.EvCacheGet "alice"; geecache.EvGetter "alice";
          geecache.EvCacheAdd "alice" (geecache.mkByteView [Byte.x34; Byte.x32])] ∧
  ¬ (∃ tr, trace_of (geecache.Get "alice" scores) = Some tr ∧
           geecache.EvSingleflightDo "alice" ∈ tr) ∧
  ¬ (∃ tr, trace_of (geecache.Get "alice" scores) = Some tr ∧
           geecache.EvRingGet "alice" ∈ tr).
Proof.
  assert (trace_of (geecache.Get "alice" scores) =
    Some [geecache.EvCacheGet "alice"; geecache.EvGetter "alice";
          geecache.EvCacheAdd "alice" (geecache.mkByteView [Byte.x34; Byte.x32])])
    as Htr by (vm_compute; reflexivity).
  split_and!; [vm_compute; reflexivity | done | |].
  - intros (tr & Heq & Hin). rewrite Htr in Heq. injection Heq as <-.
    revert Hin. absent_from_trace.
  - intros (tr & Heq & Hin). rewrite Htr in Heq. injection Heq as <-.
    revert Hin. absent_from_trace.
Qed.

Lemma miss_path_witness :
  let g := scores in
  let key := "alice" in
  key ≠ "" ∧ cached g key = None ∧
  cache_ok (geecache.mainCache g) ∧
  0 ≤ geecache.cacheBytes (geecache.mainCache g) ∧
  ∃ r g' tr,
    geecache.Get key g = Some (r, g', tr) ∧
    cache_ok (geecache.mainCache g') ∧
    (∀ k, (geecache.EvSingleflightDo k ∉ tr) ∧ (geecache.EvRingGet k ∉ tr)) ∧
    match geecache.getter g key with
    | inr e =>
        r = inr (geecache.Errorf_w "getter failed: " e) ∧ g' = g ∧
        tr = [geecache.EvCacheGet key; geecache.EvGetter key]
    | inl bs =>
        let value := geecache.mkByteView bs in
        r = inl value ∧
        geecache.add (geecache.mainCache g) key value
          = Some (geecache.mainCache g') ∧
        tr = [geecache.EvCacheGet key; geecache.EvGetter key;
              geecache.EvCacheAdd key value]
    end.
Proof.
  intros g key.
  assert (key ≠ "") as Hkey by discriminate.
  assert (cached g key = None) as Hmiss by (vm_compute; reflexivity).
  assert (cache_ok (geecache.mainCache g)) as Hok by exact I.
  assert (0 ≤ geecache.cacheBytes (geecache.mainCache g)) as Hcb
    by (vm_compute; discriminate).
  split_and!; [done..|].
  exact (miss_path g key Hkey Hmiss Hok Hcb).
Defined.

(** C6, as stated, fails for the empty key: it is not in the cache and the
    loader fails on it, but the error that [Get] returns is the one of the
    empty key, which does not wrap the loader's. *)
Lemma loader_failure_empty_key :
  cached scores "" = None ∧
  geecache.getter scores "" = inr (geecache.errorString "no such key") ∧
  geecache.Get "" scores =
    Some (inr (geecache.errorString "key is required"), scores, []) ∧
  geecache.Unwrap (geecache.errorString "key is required")
    ≠ Some (geecache.errorString "no such key") ∧
  ¬ (∃ g' tr, geecache.Get "" scores =
       Some (inr (geecache.Errorf_w "getter failed: "
                    (geecache.errorString "no such key")), g', tr)).
Proof.
  split_and!; [vm_compute; reflexivity | reflexivity | reflexivity | discriminate |].
  intros (g' & tr & Heq). discriminate Heq.
Qed.

Lemma loader_failure_witness :
  let g := scores in
  let key := "missing" in
  let e := geecache.errorString "no such key" in
  key ≠ "" ∧ cached g key = None ∧ geecache.getter g key = inr e ∧
  ∃ err,
    geecache.Get key g =
      Some (inr err, g, [geecache.EvCacheGet key; geecache.EvGetter key]) ∧
    err = geecache.Errorf_w "getter failed: " e ∧
    geecache.Unwrap err = Some e ∧
    geecache.Error err = ("getter failed: " +:+ geecache.Error e) ∧
    cached g key = None.
Proof.
  intros g key e.
  assert (key ≠ "") as Hkey by discriminate.
  assert (cached g key = None) as Hmiss by (vm_compute; reflexivity).
  assert (geecache.getter g key = inr e) as Hget by (vm_compute; reflexivity).
  split_and!; [done..|].
  exact (loader_failure g key e Hkey Hmiss Hget).
Defined.

(** ** The hash ring *)

Section ring_facts.

Abbreviation Map := consistenthash.Map.

(** The rings: a new one, and what [Add] makes of a ring. *)
Inductive ring : Map → Prop :=
  | ring_New crc replicas fn : ring (consistenthash.New crc replicas fn)
  | ring_Add m peers : ring m → ring (consistenthash.Add m peers).

(** The peer that the map gives for a virtual node. *)
Definition owner (m : Map) (x : Z) : string :=
  default "" (consistenthash.hashMap m !! x).

(** The key's position on the ring. *)
Definition position (m : Map) (key : string) : Z :=
  consistenthash.uint32 (consistenthash.hash m key).

(** *** [sort.Search] *)

Lemma search_loop_fuel (f : nat → bool) fuel fuel' i j :
  (j - i ≤ fuel)%nat → (j - i ≤ fuel')%nat →
  consistenthash.search_loop fuel f i j = consistenthash.search_loop fuel' f i j.
Proof.
  revert fuel' i j. induction fuel as [|fuel IH]; intros fuel' i j Hf Hf';
    destruct fuel' as [|fuel']; cbn [consistenthash.search_loop];
    destruct (i <? j)%nat eqn:Hij; try done;
    apply Nat.ltb_lt in Hij; try lia.
  assert (i ≤ (i + j) / 2 < j)%nat as Hh.
  { split; [apply Nat.div_le_lower_bound; lia
           | apply Nat.Div0.div_lt_upper_bound; lia]. }
  destruct (f ((i + j) / 2)%nat); cbn [negb]; apply IH; lia.
Qed.

(** On a predicate that stays true once it is true, the search returns the
    first index at which it is true, or [n] when there is none. *)
Lemma search_loop_spec (f : nat → bool) (n : nat) :
  (∀ a b, (a ≤ b)%nat → (b < n)%nat → f a = true → f b = true) →
  ∀ fuel i j, (i ≤ j ≤ n)%nat → (j - i ≤ fuel)%nat →
    (∀ a, (a < i)%nat → f a = false) →
    (∀ b, (j ≤ b < n)%nat → f b = true) →
    (consistenthash.search_loop fuel f i j ≤ n)%nat ∧
    (∀ a, (a < consistenthash.search_loop fuel f i j)%nat → f a = false) ∧
    (∀ b, (consistenthash.search_loop fuel f i j ≤ b < n)%nat → f b = true).
Proof.
  intros Hmono. induction fuel as [|fuel IH]; intros i j Hij Hfuel Hlo Hhi;
    cbn [consistenthash.search_loop].
  - assert (i = j) as -> by lia. split_and!; [lia | done | done].
  - destruct (i <? j)%nat eqn:Hlt.
    + apply Nat.ltb_lt in Hlt.
      assert (i ≤ (i + j) / 2 < j)%nat as Hh.
      { split; [apply Nat.div_le_lower_bound; lia
               | apply Nat.Div0.div_lt_upper_bound; lia]. }
      destruct (f ((i + j) / 2)%nat) eqn:Hfh; cbn [negb].
      * apply IH; [lia | lia | done |].
        intros b Hb. apply (Hmono ((i + j) / 2)%nat); [lia | lia | done].
      * apply IH; [lia | lia | | done].
        intros a Ha. destruct (f a) eqn:Hfa; [|done].
        rewrite <- Hfh. symmetry. apply (Hmono a); [lia | lia | done].
    + apply Nat.ltb_ge in Hlt. assert (i = j) as -> by lia.
      split_and!; [lia | done | done].
Qed.

Lemma sorted_lookup_le (l : list Z) a b x y :
  StronglySorted Z.le l → l !! a = Some x → l !! b = Some y →
  (a ≤ b)%nat → x ≤ y.
Proof.
  intros Hs. revert a b. induction Hs as [|z l Hs IH Hall]; intros a b Ha Hb Hab.
  - done.
  - destruct a as [|a], b as [|b]; simpl in *.
    + injection Ha as <-. injection Hb as <-. lia.
    + injection Ha as <-. rewrite Forall_forall in Hall.
      apply Hall. by apply list_elem_of_lookup_2 in Hb.
    + lia.
    + apply (IH a b); [done | done | lia].
Qed.

(** *** [Add] *)

Lemma add_replica_fields key m i :
  consistenthash.hash (consistenthash.add_replica key m i) = consistenthash.hash m ∧
  consistenthash.replicas (consistenthash.add_replica key m i)
    = consistenthash.replicas m ∧
  length (consistenthash.keys (consistenthash.add_replica key m i))
    = S (length (consistenthash.keys m)).
Proof. simpl. rewrite length_app. simpl. split_and!; [done | done | lia]. Qed.

(** Every virtual node of the list has a peer in the map. *)
Definition owned (m : Map) : Prop :=
  ∀ x, x ∈ consistenthash.keys m → is_Some (consistenthash.hashMap m !! x).

Lemma owned_add_replica key m i :
  owned m → owned (consistenthash.add_replica key m i).
Proof.
  intros Hm x. simpl. rewrite elem_of_app, list_elem_of_singleton, lookup_insert.
  intros [Hx| ->]; case_decide; eauto; done.
Qed.

Lemma foldl_add_replica key (l : list Z) m :
  let m' := foldl (consistenthash.add_replica key) m l in
  consistenthash.hash m' = consistenthash.hash m ∧
  consistenthash.replicas m' = consistenthash.replicas m ∧
  length (consistenthash.keys m') = (length (consistenthash.keys m) + length l)%nat ∧
  (owned m → owned m').
Proof.
  revert m. induction l as [|i l IH]; intros m; simpl.
  - split_and!; [done | done | lia | done].
  - destruct (IH (consistenthash.add_replica key m i)) as (Hh & Hr & Hl & Ho).
    destruct (add_replica_fields key m i) as (Hh' & Hr' & Hl').
    split_and!; [congruence | congruence | lia |].
    intros Hm. by apply Ho, owned_add_replica.
Qed.

Lemma foldl_add_peer (peers : list string) m :
  let m' := foldl consistenthash.add_peer m peers in
  consistenthash.hash m' = consistenthash.hash m ∧
  consistenthash.replicas m' = consistenthash.replicas m ∧
  length (consistenthash.keys m') =
    (length (consistenthash.keys m)
     + Z.to_nat (consistenthash.replicas m) * length peers)%nat ∧
  (owned m → owned m').
Proof.
  revert m. induction peers as [|p peers IH]; intros m; simpl.
  - split_and!; [done | done | lia | done].
  - destruct (IH (consistenthash.add_peer m p)) as (Hh & Hr & Hl & Ho).
    destruct (foldl_add_replica p (seqZ 0 (consistenthash.replicas m)) m)
      as (Hh' & Hr' & Hl' & Ho').
    fold (consistenthash.add_peer m p) in Hh', Hr', Hl', Ho'.
    rewrite length_seqZ in Hl'.
    split_and!; [congruence | congruence | rewrite Hl, Hr', Hl'; lia | auto].
Qed.

Lemma Add_fields m peers :
  consistenthash.hash (consistenthash.Add m peers) = consistenthash.hash m ∧
  consistenthash.replicas (consistenthash.Add m peers) = consistenthash.replicas m ∧
  length (consistenthash.keys (consistenthash.Add m peers)) =
    (length (consistenthash.keys m)
     + Z.to_nat (consistenthash.replicas m) * length peers)%nat ∧
  StronglySorted Z.le (consistenthash.keys (consistenthash.Add m peers)) ∧
  (owned m → owned (consistenthash.Add m peers)).
Proof.
  destruct (foldl_add_peer peers m) as (Hh & Hr & Hl & Ho).
  unfold consistenthash.Add, consistenthash.sort_Ints. simpl.
  split_and!; [done | done | | |].
  - by rewrite merge_sort_Permutation.
  - apply StronglySorted_merge_sort; apply _.
  - intros Hm x Hx. simpl in *. rewrite merge_sort_Permutation in Hx.
    by apply Ho.
Qed.

Lemma ring_sorted m :
  ring m → StronglySorted Z.le (consistenthash.keys m) ∧ owned m.
Proof.
  induction 1 as [crc r fn|m peers _ [IHs IHo]].
  - split; [constructor|]. intros x Hx. by apply elem_of_nil in Hx.
  - destruct (Add_fields m peers) as (_ & _ & _ & Hs & Ho). auto.
Qed.

(** *** [Get] *)

Lemma Get_empty m key :
  consistenthash.keys m = [] → consistenthash.Get m key = "".
Proof. intros Hk. unfold consistenthash.Get. by rewrite Hk. Qed.

Lemma Get_lookup m key :
  StronglySorted Z.le (consistenthash.keys m) → consistenthash.keys m ≠ [] →
  match list_find (λ x, position m key ≤ x) (consistenthash.keys m) with
  | Some (_, x) => consistenthash.Get m key = owner m x
  | None =>
      ∃ x0, head (consistenthash.keys m) = Some x0 ∧
            consistenthash.Get m key = owner m x0 ∧
            Forall (λ y, x0 ≤ y) (consistenthash.keys m) ∧
            Forall (λ y, y < position m key) (consistenthash.keys m)
  end.
Proof.
  intros Hs Hne. unfold consistenthash.Get, owner.
  fold (position m key). set (h := position m key).
  set (l := consistenthash.keys m) in *. set (n := length l).
  assert (0 < n)%nat as Hn by (subst n; destruct l; [done | simpl; lia]).
  destruct (n =? 0)%nat eqn:Hn0; [apply Nat.eqb_eq in Hn0; lia|].
  set (f := λ i : nat, h <=? l !!! i).
  assert (∀ a, (a < n)%nat → l !! a = Some (l !!! a)) as Hlk
    by (intros a Ha; by apply list_lookup_lookup_total_lt).
  assert (∀ a b, (a ≤ b)%nat → (b < n)%nat → f a = true → f b = true) as Hmono.
  { intros a b Hab Hb. unfold f. rewrite !Z.leb_le. intros Ha.
    pose proof (sorted_lookup_le l a b _ _ Hs (Hlk a ltac:(lia)) (Hlk b Hb) Hab).
    lia. }
  destruct (search_loop_spec f n Hmono n 0%nat n) as (Hr & Hlo & Hhi);
    [lia | lia | intros a Ha; lia | intros b Hb; lia |].
  fold (consistenthash.Search n f) in Hr, Hlo, Hhi.
  set (r := consistenthash.Search n f) in *.
  destruct (decide (r < n)%nat) as [Hlt|Hge].
  - rewrite Nat.mod_small by done.
    assert (list_find (λ x, h ≤ x) l = Some (r, l !!! r)) as ->; [|done].
    apply list_find_Some. split_and!.
    + by apply Hlk.
    + apply Z.leb_le. apply (Hhi r). lia.
    + intros j y Hj Hjr. apply list_lookup_total_correct in Hj as <-.
      specialize (Hlo j Hjr). unfold f in Hlo. apply Z.leb_gt in Hlo. lia.
  - assert (r = n) as -> by lia. rewrite Nat.Div0.mod_same.
    assert (Forall (λ y, y < h) l) as Hall.
    { apply Forall_forall. intros y Hy.
      apply list_elem_of_lookup in Hy as [j Hj].
      pose proof (lookup_lt_Some _ _ _ Hj) as Hjn.
      apply list_lookup_total_correct in Hj as <-.
      specialize (Hlo j Hjn). unfold f in Hlo. by apply Z.leb_gt in Hlo. }
    assert (list_find (λ x, h ≤ x) l = None) as ->.
    { apply list_find_None. apply (Forall_impl _ _ _ Hall). intros y Hy. lia. }
    destruct l as [|x0 l'] eqn:Hl; [done|].
    exists x0. split_and!; [done | done | | done].
    apply StronglySorted_cons in Hs as [Hx0 _].
    constructor; [lia | done].
Qed.

(** C5.  Ring lookup: on every ring, the virtual nodes are sorted in
    ascending order and each has a peer in the map; [Get] returns the empty
    string when the ring has no virtual node, which is the case of a new
    ring, to which no peer has been added ([Add] of some peers adds
    [replicas] virtual nodes for each); otherwise it returns the peer of
    the first virtual node whose hash is at least the hash of the key, and
    when every virtual node is below the hash of the key it returns the
    peer of the first virtual node of the list, which is the smallest. *)
Theorem ring_lookup (m : Map) (key : string) :
  ring m →
  StronglySorted Z.le (consistenthash.keys m) ∧
  owned m ∧
  (consistenthash.keys m = [] → consistenthash.Get m key = "") ∧
  (∀ crc replicas fn,
     consistenthash.Get (consistenthash.New crc replicas fn) key = "") ∧
  (∀ peers,
     length (consistenthash.keys (consistenthash.Add m peers)) =
       (length (consistenthash.keys m)
        + Z.to_nat (consistenthash.replicas m) * length peers)%nat) ∧
  (consistenthash.keys m ≠ [] →
   match list_find (λ x, position m key ≤ x) (consistenthash.keys m) with
   | Some (_, x) => consistenthash.Get m key = owner m x
   | None =>
       ∃ x0, head (consistenthash.keys m) = Some x0 ∧
             consistenthash.Get m key = owner m x0 ∧
             Forall (λ y, x0 ≤ y) (consistenthash.keys m) ∧
             Forall (λ y, y < position m key) (consistenthash.keys m)
   end).
Proof.
  intros Hm. destruct (ring_sorted m Hm) as [Hs Ho].
  split_and!; [done | done | apply Get_empty | done | | by apply Get_lookup].
  intros peers. by destruct (Add_fields m peers) as (_ & _ & ? & _).
Qed.

End ring_facts.

(** *** A concrete ring *)

(** A hash function that reads its argument as a decimal number. *)
Definition atoi (s : string) : Z :=
  foldl (λ acc c, 10 * acc + (Z.of_nat (Ascii.nat_of_ascii c) - 48)) 0
    (String.list_ascii_of_string s).

(** Three virtual nodes for each of the peers 6, 4 and 2: the nodes are
    2, 4, 6, 12, 14, 16, 22, 24 and 26. *)
Definition ring_642 : consistenthash.Map :=
  consistenthash.Add (consistenthash.New (λ _, 0) 3 (Some atoi)) ["6"; "4"; "2"].

Example ring_642_keys :
  consistenthash.keys ring_642 = [2; 4; 6; 12; 14; 16; 22; 24; 26] ∧
  consistenthash.Get ring_642 "2" = "2" ∧
  consistenthash.Get ring_642 "11" = "2" ∧
  consistenthash.Get ring_642 "23" = "4" ∧
  consistenthash.Get ring_642 "27" = "2".
Proof. vm_compute. done. Qed.

Lemma ring_lookup_witness :
  let m := ring_642 in
  let key := "27" in
  ring m ∧
  StronglySorted Z.le (consistenthash.keys m) ∧
  owned m ∧
  (consistenthash.keys m = [] → consistenthash.Get m key = "") ∧
  (∀ crc replicas fn,
     consistenthash.Get (consistenthash.New crc replicas fn) key = "") ∧
  (∀ peers,
     length (consistenthash.keys (consistenthash.Add m peers)) =
       (length (consistenthash.keys m)
        + Z.to_nat (consistenthash.replicas m) * length peers)%nat) ∧
  (consistenthash.keys m ≠ [] →
   match list_find (λ x, position m key ≤ x) (consistenthash.keys m) with
   | Some (_, x) => consistenthash.Get m key = owner m x
   | None =>
       ∃ x0, head (consistenthash.keys m) = Some x0 ∧
             consistenthash.Get m key = owner m x0 ∧
             Forall (λ y, x0 ≤ y) (consistenthash.keys m) ∧
             Forall (λ y, y < position m key) (consistenthash.keys m)
   end).
Proof.
  intros m key.
  assert (ring m) as Hm by (apply ring_Add, ring_New).
  split; [exact Hm|]. exact (ring_lookup m key Hm).
Defined.

(** ** The call deduplicator *)

Section singleflight_facts.
Context {Val Err : Type} (nil_val : Val) (nil_err : Err).
Context (key : string) (fn : nat → Val * Err).

Abbreviation pc := (singleflight.pc Val Err).
Abbreviation call := (singleflight.call Val Err).
Abbreviation state := (singleflight.state Val Err).
Abbreviation step := (singleflight.Do_step nil_val nil_err key fn).
Abbreviation run := (singleflight.run nil_val nil_err key fn).

(** The result of the first run of [fn]. *)
Definition val0 : Val := (fn 0%nat).1.
Definition err0 : Err := (fn 0%nat).2.

(** How far the goroutine that runs [fn] has got. *)
Inductive stage :=
  | SNone | SNew | SAdd | SReg | SUnl | SFn | SDone
  | SLock2 | SDel | SUnl2 | SRet | SFin.

#[local] Instance stage_eq_dec : EqDecision stage.
Proof. solve_decision. Defined.

Definition rank (st : stage) : nat :=
  match st with
  | SNone => 0 | SNew => 1 | SAdd => 2 | SReg => 3 | SUnl => 4 | SFn => 5
  | SDone => 6 | SLock2 => 7 | SDel => 8 | SUnl2 => 9 | SRet => 10
  | SFin => 11
  end%nat.

Definition leader_pc (st : stage) : option pc :=
  match st with
  | SNone => None
  | SNew => Some singleflight.L53_new
  | SAdd => Some (singleflight.L54_wg_Add 0)
  | SReg => Some (singleflight.L55_register 0)
  | SUnl => Some (singleflight.L56_Unlock 0)
  | SFn => Some (singleflight.L59_fn 0)
  | SDone => Some (singleflight.L60_wg_Done 0)
  | SLock2 => Some (singleflight.L63_Lock 0)
  | SDel => Some (singleflight.L64_delete 0)
  | SUnl2 => Some (singleflight.L65_Unlock 0)
  | SRet => Some (singleflight.L67_return 0)
  | SFin => Some (singleflight.Returned val0 err0)
  end.

Definition heap_at (st : stage) : list call :=
  match st with
  | SNone | SNew => []
  | SAdd => [singleflight.mkcall 0 nil_val nil_err]
  | SReg | SUnl | SFn => [singleflight.mkcall 1 nil_val nil_err]
  | SDone => [singleflight.mkcall 1 val0 err0]
  | _ => [singleflight.mkcall 0 val0 err0]
  end.

(** The call is in the map. *)
Definition registered (st : stage) : bool :=
  match st with SUnl | SFn | SDone | SLock2 | SDel => true | _ => false end.

Definition m_ok (st : stage) (mo : option (gmap string nat)) : Prop :=
  match st with
  | SNone => ∀ mp, mo = Some mp → mp !! key = None
  | _ => ∃ mp, mo = Some mp ∧
               mp !! key = if registered st then Some 0%nat else None
  end.

(** The statements between a [Lock] and the next [Unlock]. *)
Definition locked (p : pc) : bool :=
  match p with
  | singleflight.L41_init | singleflight.L46_lookup
  | singleflight.L47_Unlock _ | singleflight.L53_new
  | singleflight.L54_wg_Add _ | singleflight.L55_register _
  | singleflight.L56_Unlock _ | singleflight.L64_delete _
  | singleflight.L65_Unlock _ => true
  | _ => false
  end.

Fixpoint count_locked (l : list pc) : nat :=
  match l with
  | [] => O
  | p :: l' => (Nat.b2n (locked p) + count_locked l')%nat
  end.

(** Where the goroutines that do not run [fn] may be. *)
Definition other_ok (st : stage) (p : pc) : Prop :=
  match p with
  | singleflight.L38_Lock | singleflight.L41_init
  | singleflight.L46_lookup => True
  | singleflight.L47_Unlock c | singleflight.L48_Wait c =>
      c = 0%nat ∧ (4 ≤ rank st)%nat
  | singleflight.L49_return c => c = 0%nat ∧ (7 ≤ rank st)%nat
  | singleflight.Returned v e => v = val0 ∧ e = err0 ∧ (7 ≤ rank st)%nat
  | _ => False
  end.

Fixpoint deleted (l : list singleflight.label) : bool :=
  match l with
  | [] => false
  | singleflight.Delete _ :: _ => true
  | _ :: l' => deleted l'
  end.

Record inv_at (s : state) (st : stage) (t0 : nat) : Prop := {
  inv_leader : st ≠ SNone → singleflight.pcs s !! t0 = leader_pc st;
  inv_others : ∀ t p, singleflight.pcs s !! t = Some p →
      other_ok st p ∨ (t = t0 ∧ leader_pc st = Some p);
  inv_heap : singleflight.heap s = heap_at st;
  inv_m : m_ok st (singleflight.m (singleflight.g s));
  inv_m46 : ∀ t, singleflight.pcs s !! t = Some singleflight.L46_lookup →
      is_Some (singleflight.m (singleflight.g s));
  inv_mu : count_locked (singleflight.pcs s) =
      Nat.b2n (singleflight.mu (singleflight.g s));
  inv_execs : singleflight.execs (singleflight.log s) =
      (if (6 <=? rank st)%nat then 1 else 0)%nat;
  inv_deleted : deleted (singleflight.log s) = (9 <=? rank st)%nat
}.

(** The invariant of the runs in which no goroutine reads the map after a
    [delete]. *)
Definition sf_inv (s : state) : Prop :=
  singleflight.one_window (singleflight.log s) = true → ∃ st t0, inv_at s st t0.

Lemma count_locked_insert (l : list pc) t p p' :
  l !! t = Some p →
  (count_locked (<[t := p']> l) + Nat.b2n (locked p) =
   count_locked l + Nat.b2n (locked p'))%nat.
Proof.
  revert t. induction l as [|a l IH]; intros t Ht; [done|].
  destruct t as [|t]; simpl in *.
  - injection Ht as ->. lia.
  - specialize (IH t Ht). lia.
Qed.

Lemma count_locked_two (l : list pc) t1 t2 p1 p2 :
  l !! t1 = Some p1 → l !! t2 = Some p2 → t1 ≠ t2 →
  (Nat.b2n (locked p1) + Nat.b2n (locked p2) ≤ count_locked l)%nat.
Proof.
  revert t1 t2. induction l as [|a l IH]; intros t1 t2 H1 H2 Hne; [done|].
  assert (∀ t p, l !! t = Some p → (Nat.b2n (locked p) ≤ count_locked l)%nat) as Hone.
  { clear. induction l as [|a l IH]; intros t p Ht; [done|].
    destruct t as [|t]; simpl in *; [injection Ht as ->; lia|].
    specialize (IH t p Ht). lia. }
  destruct t1 as [|t1], t2 as [|t2]; simpl in *; try done.
  - injection H1 as ->. specialize (Hone t2 p2 H2). lia.
  - injection H2 as ->. specialize (Hone t1 p1 H1). lia.
  - specialize (IH t1 t2 H1 H2). lia.
Qed.

Lemma count_locked_pos (l : list pc) :
  (0 < count_locked l)%nat → ∃ t p, l !! t = Some p ∧ locked p = true.
Proof.
  induction l as [|a l IH]; simpl; [lia|]. intros Hpos.
  destruct (locked a) eqn:Ha.
  - exists 0%nat, a. done.
  - destruct IH as (t & p & Ht & Hp); [simpl in Hpos; lia|].
    exists (S t), p. done.
Qed.

Lemma count_locked_replicate n : count_locked (replicate n singleflight.L38_Lock) = 0%nat.
Proof. induction n as [|n IH]; simpl; [done | by rewrite IH]. Qed.

Lemma one_window_tail l (ls : list singleflight.label) :
  singleflight.one_window (l :: ls) = true → singleflight.one_window ls = true.
Proof. destruct l; simpl; [|done..]. by intros [_ ?]%andb_true_iff. Qed.

Lemma one_window_Lookup k (ls : list singleflight.label) :
  singleflight.one_window (singleflight.Lookup k :: ls) = true →
  deleted ls = false.
Proof.
  simpl. intros [Hall _]%andb_true_iff. clear -Hall.
  induction ls as [|l ls IH]; [done|]. simpl in Hall.
  apply andb_true_iff in Hall as [Hl Hall]. destruct l; simpl; auto.
Qed.

Lemma other_ok_mono st st' p :
  (rank st ≤ rank st')%nat → other_ok st p → other_ok st' p.
Proof. intros Hle. destruct p; simpl; try done; intros; split_and?; try tauto; lia. Qed.

Lemma others_insert (P : list pc) st st' t0 t0' t pnew :
  (∀ t' p, P !! t' = Some p → other_ok st p ∨ (t' = t0 ∧ leader_pc st = Some p)) →
  (rank st ≤ rank st')%nat →
  (st' = st ∧ t0' = t0) ∨ t = t0 ∨ st = SNone →
  other_ok st' pnew ∨ (t = t0' ∧ leader_pc st' = Some pnew) →
  ∀ t' p, <[t := pnew]> P !! t' = Some p →
          other_ok st' p ∨ (t' = t0' ∧ leader_pc st' = Some p).
Proof.
  intros Hold Hle Hcase Hnew t' p Hlk.
  apply list_lookup_insert_Some in Hlk as [(-> & -> & _)|[Hne Hlk]]; [done|].
  destruct (Hold t' p Hlk) as [Hok|[-> Hld]].
  - left. by apply (other_ok_mono st).
  - destruct Hcase as [[-> ->]|[->| ->]]; [by right | done | done].
Qed.

Lemma step_pc (s s' : state) t :
  step t s = Some s' → is_Some (singleflight.pcs s !! t).
Proof.
  unfold singleflight.Do_step. destruct (singleflight.pcs s !! t); [eauto | done].
Qed.

(** A step adds at most one label to the log. *)
Lemma step_log (s s' : state) t :
  step t s = Some s' →
  singleflight.log s' = singleflight.log s ∨
  ∃ l, singleflight.log s' = l :: singleflight.log s.
Proof.
  unfold singleflight.Do_step. intros Hstep.
  destruct (singleflight.pcs s !! t) as [p|]; [|done]. simpl in Hstep.
  destruct p; simpl in Hstep;
    repeat match type of Hstep with
    | context [singleflight.mu ?g] => destruct (singleflight.mu g)
    | context [singleflight.m ?g] => destruct (singleflight.m g)
    | context [singleflight.heap ?s !! ?c] =>
        destruct (singleflight.heap s !! c) as [[[|?] ? ?]|]
    | context [fn ?n] => destruct (fn n)
    | context [?mp !! key] => destruct (mp !! key)
    | _ => progress simpl in Hstep
    end;
    try discriminate; injection Hstep as <-; simpl; eauto.
Qed.

(** The fields of the invariant after a step that moves one goroutine. *)
Ltac sf_fields Hinv Hp :=
  let Hlt := fresh "Hlt" in
  pose proof (lookup_lt_Some _ _ _ Hp) as Hlt;
  pose proof (λ p', count_locked_insert _ _ _ p' Hp) as Hcnt;
  destruct Hinv as [Hld Hoth Hheap Hm Hm46 Hmu Hex Hdel];
  constructor;
  [ intros _; simpl; try (by apply list_lookup_insert_eq)
  | try (eapply others_insert; [exact Hoth | simpl; lia | auto | simpl; auto])
  | simpl; try done
  | simpl; try done
  | simpl; try (by eauto);
    try (let t := fresh "t" in let Ht := fresh "Ht" in
         intros t Ht;
         apply list_lookup_insert_Some in Ht as [(_ & Ht & _)|[_ Ht]];
         [discriminate Ht | by eauto])
  | simpl;
    try (match goal with
         | |- count_locked (<[_ := ?pn]> _) = _ =>
             specialize (Hcnt pn); simpl in Hcnt, Hmu;
             destruct (singleflight.mu (singleflight.g _)); simpl in *; lia
         end)
  | simpl; try (by rewrite ?Hex)
  | simpl; try (by rewrite ?Hdel) ].

Lemma step_leader (s s' : state) st t0 p :
  inv_at s st t0 → singleflight.pcs s !! t0 = Some p →
  leader_pc st = Some p →
  step t0 s = Some s' →
  ∃ st', inv_at s' st' t0.
Proof.
  intros Hinv Hp Hst Hstep. unfold singleflight.Do_step in Hstep.
  rewrite Hp in Hstep. simpl in Hstep.
  pose proof (inv_heap _ _ _ Hinv) as Hh.
  pose proof (inv_m _ _ _ Hinv) as Hmm.
  pose proof (inv_mu _ _ _ Hinv) as Hmu0.
  pose proof (inv_execs _ _ _ Hinv) as Hex0.
  destruct st; simpl in Hst; try discriminate; injection Hst as <-;
    simpl in Hstep, Hh, Hmm, Hex0; rewrite ?Hh in Hstep; simpl in Hstep.
  - (* L53_new *)
    injection Hstep as <-. exists SAdd. sf_fields Hinv Hp.
  - (* L54_wg_Add *)
    injection Hstep as <-. exists SReg. sf_fields Hinv Hp.
  - (* L55_register *)
    destruct Hmm as (mp & Hmp & Hk). rewrite Hmp in Hstep. simpl in Hstep.
    injection Hstep as <-. exists SUnl. sf_fields Hinv Hp.
    eexists. split; [done | apply lookup_insert_eq].
  - (* L56_Unlock *)
    injection Hstep as <-. exists SFn. sf_fields Hinv Hp.
  - (* L59_fn *)
    rewrite Hex0 in Hstep. destruct (fn 0%nat) as [v e] eqn:Hfn.
    injection Hstep as <-. exists SDone. sf_fields Hinv Hp.
    unfold val0, err0. by rewrite Hfn.
  - (* L60_wg_Done *)
    injection Hstep as <-. exists SLock2. sf_fields Hinv Hp.
  - (* L63_Lock *)
    destruct (singleflight.mu (singleflight.g s)) eqn:Hmu1; [done|].
    injection Hstep as <-. exists SDel. sf_fields Hinv Hp.
  - (* L64_delete *)
    destruct Hmm as (mp & Hmp & Hk).
    injection Hstep as <-. exists SUnl2. sf_fields Hinv Hp.
    + rewrite Hmp. simpl. eexists. split; [done | apply lookup_delete_eq].
    + intros _ _. rewrite Hmp. simpl. eauto.
  - (* L65_Unlock *)
    injection Hstep as <-. exists SRet. sf_fields Hinv Hp.
  - (* L67_return *)
    injection Hstep as <-. exists SFin. sf_fields Hinv Hp.
  - (* Returned *)
    done.
Qed.

Lemma other_not_leader (s : state) st t0 t p :
  inv_at s st t0 → singleflight.pcs s !! t = Some p → other_ok st p →
  (∀ v e, p ≠ singleflight.Returned v e) → st ≠ SNone → t ≠ t0.
Proof.
  intros Hinv Hp Hok Hnr Hst ->.
  pose proof (inv_leader _ _ _ Hinv Hst) as Hld. rewrite Hp in Hld.
  destruct st; simpl in Hld; try done; injection Hld as ->; simpl in Hok;
    try done.
  by apply (Hnr val0 err0).
Qed.

(** The same fields after a step of a goroutine that does not run [fn]. *)
Ltac sf_fields_other Hinv Hp Hne :=
  let Hlt := fresh "Hlt" in
  pose proof (lookup_lt_Some _ _ _ Hp) as Hlt;
  pose proof (λ p', count_locked_insert _ _ _ p' Hp) as Hcnt;
  destruct Hinv as [Hld Hoth Hheap Hm Hm46 Hmu Hex Hdel];
  constructor;
  [ let Hst := fresh "Hst" in
    intros Hst; simpl;
    try (rewrite list_lookup_insert_ne; [by apply Hld | by apply Hne])
  | try (eapply others_insert; [exact Hoth | simpl; lia | auto | simpl; auto])
  | simpl; try done
  | simpl; try done
  | simpl; try (by eauto);
    try (let t := fresh "t" in let Ht := fresh "Ht" in
         intros t Ht;
         apply list_lookup_insert_Some in Ht as [(_ & Ht & _)|[_ Ht]];
         [discriminate Ht | by eauto])
  | simpl;
    try (match goal with
         | |- count_locked (<[_ := ?pn]> _) = _ =>
             specialize (Hcnt pn); simpl in Hcnt, Hmu;
             destruct (singleflight.mu (singleflight.g _)); simpl in *; lia
         end)
  | simpl; try (by rewrite ?Hex)
  | simpl; try (by rewrite ?Hdel) ].

Lemma step_other (s s' : state) st t0 t p :
  inv_at s st t0 →
  singleflight.one_window (singleflight.log s') = true →
  singleflight.pcs s !! t = Some p → other_ok st p →
  step t s = Some s' →
  ∃ st' t0', inv_at s' st' t0'.
Proof.
  intros Hinv Hwin Hp Hok Hstep.
  pose proof (other_not_leader s st t0 t p Hinv Hp Hok) as Hne.
  unfold singleflight.Do_step in Hstep. rewrite Hp in Hstep. simpl in Hstep.
  pose proof (inv_heap _ _ _ Hinv) as Hh.
  pose proof (inv_m _ _ _ Hinv) as Hmm.
  pose proof (inv_mu _ _ _ Hinv) as Hmu0.
  pose proof (inv_deleted _ _ _ Hinv) as Hdel0.
  destruct p; simpl in Hok; try done; simpl in Hstep.
  - (* L38_Lock *)
    destruct (singleflight.mu (singleflight.g s)) eqn:Hmu1; [done|].
    injection Hstep as <-. exists st, t0. sf_fields_other Hinv Hp Hne.

  - (* L41_init *)
    injection Hstep as <-. exists st, t0.
    destruct (singleflight.m (singleflight.g s)) as [mp|] eqn:Hmp.
    + sf_fields_other Hinv Hp Hne; rewrite ?Hmp; eauto.
    + sf_fields_other Hinv Hp Hne.
      * destruct st; simpl in Hmm |- *;
          try (destruct Hmm as (? & ? & _); congruence).
        by intros mp [= <-].
  - (* L46_lookup *)
    destruct (inv_m46 _ _ _ Hinv t Hp) as [mp Hmp]. rewrite Hmp in Hstep, Hmm.
    simpl in Hstep. injection Hstep as <-.
    assert (deleted (singleflight.log s) = false) as Hnd.
    { apply (one_window_Lookup key). by destruct (mp !! key). }
    destruct (decide (st = SNone)) as [->|Hst].
    + (* the first goroutine to read the map *)
      simpl in Hmm. rewrite (Hmm mp eq_refl). exists SNew, t.
      pose proof (lookup_lt_Some _ _ _ Hp) as Hlt.
      pose proof (count_locked_insert _ _ _ singleflight.L53_new Hp) as Hcnt.
      destruct Hinv as [Hld Hoth Hheap Hm Hm46 Hmu Hex Hdel].
      constructor; simpl.
      * intros _. by apply list_lookup_insert_eq.
      * eapply others_insert; [exact Hoth | simpl; lia | auto | simpl; auto].
      * done.
      * rewrite Hmp. eauto.
      * intros _ _. rewrite Hmp. eauto.
      * simpl in Hcnt. lia.
      * done.
      * done.
    + pose proof (inv_leader _ _ _ Hinv Hst) as Hld0.
      assert (t ≠ t0) as Hne' by by apply Hne.
      assert (locked <$> leader_pc st = Some false) as Hunl.
      { destruct (leader_pc st) as [p0|] eqn:Hp0; [|by destruct st].
        simpl. f_equal. destruct (locked p0) eqn:Hl0; [|done].
        pose proof (count_locked_two _ t t0 _ _ Hp Hld0 Hne') as Hc.
        rewrite Hl0, Hmu0 in Hc. simpl in Hc.
        destruct (singleflight.mu (singleflight.g s)); simpl in Hc; lia. }
      assert (registered st = true) as Hreg.
      { rewrite Hdel0 in Hnd. destruct st; simpl in Hunl, Hnd |- *; done. }
      assert (mp !! key = Some 0%nat) as Hk.
      { destruct st; simpl in Hreg, Hmm; try done;
          destruct Hmm as (? & [= <-] & ?); done. }
      rewrite Hk. exists st, t0. sf_fields_other Hinv Hp Hne.
      left. split; [done|]. destruct st; simpl in Hreg |- *; try done; lia.

  - (* L47_Unlock *)
    destruct Hok as [-> Hrk]. injection Hstep as <-. exists st, t0.
    sf_fields_other Hinv Hp Hne.
  - (* L48_Wait *)
    destruct Hok as [-> Hrk]. rewrite Hh in Hstep.
    assert (7 ≤ rank st)%nat as Hrk'.
    { destruct st; simpl in Hrk, Hstep |- *; try lia; done. }
    assert (step_result : s' = singleflight.set_pc t (singleflight.L49_return 0) s).
    { destruct st; simpl in Hrk', Hstep; try lia; by injection Hstep as <-. }
    subst s'. exists st, t0. sf_fields_other Hinv Hp Hne.
  - (* L49_return *)
    destruct Hok as [-> Hrk]. rewrite Hh in Hstep.
    assert (step_result : s' = singleflight.set_pc t (singleflight.Returned val0 err0) s).
    { destruct st; simpl in Hrk, Hstep; try lia; by injection Hstep as <-. }
    subst s'. exists st, t0. sf_fields_other Hinv Hp Hne.
Qed.

Lemma inv_init n : inv_at (singleflight.init n) SNone 0%nat.
Proof.
  constructor; simpl; try done.
  - intros t p Hp. apply lookup_replicate in Hp as [-> _]. by left.
  - intros t Hp. by apply lookup_replicate in Hp as [? _].
  - apply count_locked_replicate.
Qed.

Lemma step_sf_inv (s s' : state) t : sf_inv s → step t s = Some s' → sf_inv s'.
Proof.
  intros HI Hstep Hwin.
  assert (singleflight.one_window (singleflight.log s) = true) as Hwin0.
  { destruct (step_log s s' t Hstep) as [Heq|[l Heq]]; rewrite Heq in Hwin;
      [done | by apply one_window_tail in Hwin]. }
  destruct (HI Hwin0) as (st & t0 & Hinv).
  destruct (step_pc s s' t Hstep) as [p Hp].
  destruct (inv_others _ _ _ Hinv t p Hp) as [Hok|[-> Hld]].
  - by apply (step_other s s' st t0 t p).
  - destruct (step_leader s s' st t0 p Hinv Hp Hld Hstep) as [st' Hinv'].
    by exists st', t0.
Qed.

Lemma run_sf_inv sched (s : state) : sf_inv s → sf_inv (run sched s).
Proof.
  revert s. induction sched as [|t sched IH]; intros s HI; simpl; [done|].
  apply IH. destruct (step t s) as [s'|] eqn:Hstep; simpl; [|done].
  by apply (step_sf_inv s s' t).
Qed.

Lemma step_length (s s' : state) t :
  step t s = Some s' → length (singleflight.pcs s') = length (singleflight.pcs s).
Proof.
  unfold singleflight.Do_step. intros Hstep.
  destruct (singleflight.pcs s !! t) as [p|]; [|done]. simpl in Hstep.
  destruct p; simpl in Hstep;
    repeat match type of Hstep with
    | context [singleflight.mu ?g] => destruct (singleflight.mu g)
    | context [singleflight.m ?g] => destruct (singleflight.m g)
    | context [singleflight.heap ?s !! ?c] =>
        destruct (singleflight.heap s !! c) as [[[|?] ? ?]|]
    | context [fn ?n] => destruct (fn n)
    | context [?mp !! key] => destruct (mp !! key)
    | _ => progress simpl in Hstep
    end;
    try discriminate; injection Hstep as <-; simpl; by rewrite length_insert.
Qed.

Lemma run_length sched (s : state) :
  length (singleflight.pcs (run sched s)) = length (singleflight.pcs s).
Proof.
  revert s. induction sched as [|t sched IH]; intros s; simpl; [done|].
  rewrite IH. destruct (step t s) as [s'|] eqn:Hstep; simpl; [|done].
  by apply step_length in Hstep.
Qed.

(** *** No deadlock *)

(** The goroutine that runs [fn] can take a step, unless it waits for the
    mutex. *)
Lemma leader_enabled (s : state) st t0 :
  inv_at s st t0 → st ≠ SNone → st ≠ SFin →
  (st = SLock2 → singleflight.mu (singleflight.g s) = false) →
  is_Some (step t0 s).
Proof.
  intros Hinv Hst Hfin Hmu. unfold singleflight.Do_step.
  rewrite (inv_leader _ _ _ Hinv Hst).
  pose proof (inv_heap _ _ _ Hinv) as Hh. pose proof (inv_m _ _ _ Hinv) as Hm.
  destruct st; simpl in *; try done; rewrite ?Hh; simpl; eauto.
  - destruct Hm as (mp & -> & _). simpl. eauto.
  - by destruct (fn _).
  - rewrite Hmu by done. eauto.
Qed.

(** Another goroutine can take a step, unless it waits for the mutex or
    for the wait group. *)
Lemma other_enabled (s : state) st t0 t p :
  inv_at s st t0 → singleflight.pcs s !! t = Some p → other_ok st p →
  (∀ v e, p ≠ singleflight.Returned v e) →
  (p = singleflight.L38_Lock → singleflight.mu (singleflight.g s) = false) →
  (∀ c, p = singleflight.L48_Wait c → (7 ≤ rank st)%nat) →
  is_Some (step t s).
Proof.
  intros Hinv Hp Hok Hnr Hmu Hwait. unfold singleflight.Do_step. rewrite Hp.
  pose proof (inv_heap _ _ _ Hinv) as Hh.
  destruct p; simpl in *; try done; eauto.
  - rewrite Hmu by done. eauto.
  - destruct (inv_m46 _ _ _ Hinv t Hp) as [mp ->]. simpl. eauto.
  - destruct Hok as [-> _]. specialize (Hwait 0%nat eq_refl). rewrite Hh.
    destruct st; simpl in *; try lia; eauto.
  - destruct Hok as [-> Hrk]. rewrite Hh.
    destruct st; simpl in *; try lia; eauto.
  - by destruct (Hnr v e).
Qed.

Lemma not_quiescent (s : state) t :
  singleflight.quiescent nil_val nil_err key fn s → is_Some (step t s) → False.
Proof. intros Hq [s' Hs]. by rewrite (Hq t) in Hs. Qed.

(** When no goroutine can take a step, the mutex is free. *)
Lemma quiescent_unlocked (s : state) st t0 :
  inv_at s st t0 → singleflight.quiescent nil_val nil_err key fn s →
  singleflight.mu (singleflight.g s) = false.
Proof.
  intros Hinv Hq. destruct (singleflight.mu (singleflight.g s)) eqn:Hmu; [|done].
  exfalso. pose proof (inv_mu _ _ _ Hinv) as Hc. rewrite Hmu in Hc.
  destruct (count_locked_pos (singleflight.pcs s)) as (t & p & Hp & Hl);
    [simpl in Hc; lia|].
  destruct (inv_others _ _ _ Hinv t p Hp) as [Hok|[-> Hld]].
  - apply (not_quiescent s t Hq).
    apply (other_enabled s st t0 t p Hinv Hp Hok);
      [intros v e -> | intros -> | intros c ->]; done.
  - apply (not_quiescent s t0 Hq).
    apply (leader_enabled s st t0 Hinv); intros ->; simpl in Hld; try done;
      injection Hld as <-; done.
Qed.

(** When no goroutine can take a step, every goroutine has returned the
    result of the first run of [fn], and [fn] has run. *)
Lemma quiescent_returned (s : state) st t0 t p :
  inv_at s st t0 → singleflight.quiescent nil_val nil_err key fn s →
  singleflight.pcs s !! t = Some p →
  p = singleflight.Returned val0 err0 ∧ (7 ≤ rank st)%nat.
Proof.
  intros Hinv Hq Hp. pose proof (quiescent_unlocked s st t0 Hinv Hq) as Hmu.
  destruct (inv_others _ _ _ Hinv t p Hp) as [Hok|[-> Hld]].
  - destruct (decide (7 ≤ rank st)%nat) as [Hrk|Hrk].
    + destruct p; simpl in Hok; try done;
        try (exfalso; apply (not_quiescent s t Hq);
             apply (other_enabled s st t0 t _ Hinv Hp); simpl; done).
      destruct Hok as (-> & -> & _). done.
    + exfalso. destruct p; simpl in Hok; try done; try lia;
        try (apply (not_quiescent s t Hq);
             apply (other_enabled s st t0 t _ Hinv Hp); simpl; done).
      destruct Hok as [-> Hrk4]. apply (not_quiescent s t0 Hq).
      apply (leader_enabled s st t0 Hinv); intros ->; simpl in *; lia.
  - destruct (decide (st = SFin)) as [->|Hfin].
    + simpl in Hld. injection Hld as <-. simpl. split; [done | lia].
    + exfalso. apply (not_quiescent s t0 Hq).
      apply (leader_enabled s st t0 Hinv); [by intros -> | done | done].
Qed.

(** C2.  Deduplication: [n ≥ 1] goroutines call [Do] with the same key and
    the same [fn] on a fresh group, in any interleaving of their
    statements.  When all of them read the map within one window, that is
    before the call is deleted from it, then once no goroutine can take a
    step every goroutine has returned (none is left blocked), [fn] has run
    exactly once, and every goroutine has returned the value and the error
    of that one run. *)
Theorem deduplication (n : nat) (sched : list nat) :
  (1 ≤ n)%nat →
  singleflight.quiescent nil_val nil_err key fn (run sched (singleflight.init n)) →
  singleflight.one_window (singleflight.log (run sched (singleflight.init n))) = true →
  singleflight.execs (singleflight.log (run sched (singleflight.init n))) = 1%nat ∧
  ∀ t, (t < n)%nat →
       singleflight.pcs (run sched (singleflight.init n)) !! t =
         Some (singleflight.Returned (fn 0%nat).1 (fn 0%nat).2).
Proof.
  intros Hn Hq Hwin. set (s := run sched (singleflight.init n)) in *.
  assert (sf_inv s) as HI.
  { apply run_sf_inv. intros _. exists SNone, 0%nat. apply inv_init. }
  destruct (HI Hwin) as (st & t0 & Hinv).
  assert (length (singleflight.pcs s) = n) as Hlen.
  { unfold s. rewrite run_length. simpl. apply length_replicate. }
  assert (∀ t, (t < n)%nat →
            singleflight.pcs s !! t = Some (singleflight.Returned val0 err0) ∧
            (7 ≤ rank st)%nat) as Hall.
  { intros t Ht. destruct (lookup_lt_is_Some_2 (singleflight.pcs s) t) as [p Hp];
      [lia|].
    destruct (quiescent_returned s st t0 t p Hinv Hq Hp) as [-> Hrk]. done. }
  split.
  - destruct (Hall 0%nat) as [_ Hrk]; [lia|].
    rewrite (inv_execs _ _ _ Hinv).
    destruct (6 <=? rank st)%nat eqn:Hle; [done|].
    apply Nat.leb_gt in Hle. lia.
  - intros t Ht. by destruct (Hall t Ht) as [-> _].
Qed.

End singleflight_facts.

(** *** Concrete runs *)

(** A function that counts its runs: the value it returns is the number of
    the run. *)
Definition counting_fn (k : nat) : nat * bool := (S k, false).

(** Three goroutines: the first gets as far as running [fn], the other two
    find its call in the map and wait, the first finishes, the other two
    return. *)
Definition sched_window : list nat :=
  replicate 7 0%nat ++ replicate 4 1%nat ++ replicate 4 2%nat ++
  replicate 6 0%nat ++ replicate 2 1%nat ++ replicate 2 2%nat.

(** Two goroutines, the second of which starts after the first has
    returned. *)
Definition sched_late : list nat := replicate 13 0%nat ++ replicate 13 1%nat.

(** Outside a single window [fn] runs again. *)
Example late_caller_runs_fn_again :
  let s := singleflight.run 0%nat false "k" counting_fn sched_late
             (singleflight.init 2) in
  singleflight.one_window (singleflight.log s) = false ∧
  singleflight.execs (singleflight.log s) = 2%nat ∧
  singleflight.pcs s =
    [singleflight.Returned 1%nat false; singleflight.Returned 2%nat false].
Proof. vm_compute. done. Qed.

Lemma deduplication_witness :
  let s := singleflight.run 0%nat false "k" counting_fn sched_window
             (singleflight.init 3) in
  (1 ≤ 3)%nat ∧
  singleflight.quiescent 0%nat false "k" counting_fn s ∧
  singleflight.one_window (singleflight.log s) = true ∧
  singleflight.execs (singleflight.log s) = 1%nat ∧
  ∀ t, (t < 3)%nat →
       singleflight.pcs s !! t =
         Some (singleflight.Returned (counting_fn 0%nat).1 (counting_fn 0%nat).2).
Proof.
  intros s.
  assert (1 ≤ 3)%nat as Hn by lia.
  assert (singleflight.quiescent 0%nat false "k" counting_fn s) as Hq.
  { intros t. destruct t as [|[|[|t]]]; vm_compute; reflexivity. }
  assert (singleflight.one_window (singleflight.log s) = true) as Hwin
    by (vm_compute; reflexivity).
  split_and!; [done..| |];
    apply (deduplication 0%nat false "k" counting_fn 3 sched_window Hn Hq Hwin).
Defined.

(** * Further properties *)

(** ** The LRU store: lookups after [Add] *)

Section lru_more.
Context {V : Type} `{lru.Value V} {W : Type}.

Abbreviation entry := (lru.entry V).
Abbreviation Cache := (lru.Cache V W).

Lemma store_ll (c : Cache) k v :
  index_ok c →
  lru.ll (lru.store c k v) = lru.Entry k v :: lru.remove_elem k (lru.ll c).
Proof.
  intros Hc. pose proof Hc as [Hnd Hidx]. unfold lru.store.
  destruct (lru.cache c !! k) as [kv|] eqn:Hk; simpl.
  - apply Hidx in Hk as [_ ->]. done.
  - rewrite remove_elem_absent; [done|]. by apply index_ok_lookup_None.
Qed.

Lemma Get_result (c : Cache) k :
  (lru.Get c k).2 = lru.value <$> lru.cache c !! k.
Proof. unfold lru.Get. by destruct (lru.cache c !! k). Qed.

Lemma Add_Get_found (c : Cache) k v w :
  reachable c →
  total (lru.ll c) + (lru.len k + lru.Len v) ≤ max_int64 →
  lru.maxBytes c = 0 ∨ lru.len k + lru.Len v ≤ lru.maxBytes c →
  ∃ c' w', lru.Add c k v w = Some (c', w') ∧
           lru.Get c' k = (c', Some v).
Proof.
  intros Hr Hfit Hfits. pose proof (reachable_inv c Hr) as Hc.
  assert (0 ≤ lru.maxBytes c) as Hnn.
  { pose proof (lru.Len_nonneg v). unfold lru.len in *. lia. }
  destruct (Add_returns c k v w Hc Hnn) as (c' & w' & Hadd).
  exists c', w'. split; [done|].
  pose proof (inv_Add _ _ _ _ _ _ Hc Hadd) as Hc'.
  pose proof (total_store_le c k v (proj1 Hc)) as Hle.
  unfold lru.Add in Hadd.
  apply (evict_keeps_head _ _ _ _ _ (lru.Entry k v) (lru.remove_elem k (lru.ll c))
           (inv_store c k v Hc)) in Hadd as [l1 Hl1];
    [| lia | by apply store_ll, Hc | by rewrite store_maxBytes].
  destruct Hc' as [[Hnd Hidx] Hcnt].
  assert (lru.cache c' !! k = Some (lru.Entry k v)) as Hk.
  { apply Hidx. rewrite Hl1. split; [by left | done]. }
  unfold lru.Get. rewrite Hk. simpl. f_equal.
  destruct c' as [mb nb l mp cb]. simpl in *. subst l.
  by rewrite remove_elem_head.
Qed.

(** X1.  A key that has just been added is found: when the capacity is
    unlimited or the entry fits in it, [Add] returns, and a [Get] of the key
    right after it returns the value added and changes nothing, the entry
    being at the front already. *)
Theorem Add_then_Get (c : Cache) k v w :
  reachable c →
  total (lru.ll c) + (lru.len k + lru.Len v) ≤ max_int64 →
  lru.maxBytes c = 0 ∨ lru.len k + lru.Len v ≤ lru.maxBytes c →
  ∃ c' w', lru.Add c k v w = Some (c', w') ∧
           lru.Get c' k = (c', Some v).
Proof. apply Add_Get_found. Qed.

(** X2.  No entry is lost unnoticed: after [Add] of [k] and [v] the entry
    for [k] followed by the other entries in their former order is the new
    list followed by the evicted entries; the callback has been called on
    exactly the evicted entries, the oldest first.  An entry of another key
    is either still there, unchanged, or among the evicted ones, and no
    entry of another key appears or changes. *)
Theorem Add_accounts_for_entries (c : Cache) k v w c' w' :
  reachable c → lru.Add c k v w = Some (c', w') →
  ∃ ev,
    lru.Entry k v :: lru.remove_elem k (lru.ll c) = lru.ll c' ++ ev ∧
    w' = notify (lru.OnEvicted c) (reverse ev) w ∧
    (∀ k' e, k' ≠ k → lru.cache c !! k' = Some e →
       lru.cache c' !! k' = Some e ∨ (lru.cache c' !! k' = None ∧ e ∈ ev)) ∧
    (∀ k' e, k' ≠ k → lru.cache c' !! k' = Some e →
       lru.cache c !! k' = Some e).
Proof.
  intros Hr Hadd. pose proof (reachable_inv c Hr) as Hc.
  pose proof (inv_Add _ _ _ _ _ _ Hc Hadd) as [[Hnd' Hidx'] _].
  pose proof (inv_store c k v Hc) as [[Hnds _] _].
  pose proof Hc as [[Hnd Hidx] _].
  apply Add_spec in Hadd as (_ & _ & _ & ev & Hl & Hw).
  rewrite Hl in Hnds. rewrite store_ll in Hl by apply Hc.
  exists ev. split_and!; [done | done | |].
  - intros k' e Hne Hk. apply Hidx in Hk as [Hin Hkey].
    assert (e ∈ lru.ll c' ++ ev) as Hin'.
    { rewrite <- Hl. right. apply elem_of_remove_elem; [done|].
      split; [done | congruence]. }
    apply elem_of_app in Hin' as [Hin'|Hin'].
    + left. by apply Hidx'.
    + right. split; [|done].
      destruct (lru.cache c' !! k') as [e'|] eqn:Hk'; [|done]. exfalso.
      apply Hidx' in Hk' as [He' Hkey'].
      rewrite fmap_app in Hnds. apply NoDup_app in Hnds as (_ & Hdisj & _).
      apply (Hdisj k').
      * rewrite <- Hkey'. by apply list_elem_of_fmap_2.
      * rewrite <- Hkey. by apply list_elem_of_fmap_2.
  - intros k' e Hne Hk. apply Hidx' in Hk as [Hin Hkey].
    assert (e ∈ lru.Entry k v :: lru.remove_elem k (lru.ll c)) as Hin'.
    { rewrite Hl. apply elem_of_app. by left. }
    apply elem_of_cons in Hin' as [->|Hin']; [simpl in Hkey; congruence|].
    apply elem_of_remove_elem in Hin' as [Hin' _]; [|done].
    by apply Hidx.
Qed.

(** *** The loop evicts no more than it must *)

Lemma evict_minimal n (c : Cache) w c' w' e ev' :
  inv c → total (lru.ll c) ≤ max_int64 →
  lru.evict n c w = Some (c', w') →
  lru.ll c = lru.ll c' ++ e :: ev' →
  lru.maxBytes c ≠ 0 ∧ lru.maxBytes c < total (lru.ll c') + size e.
Proof.
  revert c w ev'. induction n as [|n IHn]; intros c w ev' Hc Hfit Hev Hl;
    simpl in Hev.
  - destruct (lru.over c); [done|]. injection Hev as <- <-.
    apply (f_equal length) in Hl. rewrite length_app in Hl. simpl in Hl. lia.
  - destruct (lru.over c) eqn:Hov.
    + apply over_true in Hov as [Hne Hlt].
      pose proof (counted_exact c (proj2 Hc) Hfit) as Hex.
      destruct (lru.Back (lru.ll c)) as [x|] eqn:Hb.
      * apply Back_Some in Hb as [l Hb].
        pose proof (inv_RemoveOldest c w Hc) as Hc1.
        pose proof (total_RemoveOldest_le c w) as Hle.
        rewrite (RemoveOldest_snoc c w l x Hb) in Hev, Hc1, Hle.
        simpl in Hle. pose proof Hev as Hspec.
        apply evict_spec in Hspec as (_ & _ & _ & ev1 & Hl1 & _).
        simpl in Hl1. rewrite Hb, Hl1, <- app_assoc in Hl.
        apply app_inv_head in Hl.
        destruct ev1 as [|e1 ev1]; simpl in Hl.
        -- injection Hl as <- <-. rewrite app_nil_r in Hl1. subst l.
           split; [done|]. rewrite Hb, total_app in Hex. simpl in Hex. lia.
        -- injection Hl as <- <-. simpl in Hc1.
           apply (IHn _ _ ev1 Hc1) in Hev; [done | simpl; lia | done].
      * apply Back_None in Hb. rewrite RemoveOldest_empty in Hev by done.
        rewrite evict_stuck in Hev; [done | done | by apply over_true].
    + injection Hev as <- <-.
      apply (f_equal length) in Hl. rewrite length_app in Hl. simpl in Hl. lia.
Qed.

(** X3.  Eviction is minimal: the entry that [Add] evicted last would not
    have fitted; the bytes that are kept, together with that entry, exceed
    the capacity. *)
Theorem Add_evicts_only_when_over (c : Cache) k v w c' w' e ev' :
  reachable c →
  total (lru.ll c) + (lru.len k + lru.Len v) ≤ max_int64 →
  lru.Add c k v w = Some (c', w') →
  lru.Entry k v :: lru.remove_elem k (lru.ll c) = lru.ll c' ++ e :: ev' →
  lru.maxBytes c ≠ 0 ∧ lru.maxBytes c < total (lru.ll c') + size e.
Proof.
  intros Hr Hfit Hadd Hl. pose proof (reachable_inv c Hr) as Hc.
  pose proof (total_store_le c k v (proj1 Hc)) as Hle.
  rewrite <- store_ll in Hl by apply Hc. unfold lru.Add in Hadd.
  rewrite <- (store_maxBytes c k v).
  apply (evict_minimal _ _ _ _ _ _ _ (inv_store c k v Hc) ltac:(lia) Hadd Hl).
Qed.

(** *** [Len] *)

Lemma cache_as_list (c : Cache) :
  index_ok c →
  lru.cache c = list_to_map ((λ e, (lru.key e, e)) <$> lru.ll c).
Proof.
  intros [Hnd Hidx].
  assert (((λ e : entry, (lru.key e, e)) <$> lru.ll c).*1 = lru.key <$> lru.ll c)
    as Hfst by (rewrite <- list_fmap_compose; done).
  apply map_eq. intros k. destruct (lru.cache c !! k) as [e|] eqn:Hk.
  - symmetry. apply elem_of_list_to_map_1; [by rewrite Hfst|].
    apply Hidx in Hk as [Hin <-]. by apply (list_elem_of_fmap_2 (λ e, (lru.key e, e))).
  - symmetry. apply not_elem_of_list_to_map_1. rewrite Hfst.
    apply (index_ok_lookup_None c k); [by split | done].
Qed.

(** X4.  [Len] counts the keys: in every state of the store the length of
    the list, which [Len] returns, is the number of keys of the map, and a
    key is in the map exactly when an entry of the list has it. *)
Theorem Len_counts_keys (c : Cache) :
  reachable c →
  lru.CacheLen c = Z.of_nat (base.size (lru.cache c)) ∧
  ∀ k, is_Some (lru.cache c !! k) ↔ k ∈ lru.key <$> lru.ll c.
Proof.
  intros Hr. pose proof (reachable_inv c Hr) as [Hidx _].
  pose proof Hidx as [Hnd Hi]. split.
  - unfold lru.CacheLen. f_equal. rewrite (cache_as_list c Hidx) at 1.
    rewrite map_size_list_to_map; [by rewrite length_fmap|].
    rewrite <- list_fmap_compose. done.
  - intros k. split.
    + intros [e He]. apply Hi in He as [Hin <-]. by apply list_elem_of_fmap_2.
    + intros (e & -> & Hin)%list_elem_of_fmap. exists e. by apply Hi.
Qed.

(** *** Capacity zero *)

(** The values of a store, key by key. *)
Definition values (c : Cache) : gmap string V := lru.value <$> lru.cache c.

Lemma values_store (c : Cache) k v : values (lru.store c k v) = <[k := v]> (values c).
Proof.
  unfold values, lru.store.
  destruct (lru.cache c !! k); simpl; by rewrite fmap_insert.
Qed.

Lemma AddAll_unlimited (ops : list (string * V)) (c : Cache) w :
  lru.maxBytes c = 0 →
  ∃ c', AddAll c ops w = Some (c', w) ∧ lru.maxBytes c' = 0 ∧
        values c' = foldl (λ m kv, <[kv.1 := kv.2]> m) (values c) ops.
Proof.
  revert c. induction ops as [|[k v] ops IH]; intros c Hm; simpl.
  - by exists c.
  - assert (lru.Add c k v w = Some (lru.store c k v, w)) as ->.
    { unfold lru.Add. simpl. assert (lru.over (lru.store c k v) = false) as ->; [|done].
      apply over_false. left. by rewrite store_maxBytes. }
    destruct (IH (lru.store c k v)) as (c' & Hall & Hm' & Hv);
      [by rewrite store_maxBytes|].
    exists c'. rewrite values_store in Hv. done.
Qed.

(** X5.  Capacity zero is no limit: on a store created with capacity 0,
    every sequence of [Add] calls returns without calling the eviction
    callback, and afterwards [Get] finds, for each key, the value that was
    added last for it, and nothing for a key that was never added. *)
Theorem unlimited_store_keeps_everything cb (ops : list (string * V)) (w : W) :
  ∃ c, AddAll (lru.New 0 cb) ops w = Some (c, w) ∧
       ∀ k, (lru.Get c k).2 =
            foldl (λ m kv, <[kv.1 := kv.2]> m) (∅ : gmap string V) ops !! k.
Proof.
  destruct (AddAll_unlimited ops (lru.New 0 cb) w) as (c & Hall & _ & Hv);
    [done|].
  exists c. split; [done|]. intros k.
  rewrite Get_result. unfold values in Hv. simpl in Hv.
  rewrite fmap_empty in Hv. by rewrite <- Hv, lookup_fmap.
Qed.

End lru_more.

(** ** The namespace lookup: hits and fills *)

Section group_more.

Abbreviation Group := geecache.Group.

(** The bytes held by the local cache. *)
Definition held (c : geecache.cache) : Z :=
  match geecache.lru c with
  | Some l => total (lru.ll l)
  | None => 0
  end.

Lemma cached_lookup (g : Group) key :
  cached g key =
    match geecache.lru (geecache.mainCache g) with
    | Some l => lru.value <$> lru.cache l !! key
    | None => None
    end.
Proof.
  unfold cached, geecache.get. destruct (geecache.lru _) as [l|]; [|done].
  unfold lru.Get. by destruct (lru.cache l !! key).
Qed.

(** X6.  A hit does not load: for a key that is not empty and is in the
    local cache, [Get] returns the cached value after reading the cache and
    logging the hit; the loader is not called, and every key is cached
    afterwards exactly as before. *)
Theorem hit_path (g : Group) key v :
  key ≠ "" → cached g key = Some v →
  ∃ g', geecache.Get key g =
          Some (inl v, g', [geecache.EvCacheGet key;
                            geecache.EvLog "[GeeCache] hit"]) ∧
        geecache.name g' = geecache.name g ∧
        geecache.getter g' = geecache.getter g ∧
        ∀ k, cached g' k = cached g k.
Proof.
  intros Hkey Hhit. unfold geecache.Get. rewrite decide_False by done.
  unfold mbind, geecache.M_bind, geecache.mainCache_get.
  unfold cached in Hhit.
  destruct (geecache.get (geecache.mainCache g) key) as [c' r] eqn:Hget.
  simpl in Hhit. subst r. simpl. eexists. split_and!; [done..|].
  intros k. rewrite !cached_lookup. simpl.
  unfold geecache.get in Hget.
  destruct (geecache.lru (geecache.mainCache g)) as [l|]; [|done].
  unfold lru.Get in Hget. destruct (lru.cache l !! key); [|done].
  by injection Hget as <- _.
Qed.

(** The store that [add] works on, created if need be. *)
Definition lru_of (c : geecache.cache) : lru.Cache geecache.ByteView unit :=
  match geecache.lru c with
  | Some l => l
  | None => lru.New (geecache.cacheBytes c) None
  end.

Lemma lru_of_ok (c : geecache.cache) :
  cache_ok c →
  reachable (lru_of c) ∧ lru.maxBytes (lru_of c) = geecache.cacheBytes c ∧
  total (lru.ll (lru_of c)) = held c.
Proof.
  unfold cache_ok, lru_of, held. destruct (geecache.lru c); [by intros []|].
  intros _. split_and!; [constructor | done | done].
Qed.

Lemma add_eq (c : geecache.cache) key value l' :
  lru.Add (lru_of c) key value tt = Some (l', tt) →
  geecache.add c key value
    = Some (geecache.mkcache (Some l') (geecache.cacheBytes c)).
Proof. unfold geecache.add. fold (lru_of c). by intros ->. Qed.

Lemma add_fitting (c : geecache.cache) key value :
  cache_ok c →
  held c + (lru.len key + lru.Len value) ≤ max_int64 →
  geecache.cacheBytes c = 0 ∨ lru.len key + lru.Len value ≤ geecache.cacheBytes c →
  ∃ c', geecache.add c key value = Some c' ∧ cache_ok c' ∧
        geecache.get c' key = (c', Some value).
Proof.
  intros Hc Hfit Hfits. destruct (lru_of_ok c Hc) as (Hr & Hm & Ht).
  destruct (Add_Get_found (lru_of c) key value tt Hr) as (l' & [] & Hadd & Hget);
    [by rewrite Ht | by rewrite Hm |].
  rewrite (add_eq c key value l' Hadd). eexists. split; [done|]. split.
  - simpl. split; [by apply (reachable_Add (lru_of c) key value tt l' tt)|].
    apply Add_spec in Hadd as (_ & -> & _). done.
  - unfold geecache.get. simpl. by rewrite Hget.
Qed.

Lemma add_oversized (c : geecache.cache) key value :
  cache_ok c →
  held c + (lru.len key + lru.Len value) ≤ max_int64 →
  0 < geecache.cacheBytes c < lru.len key + lru.Len value →
  ∃ c', geecache.add c key value = Some c' ∧ cache_ok c' ∧
        geecache.cacheBytes c' = geecache.cacheBytes c ∧ held c' = 0 ∧
        ∀ k, geecache.get c' k = (c', None).
Proof.
  intros Hc Hfit Hbig. destruct (lru_of_ok c Hc) as (Hr & Hm & Ht).
  destruct (Add_oversized (lru_of c) key value tt (reachable_inv _ Hr))
    as (rest & _ & _ & Hadd); [lia | lia | lia |].
  assert (notify (lru.OnEvicted (lru_of c))
            (reverse rest ++ [lru.Entry key value]) tt = tt) as Hw
    by by destruct (notify _ _ _).
  rewrite Hw in Hadd. pose proof Hadd as Hr'.
  apply (reachable_Add _ _ _ _ _ _ Hr) in Hr'.
  rewrite (add_eq c key value _ Hadd). eexists. split; [done|].
  split_and!; simpl; done.
Qed.

(** X7.  A miss fills the cache: for a key that is not empty and not in
    the local cache, when the loader succeeds and the loaded entry fits in
    the capacity (or the capacity is 0), [Get] returns the loaded bytes, and
    the next [Get] of the key returns the same bytes from the cache, without
    calling the loader and without changing the group. *)
Theorem fill_then_hit (g : Group) key bs :
  key ≠ "" → cached g key = None →
  cache_ok (geecache.mainCache g) →
  geecache.getter g key = inl bs →
  held (geecache.mainCache g) + (lru.len key + Z.of_nat (length bs)) ≤ max_int64 →
  geecache.cacheBytes (geecache.mainCache g) = 0 ∨
    lru.len key + Z.of_nat (length bs) ≤ geecache.cacheBytes (geecache.mainCache g) →
  ∃ g1,
    geecache.Get key g =
      Some (inl (geecache.mkByteView bs), g1,
            [geecache.EvCacheGet key; geecache.EvGetter key;
             geecache.EvCacheAdd key (geecache.mkByteView bs)]) ∧
    geecache.Get key g1 =
      Some (inl (geecache.mkByteView bs), g1,
            [geecache.EvCacheGet key; geecache.EvLog "[GeeCache] hit"]).
Proof.
  intros Hkey Hmiss Hok Hget Hfit Hfits.
  destruct (add_fitting (geecache.mainCache g) key (geecache.mkByteView bs) Hok)
    as (c' & Hadd & Hok' & Hhit); [done | done |].
  rewrite Get_miss_eq by done. rewrite Hget. unfold geecache.cloneBytes.
  simpl. rewrite Hadd. eexists. split; [done|].
  unfold geecache.Get. rewrite decide_False by done.
  unfold mbind, geecache.M_bind, geecache.mainCache_get. simpl.
  by rewrite Hhit.
Qed.

(** X8.  A value larger than the cache is returned but not kept: for a key
    that is not empty and not cached, when the loaded entry alone exceeds a
    positive capacity, [Get] returns the loaded bytes and leaves the local
    cache empty, so that no key is cached afterwards and the next [Get] of
    the key calls the loader again. *)
Theorem oversized_value_not_cached (g : Group) key bs :
  key ≠ "" → cached g key = None →
  cache_ok (geecache.mainCache g) →
  geecache.getter g key = inl bs →
  held (geecache.mainCache g) + (lru.len key + Z.of_nat (length bs)) ≤ max_int64 →
  0 < geecache.cacheBytes (geecache.mainCache g) <
    lru.len key + Z.of_nat (length bs) →
  ∃ g1 g2,
    geecache.Get key g =
      Some (inl (geecache.mkByteView bs), g1,
            [geecache.EvCacheGet key; geecache.EvGetter key;
             geecache.EvCacheAdd key (geecache.mkByteView bs)]) ∧
    (∀ k, cached g1 k = None) ∧
    geecache.Get key g1 =
      Some (inl (geecache.mkByteView bs), g2,
            [geecache.EvCacheGet key; geecache.EvGetter key;
             geecache.EvCacheAdd key (geecache.mkByteView bs)]).
Proof.
  intros Hkey Hmiss Hok Hget Hfit Hbig.
  destruct (add_oversized (geecache.mainCache g) key (geecache.mkByteView bs) Hok)
    as (c1 & Hadd & Hok1 & Hcb1 & Hheld1 & Hmiss1); [done | done |].
  destruct (add_oversized c1 key (geecache.mkByteView bs) Hok1)
    as (c2 & Hadd2 & _); [|by rewrite Hcb1|].
  { assert (lru.Len (geecache.mkByteView bs) = Z.of_nat (length bs)) as ->
      by reflexivity.
    rewrite Hheld1. assert (0 ≤ held (geecache.mainCache g)) as Hnn; [|lia].
    unfold held. destruct (geecache.lru _); [apply total_nonneg | done]. }
  eexists (geecache.mkGroup (geecache.name g) (geecache.getter g) c1),
          (geecache.mkGroup (geecache.name g) (geecache.getter g) c2).
  split_and!.
  - rewrite Get_miss_eq by done. rewrite Hget. unfold geecache.cloneBytes.
    simpl. by rewrite Hadd.
  - intros k. unfold cached. simpl. by rewrite Hmiss1.
  - rewrite Get_miss_eq; [|done|unfold cached; simpl; by rewrite Hmiss1].
    simpl. rewrite Hget. unfold geecache.cloneBytes. simpl. by rewrite Hadd2.
Qed.

End group_more.

(** ** The hash ring: what [Add] changes *)

Section ring_more.

Abbreviation Map := consistenthash.Map.

(** The virtual nodes of a peer: the hashes of the peer's name prefixed by
    the replica numbers. *)
Definition nodes_of (m : Map) (p : string) : list Z :=
  (λ i, consistenthash.uint32 (consistenthash.hash m (consistenthash.Itoa i +:+ p)))
    <$> seqZ 0 (consistenthash.replicas m).

(** What [Add] does to the map from nodes to peers: every node of a new
    peer is given to a new peer that has it, the other nodes keep their
    peer. *)
Definition reassigned (hm hm' : gmap Z string) (N : list Z)
  (nodes : string → list Z) (ps : list string) : Prop :=
  ∀ y, (y ∈ N → ∃ p, p ∈ ps ∧ y ∈ nodes p ∧ hm' !! y = Some p) ∧
       (y ∉ N → hm' !! y = hm !! y).

Lemma foldl_add_replica_nodes p (l : list Z) (m : Map) :
  let m' := foldl (consistenthash.add_replica p) m l in
  let N := (λ i, consistenthash.uint32
                   (consistenthash.hash m (consistenthash.Itoa i +:+ p))) <$> l in
  consistenthash.keys m' = consistenthash.keys m ++ N ∧
  (∀ y, (y ∈ N → consistenthash.hashMap m' !! y = Some p) ∧
        (y ∉ N → consistenthash.hashMap m' !! y = consistenthash.hashMap m !! y)).
Proof.
  revert m. induction l as [|i l IH]; intros m; simpl.
  - split; [by rewrite app_nil_r|]. intros y. split; [|done].
    by intros ?%elem_of_nil.
  - destruct (IH (consistenthash.add_replica p m i)) as [Hk Hm].
    simpl in Hk, Hm. split; [by rewrite Hk, <- app_assoc|].
    set (h := consistenthash.uint32
                (consistenthash.hash m (consistenthash.Itoa i +:+ p))) in *.
    intros y. destruct (Hm y) as [Hin Hout]. split.
    + intros Hy. destruct (decide (y ∈ (λ i0, consistenthash.uint32
          (consistenthash.hash m (consistenthash.Itoa i0 +:+ p))) <$> l)) as [Hyl|Hyl].
      * by apply Hin.
      * rewrite Hout by done. apply elem_of_cons in Hy as [->|Hy]; [|done].
        apply lookup_insert_eq.
    + intros Hy. apply not_elem_of_cons in Hy as [Hne Hyl].
      rewrite Hout by done. by apply lookup_insert_ne.
Qed.

Lemma foldl_add_peer_nodes (ps : list string) (m : Map) :
  let m' := foldl consistenthash.add_peer m ps in
  consistenthash.hash m' = consistenthash.hash m ∧
  consistenthash.replicas m' = consistenthash.replicas m ∧
  consistenthash.keys m' = consistenthash.keys m ++ (ps ≫= nodes_of m) ∧
  reassigned (consistenthash.hashMap m) (consistenthash.hashMap m')
    (ps ≫= nodes_of m) (nodes_of m) ps.
Proof.
  revert m. induction ps as [|p ps IH]; intros m; simpl.
  - split_and!; [done | done | by rewrite app_nil_r |].
    intros y. split; [by intros ?%elem_of_nil | done].
  - destruct (IH (consistenthash.add_peer m p)) as (Hh & Hr & Hk & Hm).
    destruct (foldl_add_replica_nodes p (seqZ 0 (consistenthash.replicas m)) m)
      as [Hk1 Hm1].
    destruct (foldl_add_replica p (seqZ 0 (consistenthash.replicas m)) m)
      as (Hh1 & Hr1 & _).
    fold (consistenthash.add_peer m p) in Hk1, Hm1, Hh1, Hr1.
    fold (nodes_of m p) in Hk1, Hm1.
    assert (nodes_of (consistenthash.add_peer m p) = nodes_of m) as Hn.
    { unfold nodes_of. by rewrite Hh1, Hr1. }
    rewrite Hn in Hk, Hm.
    split_and!; [congruence | congruence | by rewrite Hk, Hk1, <- app_assoc |].
    intros y. destruct (Hm y) as [Hin Hout]. destruct (Hm1 y) as [Hin1 Hout1].
    split.
    + intros Hy. destruct (decide (y ∈ ps ≫= nodes_of m)) as [Hyl|Hyl].
      * destruct (Hin Hyl) as (q & Hq & Hyq & Hlk). exists q.
        split_and!; [by right | done | done].
      * apply elem_of_app in Hy as [Hy|Hy]; [|done].
        exists p. split_and!; [by left | done |].
        rewrite Hout by done. by apply Hin1.
    + intros Hy. apply not_elem_of_app in Hy as [Hy1 Hy2].
      rewrite Hout by done. by apply Hout1.
Qed.

Lemma Add_fields_nodes (m : Map) (ps : list string) :
  let m' := consistenthash.Add m ps in
  consistenthash.hash m' = consistenthash.hash m ∧
  consistenthash.replicas m' = consistenthash.replicas m ∧
  StronglySorted Z.le (consistenthash.keys m') ∧
  consistenthash.keys m' ≡ₚ consistenthash.keys m ++ (ps ≫= nodes_of m) ∧
  (∀ p, length (nodes_of m p) = Z.to_nat (consistenthash.replicas m)) ∧
  reassigned (consistenthash.hashMap m) (consistenthash.hashMap m')
    (ps ≫= nodes_of m) (nodes_of m) ps ∧
  (consistenthash.replicas m ≤ 0 → ps ≫= nodes_of m = []).
Proof.
  destruct (foldl_add_peer_nodes ps m) as (Hh & Hr & Hk & Hm).
  unfold consistenthash.Add, consistenthash.sort_Ints. simpl.
  split_and!; [done | done | | | | done |].
  - apply StronglySorted_merge_sort; apply _.
  - by rewrite merge_sort_Permutation, Hk.
  - intros p. unfold nodes_of. by rewrite length_fmap, length_seqZ.
  - intros Hle. unfold nodes_of. rewrite seqZ_nil by done. simpl.
    clear. induction ps as [|p ps IH]; [done|]. by rewrite bind_cons, IH.
Qed.

(** X9.  What [Add] adds: the ring keeps its hash function and replica
    count; the node list becomes the sorted list of the former nodes and of
    [replicas] nodes for each new peer, duplicates included; each node of a
    new peer is mapped to a new peer that has this node, and every other
    node keeps its peer.  With a replica count of zero or less nothing is
    added. *)
Theorem Add_nodes (m : Map) (ps : list string) :
  let m' := consistenthash.Add m ps in
  consistenthash.hash m' = consistenthash.hash m ∧
  consistenthash.replicas m' = consistenthash.replicas m ∧
  StronglySorted Z.le (consistenthash.keys m') ∧
  consistenthash.keys m' ≡ₚ consistenthash.keys m ++ (ps ≫= nodes_of m) ∧
  (∀ p, length (nodes_of m p) = Z.to_nat (consistenthash.replicas m)) ∧
  reassigned (consistenthash.hashMap m) (consistenthash.hashMap m')
    (ps ≫= nodes_of m) (nodes_of m) ps ∧
  (consistenthash.replicas m ≤ 0 → ps ≫= nodes_of m = []).
Proof. apply Add_fields_nodes. Qed.

(** *** Keys move only to new peers *)

(** The node that serves position [x] among the nodes [L]: the least node
    at or after [x], or the least node of all when every node is before
    [x]. *)
Definition serves (L : list Z) (x y : Z) : Prop :=
  y ∈ L ∧
  ((x ≤ y ∧ ∀ z, z ∈ L → x ≤ z → y ≤ z) ∨
   ((∀ z, z ∈ L → z < x) ∧ ∀ z, z ∈ L → y ≤ z)).

Lemma serves_unique L x y y' : serves L x y → serves L x y' → y = y'.
Proof.
  intros [Hy [[Hxy Hmin]|[Hall Hmin]]] [Hy' [[Hxy' Hmin']|[Hall' Hmin']]].
  - specialize (Hmin y' Hy' Hxy'). specialize (Hmin' y Hy Hxy). lia.
  - specialize (Hall' y Hy). lia.
  - specialize (Hall y' Hy'). lia.
  - specialize (Hmin y' Hy'). specialize (Hmin' y Hy). lia.
Qed.

Lemma serves_subset (L L' : list Z) x y :
  (∀ z, z ∈ L → z ∈ L') → y ∈ L → serves L' x y → serves L x y.
Proof.
  intros Hsub Hy [_ [[Hxy Hmin]|[Hall Hmin]]]; (split; [done|]).
  - left. split; [done|]. intros z Hz. apply Hmin. by apply Hsub.
  - right. split; intros z Hz; [apply Hall | apply Hmin]; by apply Hsub.
Qed.

Lemma Get_serves (m : Map) key :
  StronglySorted Z.le (consistenthash.keys m) → consistenthash.keys m ≠ [] →
  ∃ y, serves (consistenthash.keys m) (position m key) y ∧
       consistenthash.Get m key = owner m y.
Proof.
  intros Hs Hne. pose proof (Get_lookup m key Hs Hne) as Hget.
  destruct (list_find _ _) as [[i y]|] eqn:Hfind.
  - exists y. split; [|done].
    apply list_find_Some in Hfind as (Hi & Hxy & Hbefore).
    split; [by apply list_elem_of_lookup_2 in Hi|]. left. split; [done|].
    intros z Hz Hxz. apply list_elem_of_lookup in Hz as [j Hj].
    destruct (decide (j < i)%nat) as [Hlt|Hge].
    + by destruct (Hbefore j z Hj Hlt).
    + apply (sorted_lookup_le _ i j _ _ Hs Hi Hj). lia.
  - destruct Hget as (x0 & Hhead & Hget & Hmin & Hall). exists x0.
    split; [|done]. rewrite Forall_forall in Hmin, Hall. split.
    + destruct (consistenthash.keys m); [done|]. injection Hhead as ->. by left.
    + right. done.
Qed.

Lemma Add_moves_keys (m : Map) (ps : list string) key :
  ring m →
  (consistenthash.keys m ≠ [] ∧
   consistenthash.Get (consistenthash.Add m ps) key = consistenthash.Get m key) ∨
  consistenthash.Get (consistenthash.Add m ps) key ∈ ps ∨
  consistenthash.keys (consistenthash.Add m ps) = [].
Proof.
  intros Hm. destruct (ring_sorted m Hm) as [Hs _].
  destruct (Add_fields_nodes m ps) as (Hh & _ & Hs' & Hperm & _ & Hre & _).
  set (m' := consistenthash.Add m ps) in *.
  destruct (decide (consistenthash.keys m' = [])) as [Hnil|Hne']; [by right; right|].
  destruct (Get_serves m' key Hs' Hne') as (y & Hy & ->).
  assert (position m' key = position m key) as Hpos
    by (unfold position; by rewrite Hh).
  rewrite Hpos in Hy. destruct (Hre y) as [Hin Hout].
  destruct (decide (y ∈ ps ≫= nodes_of m)) as [HyN|HyN].
  - right. left. destruct (Hin HyN) as (p & Hp & _ & Hlk).
    unfold owner. by rewrite Hlk.
  - left. assert (y ∈ consistenthash.keys m) as HyK.
    { destruct Hy as [Hy _]. rewrite Hperm in Hy.
      by apply elem_of_app in Hy as [Hy|Hy]. }
    assert (consistenthash.keys m ≠ []) as Hne
      by (intros Hnil; rewrite Hnil in HyK; by apply elem_of_nil in HyK).
    split; [done|].
    destruct (Get_serves m key Hs Hne) as (y0 & Hy0 & ->).
    assert (y = y0) as <-.
    { apply (serves_unique (consistenthash.keys m) (position m key)); [|done].
      apply (serves_subset _ (consistenthash.keys m')); [|done|done].
      intros z Hz. rewrite Hperm. apply elem_of_app. by left. }
    unfold owner. by rewrite Hout.
Qed.

(** X10.  Adding peers moves keys only to the new peers: on every ring and
    for every key, after [Add] of some peers [Get] returns either the peer
    it returned before or one of the peers just added. *)
Theorem Add_moves_keys_only_to_new_peers (m : Map) (ps : list string) key :
  ring m →
  consistenthash.Get (consistenthash.Add m ps) key = consistenthash.Get m key ∨
  consistenthash.Get (consistenthash.Add m ps) key ∈ ps.
Proof.
  intros Hm. destruct (Add_moves_keys m ps key Hm) as [[_ ?]|[?|Hnil]];
    [by left | by right | left].
  rewrite (Get_empty _ key Hnil). symmetry. apply Get_empty.
  destruct (Add_fields_nodes m ps) as (_ & _ & _ & Hperm & _).
  rewrite Hnil in Hperm. symmetry in Hperm. apply Permutation_nil_r in Hperm.
  by apply app_eq_nil in Hperm as [? _].
Qed.

(** The rings with the peers that have been added to them. *)
Inductive ring_of : Map → list string → Prop :=
  | ring_of_New crc replicas fn :
      ring_of (consistenthash.New crc replicas fn) []
  | ring_of_Add m P ps :
      ring_of m P → ring_of (consistenthash.Add m ps) (P ++ ps).

Lemma ring_of_ring m P : ring_of m P → ring m.
Proof. induction 1; by constructor. Qed.

(** X11.  [Get] answers with a peer of the ring: on a ring that has a
    virtual node, [Get] returns one of the peers that were added, for every
    key; and a ring with a positive replica count has a virtual node as
    soon as a peer has been added. *)
Theorem Get_returns_added_peer (m : Map) (P : list string) key :
  ring_of m P →
  (consistenthash.keys m ≠ [] → consistenthash.Get m key ∈ P) ∧
  (0 < consistenthash.replicas m → P ≠ [] → consistenthash.keys m ≠ []).
Proof.
  induction 1 as [crc r fn|m P ps Hm [IHget IHne]].
  - split; [done|]. intros _ Hne. done.
  - pose proof (ring_of_ring m P Hm) as Hr. split.
    + intros Hne. destruct (Add_moves_keys m ps key Hr) as [[Hk ->]|[Hin|Hnil]].
      * apply elem_of_app. left. by apply IHget.
      * apply elem_of_app. by right.
      * done.
    + destruct (Add_fields m ps) as (_ & Hrep & Hlen & _). rewrite Hrep.
      intros Hpos HP Hnil. rewrite Hnil in Hlen. simpl in Hlen.
      destruct (decide (P = [])) as [->|HP'].
      * simpl in HP. destruct ps; [done|]. simpl in Hlen. nia.
      * specialize (IHne Hpos HP').
        destruct (consistenthash.keys m); [done | simpl in Hlen; lia].
Qed.

End ring_more.

(** ** The call deduplicator: every interleaving *)

Section singleflight_general.
Context {Val Err : Type} (nil_val : Val) (nil_err : Err).
Context (key : string) (fn : nat → Val * Err).

Abbreviation pc := (singleflight.pc Val Err).
Abbreviation call := (singleflight.call Val Err).
Abbreviation state := (singleflight.state Val Err).
Abbreviation step := (singleflight.Do_step nil_val nil_err key fn).
Abbreviation run := (singleflight.run nil_val nil_err key fn).

(** The call that a statement works on. *)
Definition refers (p : pc) : option nat :=
  match p with
  | singleflight.L47_Unlock c | singleflight.L48_Wait c
  | singleflight.L49_return c | singleflight.L54_wg_Add c
  | singleflight.L55_register c | singleflight.L56_Unlock c
  | singleflight.L59_fn c | singleflight.L60_wg_Done c
  | singleflight.L63_Lock c | singleflight.L64_delete c
  | singleflight.L65_Unlock c | singleflight.L67_return c => Some c
  | _ => None
  end.

(** The statements between [c.wg.Add(1)] and [c.wg.Done()] for the call
    [c]. *)
Definition in_wg (c : nat) (p : pc) : bool :=
  match p with
  | singleflight.L55_register c' | singleflight.L56_Unlock c'
  | singleflight.L59_fn c' | singleflight.L60_wg_Done c' => bool_decide (c' = c)
  | _ => false
  end.

Fixpoint count_wg (c : nat) (l : list pc) : nat :=
  match l with
  | [] => O
  | p :: l' => (Nat.b2n (in_wg c p) + count_wg c l')%nat
  end.

(** The counter of the wait group of the call [c]. *)
Definition wg_at (h : list call) (c : nat) : nat :=
  match h !! c with Some cl => singleflight.wg cl | None => O end.

(** What holds in every state of every run. *)
Record ginv (s : state) : Prop := {
  g_mu : count_locked (singleflight.pcs s) =
         Nat.b2n (singleflight.mu (singleflight.g s));
  g_wg : ∀ c, count_wg c (singleflight.pcs s) = wg_at (singleflight.heap s) c;
  g_ref : ∀ t p c, singleflight.pcs s !! t = Some p → refers p = Some c →
          (c < length (singleflight.heap s))%nat;
  g_map : ∀ mp c, singleflight.m (singleflight.g s) = Some mp →
          mp !! key = Some c → (c < length (singleflight.heap s))%nat;
  g_nil : singleflight.m (singleflight.g s) = None →
          ∀ t p, singleflight.pcs s !! t = Some p →
                 p = singleflight.L38_Lock ∨ p = singleflight.L41_init
}.

Lemma count_wg_insert c (l : list pc) t p p' :
  l !! t = Some p →
  (count_wg c (<[t := p']> l) + Nat.b2n (in_wg c p) =
   count_wg c l + Nat.b2n (in_wg c p'))%nat.
Proof.
  revert t. induction l as [|a l IH]; intros t Ht; [done|].
  destruct t as [|t]; simpl in *.
  - injection Ht as ->. lia.
  - specialize (IH t Ht). lia.
Qed.

Lemma count_wg_replicate c n : count_wg c (replicate n singleflight.L38_Lock) = 0%nat.
Proof. induction n as [|n IH]; simpl; [done | by rewrite IH]. Qed.

Lemma count_wg_pos c (l : list pc) :
  (0 < count_wg c l)%nat → ∃ t p, l !! t = Some p ∧ in_wg c p = true.
Proof.
  induction l as [|a l IH]; simpl; [lia|]. intros Hpos.
  destruct (in_wg c a) eqn:Ha.
  - exists 0%nat, a. done.
  - destruct IH as (t & p & Ht & Hp); [simpl in Hpos; lia|].
    exists (S t), p. done.
Qed.

Lemma wg_at_app (h : list call) cl c :
  singleflight.wg cl = 0%nat → wg_at (h ++ [cl]) c = wg_at h c.
Proof.
  intros Hcl. unfold wg_at. destruct (decide (c < length h)%nat) as [Hlt|Hge].
  - by rewrite lookup_app_l.
  - rewrite (lookup_ge_None_2 h) by lia.
    destruct (decide (c = length h)) as [->|Hne].
    + rewrite list_lookup_middle by done. done.
    + rewrite lookup_ge_None_2; [done|]. rewrite length_app. simpl. lia.
Qed.

Lemma wg_at_insert (h : list call) c0 cl c :
  (c0 < length h)%nat →
  wg_at (<[c0 := cl]> h) c =
    if decide (c = c0) then singleflight.wg cl else wg_at h c.
Proof.
  intros Hlt. unfold wg_at. case_decide as Hc.
  - subst c. by rewrite list_lookup_insert_eq.
  - by rewrite list_lookup_insert_ne.
Qed.

Lemma ginv_init n : ginv (singleflight.init n).
Proof.
  constructor; simpl.
  - apply count_locked_replicate.
  - intros c. rewrite count_wg_replicate. unfold wg_at. by rewrite lookup_nil.
  - intros t p c Hp. apply lookup_replicate in Hp as [-> _]. done.
  - done.
  - intros _ t p Hp. apply lookup_replicate in Hp as [-> _]. by left.
Qed.

(** The fields of [ginv] that a step leaves to routine checks. *)
Ltac ginv_fields :=
  constructor; simpl;
  [ try (match goal with
         | Hcl : ∀ p', (count_locked (<[_ := p']> _) + _ = _)%nat
           |- count_locked (<[_ := ?pn]> _) = _ =>
             specialize (Hcl pn); simpl in Hcl;
             repeat match goal with
                    | H : singleflight.mu _ = _ |- _ => rewrite H in *
                    end;
             try destruct (singleflight.mu (singleflight.g _));
             simpl in *; lia
         end)
  | try (let c := fresh "c" in
         intros c;
         match goal with
         | Hcw : ∀ c p', (count_wg c (<[_ := p']> _) + _ = _)%nat,
           Hwg : ∀ c, count_wg c _ = _
           |- count_wg _ (<[_ := ?pn]> _) = _ =>
             specialize (Hcw c pn); specialize (Hwg c); simpl in Hcw;
             rewrite ?wg_at_app by done; rewrite ?wg_at_insert by done;
             repeat case_decide; repeat case_bool_decide; subst;
             try congruence;
             try (unfold wg_at in Hwg;
                  match goal with
                  | Hc : singleflight.heap _ !! _ = Some _ |- _ =>
                      rewrite Hc in Hwg
                  end);
             simpl in *; lia
         end)
  | try (let t' := fresh "t'" in let p' := fresh "p'" in
         let c' := fresh "c'" in let Hp' := fresh "Hp'" in
         let Hr := fresh "Hr" in
         intros t' p' c' Hp' Hr;
         rewrite ?length_insert, ?length_app;
         apply list_lookup_insert_Some in Hp' as [(_ & <- & _)|[_ Hp']];
         [ simpl in Hr; try discriminate Hr;
           try (injection Hr as <-); simpl; eauto with lia
         | match goal with
           | Href : ∀ t p c, _ → refers p = Some c → _ |- _ =>
               specialize (Href _ _ _ Hp' Hr); lia
           end ])
  | try (by eauto);
    try (let mp := fresh "mp" in let c := fresh "c" in
         let Hm' := fresh "Hm'" in let Hk := fresh "Hk" in
         intros mp c Hm' Hk; rewrite ?length_insert, ?length_app;
         try match goal with
             | Hx : singleflight.m (singleflight.g _) = Some _ |- _ =>
                 tryif constr_eq Hx Hm' then fail else rewrite Hx in Hm'
             end;
         try (injection Hm' as <-; rewrite lookup_empty in Hk; discriminate);
         match goal with
         | Hmap : ∀ mp c, _ → mp !! key = Some c → _ |- _ =>
             specialize (Hmap _ _ Hm' Hk); lia
         end)
  | try (let Hm' := fresh "Hm'" in let t' := fresh "t'" in
         let p' := fresh "p'" in let Hp' := fresh "Hp'" in
         intros Hm' t' p' Hp';
         try match goal with
             | Hx : singleflight.m (singleflight.g _) = Some _ |- _ =>
                 tryif constr_eq Hx Hm' then fail else rewrite Hx in Hm'
             end;
         first
         [ discriminate Hm'
         | apply list_lookup_insert_Some in Hp' as [(_ & <- & _)|[_ Hp']];
           [ try (by left); try (by right);
             match goal with
             | Hnil : _ = None → ∀ t p, _ → _, Hp : _ !! _ = Some _ |- _ =>
                 destruct (Hnil Hm' _ _ Hp); discriminate
             end
           | match goal with
             | Hnil : _ = None → ∀ t p, _ → _ |- _ => by apply (Hnil Hm' t' p')
             end ] ]) ].

Lemma step_ginv (s s' : state) t : ginv s → step t s = Some s' → ginv s'.
Proof.
  intros [Hmu Hwg Href Hmap Hnil] Hstep. unfold singleflight.Do_step in Hstep.
  destruct (singleflight.pcs s !! t) as [p|] eqn:Hp; [|done]. simpl in Hstep.
  pose proof (λ p', count_locked_insert _ _ _ p' Hp) as Hcl.
  pose proof (λ c p', count_wg_insert c _ _ _ p' Hp) as Hcw.
  pose proof (lookup_lt_Some _ _ _ Hp) as Hlt.
  destruct p; simpl in Hstep.
  - (* L38_Lock *)
    destruct (singleflight.mu (singleflight.g s)) eqn:Hmu1; [done|].
    injection Hstep as <-. ginv_fields.
  - (* L41_init *)
    injection Hstep as <-.
    destruct (singleflight.m (singleflight.g s)) as [mp|] eqn:Hmp; ginv_fields.
  - (* L46_lookup *)
    destruct (singleflight.m (singleflight.g s)) as [mp|] eqn:Hmp; [|done].
    simpl in Hstep. injection Hstep as <-.
    destruct (mp !! key) as [c|] eqn:Hk; ginv_fields.
  - (* L47_Unlock *)
    injection Hstep as <-. ginv_fields.
  - (* L48_Wait *)
    destruct (singleflight.heap s !! c) as [cl|] eqn:Hc; [|done].
    simpl in Hstep. destruct (singleflight.wg cl =? 0)%nat; [|done].
    injection Hstep as <-. ginv_fields.
  - (* L49_return *)
    destruct (singleflight.heap s !! c) as [cl|] eqn:Hc; [|done].
    simpl in Hstep. injection Hstep as <-. ginv_fields.
  - (* L53_new *)
    injection Hstep as <-. ginv_fields.
  - (* L54_wg_Add *)
    destruct (singleflight.heap s !! c) as [cl|] eqn:Hc; [|done].
    simpl in Hstep. injection Hstep as <-.
    pose proof (lookup_lt_Some _ _ _ Hc) as Hclt. ginv_fields.
  - (* L55_register *)
    destruct (singleflight.m (singleflight.g s)) as [mp|] eqn:Hmp; [|done].
    simpl in Hstep. injection Hstep as <-. ginv_fields.
    intros mp0 c0 [= <-]. rewrite lookup_insert_eq. intros [= <-].
    by apply (Href t _ c Hp).
  - (* L56_Unlock *)
    injection Hstep as <-. ginv_fields.
  - (* L59_fn *)
    destruct (singleflight.heap s !! c) as [cl|] eqn:Hc; [|done].
    simpl in Hstep. destruct (fn _) as [v e]. injection Hstep as <-.
    pose proof (lookup_lt_Some _ _ _ Hc) as Hclt. ginv_fields.
  - (* L60_wg_Done *)
    destruct (singleflight.heap s !! c) as [cl|] eqn:Hc; [|done].
    simpl in Hstep. destruct (singleflight.wg cl) as [|k] eqn:Hwgc; [done|].
    injection Hstep as <-.
    pose proof (lookup_lt_Some _ _ _ Hc) as Hclt. ginv_fields.
  - (* L63_Lock *)
    destruct (singleflight.mu (singleflight.g s)) eqn:Hmu1; [done|].
    injection Hstep as <-. ginv_fields.
  - (* L64_delete *)
    injection Hstep as <-. ginv_fields.
    + intros mp c0 Hm'.
      destruct (singleflight.m (singleflight.g s)) as [mp0|]; [|done].
      injection Hm' as <-. by rewrite lookup_delete_eq.
    + intros Hm'.
      destruct (singleflight.m (singleflight.g s)) as [mp0|] eqn:Hmp; [done|].
      destruct (Hnil eq_refl t _ Hp); discriminate.
  - (* L65_Unlock *)
    injection Hstep as <-. ginv_fields.
  - (* L67_return *)
    destruct (singleflight.heap s !! c) as [cl|] eqn:Hc; [|done].
    simpl in Hstep. injection Hstep as <-. ginv_fields.
  - (* Returned *)
    done.
Qed.

Lemma run_ginv sched (s : state) : ginv s → ginv (run sched s).
Proof.
  revert s. induction sched as [|t sched IH]; intros s Hs; simpl; [done|].
  apply IH. destruct (step t s) as [s'|] eqn:Hstep; simpl; [|done].
  by apply (step_ginv s s' t).
Qed.

Lemma count_wg_ge c (l : list pc) t p :
  l !! t = Some p → in_wg c p = true → (1 ≤ count_wg c l)%nat.
Proof.
  revert t. induction l as [|a l IH]; intros t Ht Hp; [done|].
  destruct t as [|t]; simpl in *.
  - injection Ht as ->. rewrite Hp. simpl. lia.
  - specialize (IH t Ht Hp). lia.
Qed.

(** Why a goroutine cannot take a step. *)
Definition blocked_by (s : state) (p : pc) : Prop :=
  match p with
  | singleflight.L38_Lock | singleflight.L63_Lock _ =>
      singleflight.mu (singleflight.g s) = true
  | singleflight.L48_Wait c => (0 < wg_at (singleflight.heap s) c)%nat
  | singleflight.Returned _ _ => True
  | _ => False
  end.

Lemma blocked_shape (s : state) t p :
  ginv s → singleflight.pcs s !! t = Some p → step t s = None →
  blocked_by s p.
Proof.
  intros [Hmu Hwg Href Hmap Hnil] Hp Hstep.
  unfold singleflight.Do_step in Hstep. rewrite Hp in Hstep. simpl in Hstep.
  assert (∀ c, refers p = Some c → is_Some (singleflight.heap s !! c)) as Hheap.
  { intros c Hc. apply lookup_lt_is_Some_2. by apply (Href t p c). }
  assert (p ≠ singleflight.L38_Lock → p ≠ singleflight.L41_init →
          is_Some (singleflight.m (singleflight.g s))) as Hm.
  { intros H1 H2. destruct (singleflight.m (singleflight.g s)) eqn:Hmp; [eauto|].
    destruct (Hnil eq_refl t p Hp); done. }
  destruct p; simpl in *; try done.
  - by destruct (singleflight.mu (singleflight.g s)).
  - destruct Hm as [mp Hmp]; [done..|]. by rewrite Hmp in Hstep.
  - destruct (Hheap c eq_refl) as [cl Hc]. unfold wg_at. rewrite Hc in Hstep |- *.
    simpl in Hstep. destruct (singleflight.wg cl); [done | lia].
  - destruct (Hheap c eq_refl) as [cl Hc]. by rewrite Hc in Hstep.
  - destruct (Hheap c eq_refl) as [cl Hc]. by rewrite Hc in Hstep.
  - destruct Hm as [mp Hmp]; [done..|]. by rewrite Hmp in Hstep.
  - destruct (Hheap c eq_refl) as [cl Hc]. rewrite Hc in Hstep. simpl in Hstep.
    by destruct (fn _).
  - destruct (Hheap c eq_refl) as [cl Hc]. rewrite Hc in Hstep. simpl in Hstep.
    pose proof (count_wg_ge c _ t _ Hp) as Hge. simpl in Hge.
    rewrite bool_decide_eq_true_2 in Hge by done. specialize (Hge eq_refl).
    rewrite Hwg in Hge. unfold wg_at in Hge. rewrite Hc in Hge.
    destruct (singleflight.wg cl); [lia | done].
  - by destruct (singleflight.mu (singleflight.g s)).
  - destruct (Hheap c eq_refl) as [cl Hc]. by rewrite Hc in Hstep.
Qed.

(** X12.  [Do] never faults: in every state of every run of any number of
    goroutines under any schedule, a goroutine that cannot take a step is
    waiting for the mutex while it is held, or waiting for a wait group
    whose counter is positive, or has returned.  No goroutine is ever stopped
    by a write to a nil map, by a wait-group counter going negative or by a
    missing call. *)
Theorem Do_never_faults (n : nat) (sched : list nat) t p :
  singleflight.pcs (run sched (singleflight.init n)) !! t = Some p →
  step t (run sched (singleflight.init n)) = None →
  blocked_by (run sched (singleflight.init n)) p.
Proof. apply blocked_shape, run_ginv, ginv_init. Qed.

(** X13.  Mutual exclusion: in every state of every run at most one
    goroutine is between a [Lock] and the following [Unlock], and while one
    is there the mutex is held; in particular the mutex is held whenever a
    goroutine is about to unlock it. *)
Theorem Do_mutual_exclusion (n : nat) (sched : list nat) t1 t2 p1 p2 :
  singleflight.pcs (run sched (singleflight.init n)) !! t1 = Some p1 →
  singleflight.pcs (run sched (singleflight.init n)) !! t2 = Some p2 →
  locked p1 = true → locked p2 = true →
  t1 = t2 ∧
  singleflight.mu (singleflight.g (run sched (singleflight.init n))) = true.
Proof.
  intros H1 H2 Hl1 Hl2.
  pose proof (g_mu _ (run_ginv sched _ (ginv_init n))) as Hmu.
  set (s := run sched (singleflight.init n)) in *.
  assert (singleflight.mu (singleflight.g s) = true) as Hheld.
  { pose proof (count_locked_pos (singleflight.pcs s)) as _.
    destruct (singleflight.mu (singleflight.g s)); [done|]. exfalso.
    assert (Nat.b2n (locked p1) ≤ count_locked (singleflight.pcs s))%nat as Hle.
    { clear -H1. revert t1 H1. induction (singleflight.pcs s) as [|a l IH];
        intros t1 H1; [done|].
      destruct t1 as [|t1]; simpl in *; [injection H1 as ->; lia|].
      specialize (IH t1 H1). lia. }
    rewrite Hl1, Hmu in Hle. simpl in Hle. lia. }
  split; [|done]. destruct (decide (t1 = t2)) as [|Hne]; [done|]. exfalso.
  pose proof (count_locked_two _ t1 t2 _ _ H1 H2 Hne) as Hc.
  rewrite Hl1, Hl2, Hmu, Hheld in Hc. simpl in Hc. lia.
Qed.

(** *** Progress *)

Lemma ginv_progress (s : state) t p :
  ginv s → singleflight.pcs s !! t = Some p →
  (∀ v e, p ≠ singleflight.Returned v e) →
  ∃ t' s', step t' s = Some s'.
Proof.
  intros Hg Hp Hnr. pose proof Hg as [Hmu Hwg _ _ _].
  assert (∀ t' p', singleflight.pcs s !! t' = Some p' →
            blocked_by s p' → False → ∃ t'' s', step t'' s = Some s') as _
    by done.
  assert (∀ t' p', singleflight.pcs s !! t' = Some p' →
            ¬ blocked_by s p' → ∃ t'' s', step t'' s = Some s') as Hen.
  { intros t' p' Hp' Hnb. destruct (step t' s) as [s'|] eqn:Hstep; [eauto|].
    destruct Hnb. by apply (blocked_shape s t' p'). }
  destruct (singleflight.mu (singleflight.g s)) eqn:Hheld.
  - destruct (count_locked_pos (singleflight.pcs s)) as (t' & p' & Hp' & Hl);
      [rewrite Hmu; simpl; lia|].
    apply (Hen t' p' Hp').
    destruct p'; simpl in Hl |- *; try discriminate; tauto.
  - destruct (step t s) as [s'|] eqn:Hstep; [eauto|].
    pose proof (blocked_shape s t p Hg Hp Hstep) as Hb.
    destruct p; simpl in Hb; try done; try congruence.
    destruct (count_wg_pos c (singleflight.pcs s)) as (t' & p' & Hp' & Hin);
      [by rewrite Hwg|].
    destruct (decide (locked p' = true)) as [Hl|Hl].
    + exfalso.
      assert (Nat.b2n (locked p') ≤ count_locked (singleflight.pcs s))%nat as Hle.
      { clear -Hp'. revert t' Hp'. induction (singleflight.pcs s) as [|a l IH];
          intros t' Hp'; [done|].
        destruct t' as [|t']; simpl in *; [injection Hp' as ->; lia|].
        specialize (IH t' Hp'). lia. }
      rewrite Hl, Hmu in Hle. simpl in Hle. lia.
    + apply (Hen t' p' Hp').
      destruct p'; simpl in Hin, Hl |- *; try discriminate; try tauto; done.
Qed.

(** X14.  No deadlock: in every state of every run, as long as some
    goroutine has not returned from [Do], some goroutine can take a step. *)
Theorem Do_deadlock_free (n : nat) (sched : list nat) t p :
  singleflight.pcs (run sched (singleflight.init n)) !! t = Some p →
  (∀ v e, p ≠ singleflight.Returned v e) →
  ∃ t' s', step t' (run sched (singleflight.init n)) = Some s'.
Proof. apply ginv_progress, run_ginv, ginv_init. Qed.

(** *** Termination *)

(** A bound on the statements that a goroutine still has to execute. *)
Definition remaining (p : pc) : nat :=
  match p with
  | singleflight.L38_Lock => 13
  | singleflight.L41_init => 12
  | singleflight.L46_lookup => 11
  | singleflight.L53_new => 10
  | singleflight.L54_wg_Add _ => 9
  | singleflight.L55_register _ => 8
  | singleflight.L56_Unlock _ => 7
  | singleflight.L59_fn _ => 6
  | singleflight.L60_wg_Done _ => 5
  | singleflight.L63_Lock _ => 4
  | singleflight.L64_delete _ => 3
  | singleflight.L65_Unlock _ => 2
  | singleflight.L67_return _ => 1
  | singleflight.L47_Unlock _ => 3
  | singleflight.L48_Wait _ => 2
  | singleflight.L49_return _ => 1
  | singleflight.Returned _ _ => 0
  end%nat.

Definition potential (l : list pc) : nat := foldr (λ p acc, remaining p + acc)%nat O l.

(** The number of steps that a schedule makes the goroutines take. *)
Fixpoint effective (sched : list nat) (s : state) : nat :=
  match sched with
  | [] => O
  | t :: sched' =>
      match step t s with
      | Some s' => S (effective sched' s')
      | None => effective sched' s
      end
  end.

Definition returned (p : pc) : bool :=
  match p with singleflight.Returned _ _ => true | _ => false end.

Lemma potential_insert (l : list pc) t p p' :
  l !! t = Some p →
  (potential (<[t := p']> l) + remaining p = potential l + remaining p')%nat.
Proof.
  revert t. induction l as [|a l IH]; intros t Ht; [done|].
  destruct t as [|t]; simpl in *.
  - injection Ht as ->. lia.
  - specialize (IH t Ht). lia.
Qed.

Lemma potential_replicate n :
  potential (replicate n singleflight.L38_Lock) = (13 * n)%nat.
Proof. induction n as [|n IH]; simpl; [done | rewrite IH; lia]. Qed.

Lemma step_potential (s s' : state) t :
  step t s = Some s' →
  (potential (singleflight.pcs s') < potential (singleflight.pcs s))%nat.
Proof.
  unfold singleflight.Do_step. intros Hstep.
  destruct (singleflight.pcs s !! t) as [p|] eqn:Hp; [|done]. simpl in Hstep.
  pose proof (λ p', potential_insert _ _ _ p' Hp) as Hpot.
  destruct p; simpl in Hstep;
    repeat match type of Hstep with
    | context [singleflight.mu ?g] => destruct (singleflight.mu g)
    | context [singleflight.m ?g] => destruct (singleflight.m g)
    | context [singleflight.heap ?s !! ?c] =>
        destruct (singleflight.heap s !! c) as [[[|?] ? ?]|]
    | context [fn ?n] => destruct (fn n)
    | context [?mp !! key] => destruct (mp !! key)
    | _ => progress simpl in Hstep
    end;
    try discriminate; injection Hstep as <-; simpl;
    match goal with
    | |- (potential (<[_ := ?pn]> _) < _)%nat =>
        specialize (Hpot pn); simpl in Hpot; lia
    end.
Qed.

Lemma potential_returned (l : list pc) :
  potential l = 0%nat ↔ forallb returned l = true.
Proof.
  induction l as [|p l IH]; simpl; [done|].
  rewrite andb_true_iff, <- IH. destruct p; simpl; split; try lia;
    try (intros [? ?]; done).
Qed.

Lemma run_app sched sched' (s : state) :
  run (sched ++ sched') s = run sched' (run sched s).
Proof. revert s. induction sched as [|t sched IH]; intros s; simpl; [done|]. apply IH. Qed.

Lemma steps_bounded (n : nat) (sched : list nat) :
  (effective sched (singleflight.init n) +
   potential (singleflight.pcs (run sched (singleflight.init n))) ≤ 13 * n)%nat.
Proof.
  rewrite <- (potential_replicate n).
  change (replicate n singleflight.L38_Lock)
    with (singleflight.pcs (singleflight.init (Val := Val) (Err := Err) n)).
  generalize (singleflight.init (Val := Val) (Err := Err) n) as s.
  induction sched as [|t sched IH]; intros s; simpl; [lia|].
  destruct (step t s) as [s'|] eqn:Hstep; simpl; [|apply IH].
  specialize (IH s'). apply step_potential in Hstep. lia.
Qed.

(** X15.  Every call takes a bounded number of steps: under any schedule of
    [n] goroutines the steps taken so far, plus a bound on the steps that
    remain, never exceed [13 * n]; a goroutine executes at most 13
    statements of [Do], and no schedule makes it loop. *)
Theorem Do_steps_bounded (n : nat) (sched : list nat) :
  (effective sched (singleflight.init n) +
   potential (singleflight.pcs (run sched (singleflight.init n))) ≤ 13 * n)%nat.
Proof. apply steps_bounded. Qed.

Lemma ginv_complete (k : nat) (s : state) :
  ginv s → (potential (singleflight.pcs s) ≤ k)%nat →
  ∃ sched', forallb returned (singleflight.pcs (run sched' s)) = true ∧
            (length sched' ≤ k)%nat.
Proof.
  revert s. induction k as [|k IH]; intros s Hg Hk.
  - exists []. split; [|done]. simpl. apply potential_returned. lia.
  - destruct (forallb returned (singleflight.pcs s)) eqn:Hall.
    + exists []. split; [done | simpl; lia].
    + assert (∃ t p, singleflight.pcs s !! t = Some p ∧ returned p = false)
        as (t & p & Hp & Hr).
      { clear -Hall. induction (singleflight.pcs s) as [|a l IHl]; [done|].
        simpl in Hall. apply andb_false_iff in Hall as [Ha|Hl].
        - by exists 0%nat, a.
        - destruct (IHl Hl) as (t & p & Hp & Hr). by exists (S t), p. }
      destruct (ginv_progress s t p Hg Hp) as (t' & s' & Hstep).
      { intros v e ->. done. }
      pose proof (step_potential s s' t' Hstep) as Hlt.
      destruct (IH s' (step_ginv s s' t' Hg Hstep)) as (sched' & Hdone & Hlen);
        [lia|].
      exists (t' :: sched'). simpl. rewrite Hstep. simpl. split; [done | lia].
Qed.

(** X16.  The calls can always complete: from every state of every run
    there is a continuation of the schedule, of at most [13 * n] steps,
    after which every goroutine has returned from [Do]. *)
Theorem Do_can_complete (n : nat) (sched : list nat) :
  ∃ sched',
    forallb returned
      (singleflight.pcs (run (sched ++ sched') (singleflight.init n))) = true ∧
    (length sched' ≤ 13 * n)%nat.
Proof.
  pose proof (steps_bounded n sched) as Hb.
  destruct (ginv_complete (13 * n) (run sched (singleflight.init n)))
    as (sched' & Hdone & Hlen); [apply run_ginv, ginv_init | lia |].
  exists sched'. by rewrite run_app.
Qed.

End singleflight_general.

(** ** The call deduplicator: what is returned *)

Section singleflight_results.
Context {Val Err : Type} (nil_val : Val) (nil_err : Err).
Context (key : string) (fn : nat → Val * Err).

Abbreviation pc := (singleflight.pc Val Err).
Abbreviation call := (singleflight.call Val Err).
Abbreviation state := (singleflight.state Val Err).
Abbreviation step := (singleflight.Do_step nil_val nil_err key fn).
Abbreviation run := (singleflight.run nil_val nil_err key fn).

(** [v] and [e] are the result of one of the first [k] runs of [fn]. *)
Definition produced (k : nat) (v : Val) (e : Err) : Prop :=
  ∃ j, (j < k)%nat ∧ fn j = (v, e).

(** The call [c] holds the result of a run of [fn]. *)
Definition filled (s : state) (c : nat) : Prop :=
  ∃ cl, singleflight.heap s !! c = Some cl ∧
        produced (singleflight.execs (singleflight.log s))
          (singleflight.val cl) (singleflight.err cl).

(** The statements that read the call after [fn] has run for it. *)
Definition after_fn (p : pc) : option nat :=
  match p with
  | singleflight.L49_return c | singleflight.L60_wg_Done c
  | singleflight.L63_Lock c | singleflight.L64_delete c
  | singleflight.L65_Unlock c | singleflight.L67_return c => Some c
  | _ => None
  end.

(** The goroutines that may still run [fn]. *)
Definition may_run (p : pc) : bool :=
  match p with
  | singleflight.L38_Lock | singleflight.L41_init | singleflight.L46_lookup
  | singleflight.L53_new | singleflight.L54_wg_Add _
  | singleflight.L55_register _ | singleflight.L56_Unlock _
  | singleflight.L59_fn _ => true
  | _ => false
  end.

Fixpoint count_may_run (l : list pc) : nat :=
  match l with
  | [] => O
  | p :: l' => (Nat.b2n (may_run p) + count_may_run l')%nat
  end.

Record rinv (s : state) : Prop := {
  r_ret : ∀ t v e, singleflight.pcs s !! t = Some (singleflight.Returned v e) →
          produced (singleflight.execs (singleflight.log s)) v e;
  r_after : ∀ t p c, singleflight.pcs s !! t = Some p → after_fn p = Some c →
            filled s c;
  r_zero : ∀ c, (c < length (singleflight.heap s))%nat →
           wg_at (singleflight.heap s) c = 0%nat →
           filled s c ∨ ∃ t, singleflight.pcs s !! t = Some (singleflight.L54_wg_Add c);
  r_fresh : ∀ t c, singleflight.pcs s !! t = Some (singleflight.L54_wg_Add c) →
            (∀ t' p', t' ≠ t → singleflight.pcs s !! t' = Some p' →
                      refers p' ≠ Some c) ∧
            (∀ mp, singleflight.m (singleflight.g s) = Some mp →
                   mp !! key ≠ Some c);
  r_runs : (singleflight.execs (singleflight.log s) +
            count_may_run (singleflight.pcs s) ≤ length (singleflight.pcs s))%nat
}.

Lemma count_may_run_insert (l : list pc) t p p' :
  l !! t = Some p →
  (count_may_run (<[t := p']> l) + Nat.b2n (may_run p) =
   count_may_run l + Nat.b2n (may_run p'))%nat.
Proof.
  revert t. induction l as [|a l IH]; intros t Ht; [done|].
  destruct t as [|t]; simpl in *.
  - injection Ht as ->. lia.
  - specialize (IH t Ht). lia.
Qed.

Lemma count_may_run_replicate n :
  count_may_run (replicate n (singleflight.L38_Lock : pc)) = n.
Proof. induction n as [|n IH]; simpl; [done | by rewrite IH]. Qed.

Lemma rinv_init n : rinv (singleflight.init n).
Proof.
  constructor; simpl.
  - intros t v e Hp. by apply lookup_replicate in Hp as [? _].
  - intros t p c Hp. apply lookup_replicate in Hp as [-> _]. done.
  - intros c Hc. lia.
  - intros t c Hp. by apply lookup_replicate in Hp as [? _].
  - rewrite count_may_run_replicate, length_replicate. lia.
Qed.

Lemma produced_mono k k' v e : (k ≤ k')%nat → produced k v e → produced k' v e.
Proof. intros Hle (j & Hj & Hfn). exists j. split; [lia | done]. Qed.

(** A state [s'] keeps what the calls of [s] hold, or replaces it by the
    result of a run of [fn]. *)
Definition keeps_results (s s' : state) : Prop :=
  (singleflight.execs (singleflight.log s) ≤
   singleflight.execs (singleflight.log s'))%nat ∧
  ∀ c cl, singleflight.heap s !! c = Some cl →
    ∃ cl', singleflight.heap s' !! c = Some cl' ∧
      ((singleflight.val cl' = singleflight.val cl ∧
        singleflight.err cl' = singleflight.err cl) ∨
       produced (singleflight.execs (singleflight.log s'))
         (singleflight.val cl') (singleflight.err cl')).

Lemma filled_keeps (s s' : state) c :
  keeps_results s s' → filled s c → filled s' c.
Proof.
  intros [Hle Hk] (cl & Hc & Hp). destruct (Hk c cl Hc) as (cl' & Hc' & [[Hv He]|Hn]).
  - exists cl'. split; [done|]. rewrite Hv, He. by apply (produced_mono _ _ _ _ Hle).
  - by exists cl'.
Qed.

Lemma step_keeps (s s' : state) t : step t s = Some s' → keeps_results s s'.
Proof.
  unfold singleflight.Do_step. intros Hstep.
  destruct (singleflight.pcs s !! t) as [p|] eqn:Hp; [|done]. simpl in Hstep.
  assert (∀ c cl, singleflight.heap s !! c = Some cl →
            ∃ cl', singleflight.heap s !! c = Some cl' ∧
              ((singleflight.val cl' = singleflight.val cl ∧
                singleflight.err cl' = singleflight.err cl) ∨
               produced (singleflight.execs (singleflight.log s'))
                 (singleflight.val cl') (singleflight.err cl'))) as Hsame
    by (intros c cl Hc; exists cl; auto).
  assert (∀ c0 cl0 w c cl,
            singleflight.heap s !! c0 = Some cl0 →
            singleflight.heap s !! c = Some cl →
            ∃ cl', <[c0 := singleflight.mkcall w (singleflight.val cl0)
                             (singleflight.err cl0)]> (singleflight.heap s) !! c
                   = Some cl' ∧
              ((singleflight.val cl' = singleflight.val cl ∧
                singleflight.err cl' = singleflight.err cl) ∨
               produced (singleflight.execs (singleflight.log s'))
                 (singleflight.val cl') (singleflight.err cl'))) as Hupd.
  { intros c0 cl0 w c cl Hc0 Hc. destruct (decide (c = c0)) as [->|Hne].
    - rewrite list_lookup_insert_eq by by apply lookup_lt_Some in Hc0.
      eexists. split; [done|]. left. simpl. by simplify_eq.
    - rewrite list_lookup_insert_ne by done. eauto. }
  destruct p; simpl in Hstep.
  all: try (destruct (singleflight.mu (singleflight.g s)); [done|]).
  all: try (destruct (singleflight.m (singleflight.g s)) as [mp|] eqn:Hmp;
            simpl in Hstep; [|try done]).
  all: try (destruct (singleflight.heap s !! c) as [cl0|] eqn:Hc0;
            simpl in Hstep; [|done]).
  all: try (destruct (mp !! key)).
  all: try (destruct (singleflight.wg cl0 =? 0)%nat; [|done]).
  all: try (destruct (singleflight.wg cl0); [done|]).
  all: try (injection Hstep as <-; split; simpl; [lia | by eauto]).
  all: try (injection Hstep as <-; split; simpl; [lia|]; intros c' cl Hc;
            exists cl; split; [|by auto];
            by rewrite lookup_app_l by (by apply lookup_lt_Some in Hc)).
  all: try (destruct (fn (singleflight.execs (singleflight.log s)))
              as [v1 e1] eqn:Hfn;
            injection Hstep as <-; split; simpl; [lia|]; intros c' cl Hc;
            destruct (decide (c' = c)) as [->|Hne];
            [ rewrite list_lookup_insert_eq by (by apply lookup_lt_Some in Hc0);
              eexists; split; [done|]; right; simpl;
              exists (singleflight.execs (singleflight.log s));
              split; [lia | done]
            | rewrite list_lookup_insert_ne by done; eauto ]).
  all: discriminate Hstep.
Qed.

(** What a step has to show for [rinv], once the goroutines that did not
    move are accounted for. *)
Lemma rinv_step_core (s s' : state) t p p' :
  ginv key s → rinv s →
  singleflight.pcs s !! t = Some p →
  singleflight.pcs s' = <[t := p']> (singleflight.pcs s) →
  keeps_results s s' →
  (∀ v e, p' = singleflight.Returned v e →
          produced (singleflight.execs (singleflight.log s')) v e) →
  (∀ c, after_fn p' = Some c → filled s' c) →
  (∀ c, (c < length (singleflight.heap s'))%nat →
        wg_at (singleflight.heap s') c = 0%nat →
        ((c < length (singleflight.heap s))%nat ∧
         wg_at (singleflight.heap s) c = 0%nat ∧
         p ≠ singleflight.L54_wg_Add c) ∨
        filled s' c ∨ p' = singleflight.L54_wg_Add c) →
  (∀ c, refers p' = Some c →
        refers p = Some c ∨
        (∃ mp, singleflight.m (singleflight.g s) = Some mp ∧ mp !! key = Some c) ∨
        (length (singleflight.heap s) ≤ c)%nat) →
  (∀ mp' c, singleflight.m (singleflight.g s') = Some mp' → mp' !! key = Some c →
        (∃ mp, singleflight.m (singleflight.g s) = Some mp ∧ mp !! key = Some c) ∨
        refers p = Some c) →
  (∀ c, p' = singleflight.L54_wg_Add c → (length (singleflight.heap s) ≤ c)%nat) →
  (singleflight.execs (singleflight.log s') + Nat.b2n (may_run p') ≤
   singleflight.execs (singleflight.log s) + Nat.b2n (may_run p))%nat →
  rinv s'.
Proof.
  intros Hg Hr Hp Hpcs Hkeep C1 C2 C3 C4 C5 C6 C7.
  pose proof (lookup_lt_Some _ _ _ Hp) as Hlt.
  constructor.
  - intros t0 v e. rewrite Hpcs. intros Ht0.
    apply list_lookup_insert_Some in Ht0 as [(_ & Heq & _)|[_ Ht0]]; [by apply C1|].
    apply (produced_mono (singleflight.execs (singleflight.log s))); [apply Hkeep|].
    by apply (r_ret s Hr t0).
  - intros t0 p0 c. rewrite Hpcs. intros Ht0 Ha.
    apply list_lookup_insert_Some in Ht0 as [(_ & <- & _)|[_ Ht0]]; [by apply C2|].
    apply (filled_keeps s); [done|]. by apply (r_after s Hr t0 p0).
  - intros c Hc Hz. destruct (C3 c Hc Hz) as [(Hc' & Hz' & Hne)|[Hf| ->]].
    + destruct (r_zero s Hr c Hc' Hz') as [Hf|[t1 Ht1]].
      * left. by apply (filled_keeps s).
      * right. exists t1. rewrite Hpcs. rewrite list_lookup_insert_ne; [done|].
        intros ->. congruence.
    + by left.
    + right. exists t. rewrite Hpcs. by rewrite list_lookup_insert_eq.
  - intros t0 c0. rewrite Hpcs. intros Ht0.
    apply list_lookup_insert_Some in Ht0 as [(<- & Heq & _)|[Hne0 Ht0]].
    + pose proof (C6 c0 Heq) as Hfresh. split.
      * intros t' p'' Hne Hp''. rewrite list_lookup_insert_ne in Hp'' by done.
        intros Href. pose proof (g_ref key s Hg t' p'' c0 Hp'' Href). lia.
      * intros mp' Hm' Hk. destruct (C5 mp' c0 Hm' Hk) as [(mp & Hm & Hk')|Href].
        -- pose proof (g_map key s Hg mp c0 Hm Hk'). lia.
        -- pose proof (g_ref key s Hg t p c0 Hp Href). lia.
    + destruct (r_fresh s Hr t0 c0 Ht0) as [HA HB].
      pose proof (g_ref key s Hg t0 _ c0 Ht0 eq_refl) as Hc0.
      assert (refers p ≠ Some c0) as HAt by by apply (HA t p).
      split.
      * intros t' p'' Hne Hp''.
        apply list_lookup_insert_Some in Hp'' as [(_ & <- & _)|[Hne' Hp'']].
        -- intros Href. destruct (C4 c0 Href) as [Hold|[(mp & Hm & Hk)|Hge]].
           ++ done.
           ++ by apply (HB mp).
           ++ lia.
        -- by apply (HA t' p'').
      * intros mp' Hm' Hk. destruct (C5 mp' c0 Hm' Hk) as [(mp & Hm & Hk')|Href].
        -- by apply (HB mp).
        -- done.
  - rewrite Hpcs, length_insert.
    pose proof (count_may_run_insert _ _ _ p' Hp) as Hcnt.
    pose proof (r_runs s Hr). lia.
Qed.

(** The routine side conditions of [rinv_step_core]. *)
Ltac rinv_side :=
  simpl;
  try (by intros ? ? [=]);
  try (by intros ? [=]);
  try (by intros ? [= <-]; left);
  try (by intros ? ? ?; left; split_and!);
  try (by intros ? ? ? ?; left; eauto);
  try lia.

Ltac rinv_core p' :=
  match goal with
  | Hg : ginv _ ?s, Hr : rinv ?s, Hp : singleflight.pcs ?s !! ?t = Some _,
    Hk : keeps_results ?s ?s' |- rinv ?s' =>
      apply (rinv_step_core s s' t _ p' Hg Hr Hp eq_refl Hk); rinv_side
  end.

Lemma step_rinv (s s' : state) t :
  ginv key s → rinv s → step t s = Some s' → rinv s'.
Proof.
  intros Hg Hr Hstep. pose proof (step_keeps _ _ _ Hstep) as Hkeep.
  unfold singleflight.Do_step in Hstep.
  destruct (singleflight.pcs s !! t) as [p|] eqn:Hp; [|done]. simpl in Hstep.
  destruct p; simpl in Hstep.
  - (* L38_Lock *)
    destruct (singleflight.mu (singleflight.g s)) eqn:Hmu1; [done|].
    injection Hstep as <-. rinv_core (singleflight.L41_init : pc).
  - (* L41_init *)
    injection Hstep as <-.
    destruct (singleflight.m (singleflight.g s)) as [mp|] eqn:Hmp;
      rinv_core (singleflight.L46_lookup : pc).
    intros mp' c [= <-]. by rewrite lookup_empty.
  - (* L46_lookup *)
    destruct (singleflight.m (singleflight.g s)) as [mp|] eqn:Hmp; [|done].
    simpl in Hstep. injection Hstep as <-.
    destruct (mp !! key) as [c|] eqn:Hk.
    + rinv_core (singleflight.L47_Unlock c : pc).
      intros c' [= <-]. right. left. eauto.
    + rinv_core (singleflight.L53_new : pc).
  - (* L47_Unlock *)
    injection Hstep as <-. rinv_core (singleflight.L48_Wait c : pc).
  - (* L48_Wait *)
    destruct (singleflight.heap s !! c) as [cl|] eqn:Hc; [|done].
    simpl in Hstep. destruct (singleflight.wg cl =? 0)%nat eqn:Hwg; [|done].
    injection Hstep as <-. rinv_core (singleflight.L49_return c : pc).
    intros c' [= <-]. apply Nat.eqb_eq in Hwg.
    destruct (r_zero s Hr c) as [Hf|[t1 Ht1]].
    + by apply lookup_lt_Some in Hc.
    + unfold wg_at. by rewrite Hc.
    + done.
    + destruct (r_fresh s Hr t1 c Ht1) as [HA _].
      destruct (HA t _ ltac:(intros ->; congruence) Hp). done.
  - (* L49_return *)
    destruct (singleflight.heap s !! c) as [cl|] eqn:Hc; [|done].
    simpl in Hstep. injection Hstep as <-.
    rinv_core (singleflight.Returned (singleflight.val cl) (singleflight.err cl) : pc).
    intros v e [= <- <-].
    destruct (r_after s Hr t _ c Hp eq_refl) as (cl' & Hc' & Hprod).
    by simplify_eq.
  - (* L53_new *)
    injection Hstep as <-.
    rinv_core (singleflight.L54_wg_Add (length (singleflight.heap s)) : pc).
    + intros c. rewrite length_app, wg_at_app by done. simpl. intros Hc Hz.
      destruct (decide (c = length (singleflight.heap s))) as [->|Hne].
      * by right; right.
      * left. split_and!; [lia|done|done].
    + intros c [= <-]. right. right. lia.
  - (* L54_wg_Add *)
    destruct (singleflight.heap s !! c) as [cl|] eqn:Hc; [|done].
    simpl in Hstep. injection Hstep as <-.
    pose proof (lookup_lt_Some _ _ _ Hc) as Hclt.
    rinv_core (singleflight.L55_register c : pc).
    intros c'. rewrite length_insert, wg_at_insert by done. intros Hc' Hz.
    case_decide as Hcc; [simpl in Hz; lia|].
    left. split_and!; [done|done|congruence].
  - (* L55_register *)
    destruct (singleflight.m (singleflight.g s)) as [mp|] eqn:Hmp; [|done].
    simpl in Hstep. injection Hstep as <-.
    rinv_core (singleflight.L56_Unlock c : pc).
    intros mp' c' [= <-]. rewrite lookup_insert_eq. intros [= <-]. by right.
  - (* L56_Unlock *)
    injection Hstep as <-. rinv_core (singleflight.L59_fn c : pc).
  - (* L59_fn *)
    destruct (singleflight.heap s !! c) as [cl|] eqn:Hc; [|done].
    simpl in Hstep.
    destruct (fn (singleflight.execs (singleflight.log s))) as [v e] eqn:Hfn.
    injection Hstep as <-.
    pose proof (lookup_lt_Some _ _ _ Hc) as Hclt.
    rinv_core (singleflight.L60_wg_Done c : pc).
    + intros c' [= <-]. eexists. split; [by apply list_lookup_insert_eq|].
      simpl. exists (singleflight.execs (singleflight.log s)). split; [lia|done].
    + intros c'. rewrite length_insert, wg_at_insert by done. intros Hc' Hz.
      left. split_and!; [done| |done].
      case_decide as Hcc; [|done]. subst c'. unfold wg_at. by rewrite Hc.
  - (* L60_wg_Done *)
    destruct (singleflight.heap s !! c) as [cl|] eqn:Hc; [|done].
    simpl in Hstep. destruct (singleflight.wg cl) as [|k] eqn:Hwgc; [done|].
    injection Hstep as <-.
    pose proof (lookup_lt_Some _ _ _ Hc) as Hclt.
    assert (filled s c) as Hf by by apply (r_after s Hr t _ c Hp).
    rinv_core (singleflight.L63_Lock c : pc).
    + intros c' [= <-]. by apply (filled_keeps s).
    + intros c'. rewrite length_insert, wg_at_insert by done. intros Hc' Hz.
      case_decide as Hcc.
      * subst c'. right. left. by apply (filled_keeps s).
      * left. split_and!; done.
  - (* L63_Lock *)
    destruct (singleflight.mu (singleflight.g s)) eqn:Hmu1; [done|].
    injection Hstep as <-.
    assert (filled s c) as Hf by by apply (r_after s Hr t _ c Hp).
    rinv_core (singleflight.L64_delete c : pc).
    intros c' [= <-]. by apply (filled_keeps s).
  - (* L64_delete *)
    injection Hstep as <-.
    assert (filled s c) as Hf by by apply (r_after s Hr t _ c Hp).
    rinv_core (singleflight.L65_Unlock c : pc).
    + intros c' [= <-]. by apply (filled_keeps s).
    + intros mp' c'.
      destruct (singleflight.m (singleflight.g s)) as [mp|]; [|done].
      intros [= <-]. by rewrite lookup_delete_eq.
  - (* L65_Unlock *)
    injection Hstep as <-.
    assert (filled s c) as Hf by by apply (r_after s Hr t _ c Hp).
    rinv_core (singleflight.L67_return c : pc).
    intros c' [= <-]. by apply (filled_keeps s).
  - (* L67_return *)
    destruct (singleflight.heap s !! c) as [cl|] eqn:Hc; [|done].
    simpl in Hstep. injection Hstep as <-.
    rinv_core (singleflight.Returned (singleflight.val cl) (singleflight.err cl) : pc).
    intros v e [= <- <-].
    destruct (r_after s Hr t _ c Hp eq_refl) as (cl' & Hc' & Hprod).
    by simplify_eq.
  - (* Returned *)
    done.
Qed.

Lemma run_rinv sched (s : state) :
  ginv key s → rinv s → rinv (run sched s) ∧ ginv key (run sched s).
Proof.
  revert s. induction sched as [|t sched IH]; intros s Hg Hr; simpl; [done|].
  destruct (step t s) as [s'|] eqn:Hstep; simpl; [|by apply IH].
  apply IH; [by apply (step_ginv nil_val nil_err key fn s s' t)|].
  by apply (step_rinv s s' t).
Qed.

(** X17.  In every interleaving of [n] callers of [Do] for one key on a
    fresh [Group], whatever a caller returns is the result of one of the
    runs of [fn] made so far: no caller returns the zero values of a call
    that was never filled in, nor anything [fn] did not produce. *)
Theorem Do_returns_a_result_of_fn (n : nat) (sched : list nat) t v e :
  singleflight.pcs (run sched (singleflight.init n)) !! t =
    Some (singleflight.Returned v e) →
  ∃ j, (j < singleflight.execs
              (singleflight.log (run sched (singleflight.init n))))%nat ∧
       fn j = (v, e).
Proof.
  intros Ht.
  destruct (run_rinv sched (singleflight.init n) (ginv_init key n) (rinv_init n))
    as [Hr _].
  exact (r_ret _ Hr t v e Ht).
Qed.

(** X18.  In every interleaving, [fn] has run at most once for each caller
    that got past the map lookup without finding a call: the number of
    runs of [fn] plus the number of callers that may still run it never
    exceeds the number of callers. *)
Theorem Do_runs_fn_at_most_once_per_caller (n : nat) (sched : list nat) :
  (singleflight.execs (singleflight.log (run sched (singleflight.init n))) +
   count_may_run (singleflight.pcs (run sched (singleflight.init n))) ≤ n)%nat.
Proof.
  destruct (run_rinv sched (singleflight.init n) (ginv_init key n) (rinv_init n))
    as [Hr _].
  pose proof (r_runs _ Hr) as Hruns.
  rewrite (run_length nil_val nil_err key fn) in Hruns. simpl in Hruns.
  by rewrite length_replicate in Hruns.
Qed.

End singleflight_results.

(** ** The call deduplicator: a caller on its own *)

Section singleflight_alone.
Context {Val Err : Type} (nil_val : Val) (nil_err : Err).
Context (key : string) (fn : nat → Val * Err).

Abbreviation pc := (singleflight.pc Val Err).
Abbreviation call := (singleflight.call Val Err).
Abbreviation state := (singleflight.state Val Err).
Abbreviation step := (singleflight.Do_step nil_val nil_err key fn).
Abbreviation run := (singleflight.run nil_val nil_err key fn).

(** No call is in flight: every caller has yet to start or has returned. *)
Definition quiet (s : state) : Prop :=
  ∀ t p, singleflight.pcs s !! t = Some p →
         p = singleflight.L38_Lock ∨ ∃ v e, p = singleflight.Returned v e.

(** The mutex is free and the map has no call for the key. *)
Definition idle (s : state) : Prop :=
  singleflight.mu (singleflight.g s) = false ∧
  ∀ mp, singleflight.m (singleflight.g s) = Some mp → mp !! key = None.

Lemma run_step (s s1 : state) t sched :
  step t s = Some s1 → run (t :: sched) s = run sched s1.
Proof. intros Hstep. simpl. by rewrite Hstep. Qed.

Lemma insert_last (h : list call) (x y : call) :
  <[length h := x]> (h ++ [y]) = h ++ [x].
Proof. rewrite insert_app_r_alt by done. by rewrite Nat.sub_diag. Qed.

(** The state in which the caller [t] is at [p]. *)
Definition at_pc (mu : bool) (om : option (gmap string nat)) (h : list call)
  (ps : list pc) (lg : list singleflight.label) t (p : pc) : state :=
  singleflight.mkstate (singleflight.mkGroup mu om) h (<[t := p]> ps) lg.

Lemma step_at mu om h (ps : list pc) lg t p :
  (t < length ps)%nat →
  singleflight.pcs (at_pc mu om h ps lg t p) !! t = Some p.
Proof. intros Hlt. simpl. by apply list_lookup_insert_eq. Qed.

Ltac fire Hlt :=
  unfold singleflight.Do_step; rewrite (step_at _ _ _ _ _ _ _ Hlt);
  unfold at_pc, singleflight.set_pc, singleflight.set_mu, singleflight.set_m,
    singleflight.set_heap, singleflight.note; simpl;
  rewrite ?list_insert_insert_eq.

(** The thirteen statements of a caller that finds no call for the key. *)
Lemma alone_steps om h (ps : list pc) lg t :
  (t < length ps)%nat →
  (∀ mp, om = Some mp → mp !! key = None) →
  let k := singleflight.execs lg in
  let c := length h in
  let mp0 := default ∅ om in
  run (replicate 13 t) (at_pc false om h ps lg t singleflight.L38_Lock) =
    at_pc false (Some (delete key (<[key := c]> mp0)))
      (h ++ [singleflight.mkcall 0 (fn k).1 (fn k).2]) ps
      (singleflight.Delete key :: singleflight.Exec key ::
       singleflight.Lookup key :: lg)
      t (singleflight.Returned (fn k).1 (fn k).2).
Proof.
  intros Hlt Hm k c mp0.
  assert (mp0 !! key = None) as Hk0.
  { unfold mp0. destruct om as [mp|]; simpl; [by apply Hm | apply lookup_empty]. }
  assert (step t (at_pc false om h ps lg t singleflight.L38_Lock) =
          Some (at_pc true om h ps lg t singleflight.L41_init)) as H1.
  { fire Hlt. done. }
  assert (step t (at_pc true om h ps lg t singleflight.L41_init) =
          Some (at_pc true (Some mp0) h ps lg t singleflight.L46_lookup)) as H2.
  { fire Hlt. unfold mp0. destruct om; simpl; by rewrite ?list_insert_insert_eq. }
  assert (step t (at_pc true (Some mp0) h ps lg t singleflight.L46_lookup) =
          Some (at_pc true (Some mp0) h ps (singleflight.Lookup key :: lg) t
                  singleflight.L53_new)) as H3.
  { fire Hlt. rewrite Hk0. simpl. by rewrite ?list_insert_insert_eq. }
  set (new := singleflight.mkcall 0 nil_val nil_err).
  assert (step t (at_pc true (Some mp0) h ps (singleflight.Lookup key :: lg) t
                    singleflight.L53_new) =
          Some (at_pc true (Some mp0) (h ++ [new]) ps
                  (singleflight.Lookup key :: lg) t
                  (singleflight.L54_wg_Add c))) as H4.
  { fire Hlt. done. }
  assert (step t (at_pc true (Some mp0) (h ++ [new]) ps
                    (singleflight.Lookup key :: lg) t (singleflight.L54_wg_Add c)) =
          Some (at_pc true (Some mp0)
                  (h ++ [singleflight.mkcall 1 nil_val nil_err]) ps
                  (singleflight.Lookup key :: lg) t
                  (singleflight.L55_register c))) as H5.
  { fire Hlt. unfold c. rewrite list_lookup_middle by done. simpl.
    by rewrite ?list_insert_insert_eq, insert_last. }
  assert (step t (at_pc true (Some mp0)
                    (h ++ [singleflight.mkcall 1 nil_val nil_err]) ps
                    (singleflight.Lookup key :: lg) t (singleflight.L55_register c)) =
          Some (at_pc true (Some (<[key := c]> mp0))
                  (h ++ [singleflight.mkcall 1 nil_val nil_err]) ps
                  (singleflight.Lookup key :: lg) t
                  (singleflight.L56_Unlock c))) as H6.
  { fire Hlt. done. }
  assert (step t (at_pc true (Some (<[key := c]> mp0))
                    (h ++ [singleflight.mkcall 1 nil_val nil_err]) ps
                    (singleflight.Lookup key :: lg) t (singleflight.L56_Unlock c)) =
          Some (at_pc false (Some (<[key := c]> mp0))
                  (h ++ [singleflight.mkcall 1 nil_val nil_err]) ps
                  (singleflight.Lookup key :: lg) t
                  (singleflight.L59_fn c))) as H7.
  { fire Hlt. done. }
  assert (step t (at_pc false (Some (<[key := c]> mp0))
                    (h ++ [singleflight.mkcall 1 nil_val nil_err]) ps
                    (singleflight.Lookup key :: lg) t (singleflight.L59_fn c)) =
          Some (at_pc false (Some (<[key := c]> mp0))
                  (h ++ [singleflight.mkcall 1 (fn k).1 (fn k).2]) ps
                  (singleflight.Exec key :: singleflight.Lookup key :: lg) t
                  (singleflight.L60_wg_Done c))) as H8.
  { fire Hlt. unfold c. rewrite list_lookup_middle by done. simpl.
    fold k. destruct (fn k) as [v e]. simpl.
    by rewrite ?list_insert_insert_eq, insert_last. }
  assert (step t (at_pc false (Some (<[key := c]> mp0))
                    (h ++ [singleflight.mkcall 1 (fn k).1 (fn k).2]) ps
                    (singleflight.Exec key :: singleflight.Lookup key :: lg) t
                    (singleflight.L60_wg_Done c)) =
          Some (at_pc false (Some (<[key := c]> mp0))
                  (h ++ [singleflight.mkcall 0 (fn k).1 (fn k).2]) ps
                  (singleflight.Exec key :: singleflight.Lookup key :: lg) t
                  (singleflight.L63_Lock c))) as H9.
  { fire Hlt. unfold c. rewrite list_lookup_middle by done. simpl.
    by rewrite ?list_insert_insert_eq, insert_last. }
  assert (step t (at_pc false (Some (<[key := c]> mp0))
                    (h ++ [singleflight.mkcall 0 (fn k).1 (fn k).2]) ps
                    (singleflight.Exec key :: singleflight.Lookup key :: lg) t
                    (singleflight.L63_Lock c)) =
          Some (at_pc true (Some (<[key := c]> mp0))
                  (h ++ [singleflight.mkcall 0 (fn k).1 (fn k).2]) ps
                  (singleflight.Exec key :: singleflight.Lookup key :: lg) t
                  (singleflight.L64_delete c))) as H10.
  { fire Hlt. done. }
  assert (step t (at_pc true (Some (<[key := c]> mp0))
                    (h ++ [singleflight.mkcall 0 (fn k).1 (fn k).2]) ps
                    (singleflight.Exec key :: singleflight.Lookup key :: lg) t
                    (singleflight.L64_delete c)) =
          Some (at_pc true (Some (delete key (<[key := c]> mp0)))
                  (h ++ [singleflight.mkcall 0 (fn k).1 (fn k).2]) ps
                  (singleflight.Delete key :: singleflight.Exec key ::
                   singleflight.Lookup key :: lg) t
                  (singleflight.L65_Unlock c))) as H11.
  { fire Hlt. done. }
  assert (step t (at_pc true (Some (delete key (<[key := c]> mp0)))
                    (h ++ [singleflight.mkcall 0 (fn k).1 (fn k).2]) ps
                    (singleflight.Delete key :: singleflight.Exec key ::
                     singleflight.Lookup key :: lg) t
                    (singleflight.L65_Unlock c)) =
          Some (at_pc false (Some (delete key (<[key := c]> mp0)))
                  (h ++ [singleflight.mkcall 0 (fn k).1 (fn k).2]) ps
                  (singleflight.Delete key :: singleflight.Exec key ::
                   singleflight.Lookup key :: lg) t
                  (singleflight.L67_return c))) as H12.
  { fire Hlt. done. }
  assert (step t (at_pc false (Some (delete key (<[key := c]> mp0)))
                    (h ++ [singleflight.mkcall 0 (fn k).1 (fn k).2]) ps
                    (singleflight.Delete key :: singleflight.Exec key ::
                     singleflight.Lookup key :: lg) t
                    (singleflight.L67_return c)) =
          Some (at_pc false (Some (delete key (<[key := c]> mp0)))
                  (h ++ [singleflight.mkcall 0 (fn k).1 (fn k).2]) ps
                  (singleflight.Delete key :: singleflight.Exec key ::
                   singleflight.Lookup key :: lg) t
                  (singleflight.Returned (fn k).1 (fn k).2))) as H13.
  { fire Hlt. unfold c. rewrite list_lookup_middle by done. simpl.
    by rewrite ?list_insert_insert_eq. }
  change (replicate 13 t) with
    [t; t; t; t; t; t; t; t; t; t; t; t; t].
  rewrite (run_step _ _ _ _ H1), (run_step _ _ _ _ H2), (run_step _ _ _ _ H3),
    (run_step _ _ _ _ H4), (run_step _ _ _ _ H5), (run_step _ _ _ _ H6),
    (run_step _ _ _ _ H7), (run_step _ _ _ _ H8), (run_step _ _ _ _ H9),
    (run_step _ _ _ _ H10), (run_step _ _ _ _ H11), (run_step _ _ _ _ H12),
    (run_step _ _ _ _ H13).
  done.
Qed.

(** The statements at which the call of the caller is in the map. *)
Definition holds (p : pc) : bool :=
  match p with
  | singleflight.L56_Unlock _ | singleflight.L59_fn _
  | singleflight.L60_wg_Done _ | singleflight.L63_Lock _
  | singleflight.L64_delete _ => true
  | _ => false
  end.

(** A call is in the map only while its caller is between registering and
    deleting it. *)
Definition minv (s : state) : Prop :=
  ∀ mp c, singleflight.m (singleflight.g s) = Some mp → mp !! key = Some c →
          ∃ t p, singleflight.pcs s !! t = Some p ∧ holds p = true.

Lemma minv_init n : minv (singleflight.init n).
Proof. by intros mp c. Qed.

Lemma minv_move (s : state) t (p p' : pc) mp c :
  minv s → singleflight.pcs s !! t = Some p →
  singleflight.m (singleflight.g s) = Some mp → mp !! key = Some c →
  (holds p = true → holds p' = true) →
  ∃ t1 p1, <[t := p']> (singleflight.pcs s) !! t1 = Some p1 ∧ holds p1 = true.
Proof.
  intros Hinv Hp Hm Hk Hmono. destruct (Hinv mp c Hm Hk) as (t1 & p1 & Hp1 & Hh).
  destruct (decide (t1 = t)) as [->|Hne].
  - exists t, p'. split; [|apply Hmono; by simplify_eq].
    apply list_lookup_insert_eq. by apply lookup_lt_Some in Hp.
  - exists t1, p1. by rewrite list_lookup_insert_ne.
Qed.

Lemma step_minv (s s' : state) t : minv s → step t s = Some s' → minv s'.
Proof.
  intros Hinv Hstep. unfold singleflight.Do_step in Hstep.
  destruct (singleflight.pcs s !! t) as [p|] eqn:Hp; [|done]. simpl in Hstep.
  pose proof (lookup_lt_Some _ _ _ Hp) as Hlt.
  destruct p; simpl in Hstep.
  - destruct (singleflight.mu (singleflight.g s)); [done|].
    injection Hstep as <-. intros mp c0 Hm Hk. simpl in *.
    eapply minv_move; eauto.
  - injection Hstep as <-. intros mp c0.
    destruct (singleflight.m (singleflight.g s)) as [mp1|] eqn:Hm1; simpl.
    + intros Hm Hk. eapply minv_move; eauto.
    + intros [= <-]. by rewrite lookup_empty.
  - destruct (singleflight.m (singleflight.g s)) as [mp1|] eqn:Hm1; [|done].
    simpl in Hstep. injection Hstep as <-. intros mp c0.
    destruct (mp1 !! key) eqn:Hk1; simpl; intros Hm Hk;
      (eapply minv_move; eauto).
  - injection Hstep as <-. intros mp c0 Hm Hk. simpl in *.
    eapply minv_move; eauto.
  - destruct (singleflight.heap s !! c) as [cl|]; [|done]. simpl in Hstep.
    destruct (singleflight.wg cl =? 0)%nat; [|done].
    injection Hstep as <-. intros mp c0 Hm Hk. simpl in *.
    eapply minv_move; eauto.
  - destruct (singleflight.heap s !! c) as [cl|]; [|done]. simpl in Hstep.
    injection Hstep as <-. intros mp c0 Hm Hk. simpl in *.
    eapply minv_move; eauto.
  - injection Hstep as <-. intros mp c0 Hm Hk. simpl in *.
    eapply minv_move; eauto.
  - destruct (singleflight.heap s !! c) as [cl|]; [|done]. simpl in Hstep.
    injection Hstep as <-. intros mp c0 Hm Hk. simpl in *.
    eapply minv_move; eauto.
  - destruct (singleflight.m (singleflight.g s)) as [mp1|] eqn:Hm1; [|done].
    simpl in Hstep. injection Hstep as <-. intros mp c0 _ _. simpl.
    exists t, (singleflight.L56_Unlock c). split; [|done].
    by apply list_lookup_insert_eq.
  - injection Hstep as <-. intros mp c0 Hm Hk. simpl in *.
    eapply minv_move; eauto.
  - destruct (singleflight.heap s !! c) as [cl|]; [|done]. simpl in Hstep.
    destruct (fn _) as [v e]. injection Hstep as <-.
    intros mp c0 Hm Hk. simpl in *. eapply minv_move; eauto.
  - destruct (singleflight.heap s !! c) as [cl|]; [|done]. simpl in Hstep.
    destruct (singleflight.wg cl); [done|]. injection Hstep as <-.
    intros mp c0 Hm Hk. simpl in *. eapply minv_move; eauto.
  - destruct (singleflight.mu (singleflight.g s)); [done|].
    injection Hstep as <-. intros mp c0 Hm Hk. simpl in *.
    eapply minv_move; eauto.
  - injection Hstep as <-. intros mp c0. simpl.
    destruct (singleflight.m (singleflight.g s)) as [mp1|]; [|done]. simpl.
    intros [= <-]. by rewrite lookup_delete_eq.
  - injection Hstep as <-. intros mp c0 Hm Hk. simpl in *.
    eapply minv_move; eauto.
  - destruct (singleflight.heap s !! c) as [cl|]; [|done]. simpl in Hstep.
    injection Hstep as <-. intros mp c0 Hm Hk. simpl in *.
    eapply minv_move; eauto.
  - done.
Qed.

Lemma run_minv sched (s : state) : minv s → minv (run sched s).
Proof.
  revert s. induction sched as [|t sched IH]; intros s Hs; simpl; [done|].
  apply IH. destruct (step t s) as [s'|] eqn:Hstep; simpl; [|done].
  by apply (step_minv s s' t).
Qed.

Lemma count_locked_quiet (ps : list pc) :
  (∀ t p, ps !! t = Some p →
          p = singleflight.L38_Lock ∨ ∃ v e, p = singleflight.Returned v e) →
  count_locked ps = 0%nat.
Proof.
  induction ps as [|p ps IH]; intros Hq; simpl; [done|].
  rewrite IH by (intros t p' Hp'; by apply (Hq (S t))).
  by destruct (Hq 0%nat p eq_refl) as [->|(v & e & ->)].
Qed.

Lemma quiet_idle (s : state) : ginv key s → minv s → quiet s → idle s.
Proof.
  intros Hg Hm Hq. split.
  - pose proof (g_mu key s Hg) as Hmu. rewrite count_locked_quiet in Hmu by done.
    by destruct (singleflight.mu (singleflight.g s)).
  - intros mp Hmp. destruct (mp !! key) as [c|] eqn:Hk; [|done].
    destruct (Hm mp c Hmp Hk) as (t & p & Hp & Hh).
    by destruct (Hq t p Hp) as [->|(v & e & ->)].
Qed.

Lemma alone (s : state) t :
  idle s → singleflight.pcs s !! t = Some singleflight.L38_Lock →
  singleflight.pcs (run (replicate 13 t) s) =
    <[t := singleflight.Returned (fn (singleflight.execs (singleflight.log s))).1
             (fn (singleflight.execs (singleflight.log s))).2]>
      (singleflight.pcs s) ∧
  singleflight.execs (singleflight.log (run (replicate 13 t) s)) =
    S (singleflight.execs (singleflight.log s)).
Proof.
  intros [Hmu Hm] Hp. pose proof (lookup_lt_Some _ _ _ Hp) as Hlt.
  assert (s = at_pc false (singleflight.m (singleflight.g s))
                (singleflight.heap s) (singleflight.pcs s)
                (singleflight.log s) t singleflight.L38_Lock) as Hs.
  { unfold at_pc. rewrite list_insert_id by done.
    destruct s as [[mu om] h ps lg]. cbn in Hmu |- *. by subst mu. }
  pose proof (alone_steps (singleflight.m (singleflight.g s))
                (singleflight.heap s) (singleflight.pcs s)
                (singleflight.log s) t Hlt Hm) as Hrun.
  cbv zeta in Hrun. rewrite <- Hs in Hrun. rewrite Hrun. unfold at_pc.
  cbn [singleflight.pcs singleflight.log singleflight.execs]. done.
Qed.

(** X29.  Nothing is remembered between calls: in every state reached by
    any interleaving of [n] callers of [Do] for one key in which no call is
    in flight, every caller having returned or not yet started, a caller
    that then runs on its own takes its thirteen steps without blocking,
    runs [fn] once, and returns the result of that run, not the result of
    an earlier one; afterwards no call is in flight again. *)
Theorem Do_alone_runs_fn (n : nat) (sched : list nat) t :
  quiet (run sched (singleflight.init n)) →
  singleflight.pcs (run sched (singleflight.init n)) !! t =
    Some singleflight.L38_Lock →
  ∃ v e,
    fn (singleflight.execs (singleflight.log (run sched (singleflight.init n))))
      = (v, e) ∧
    singleflight.pcs (run (sched ++ replicate 13 t) (singleflight.init n)) =
      <[t := singleflight.Returned v e]>
        (singleflight.pcs (run sched (singleflight.init n))) ∧
    singleflight.execs
      (singleflight.log (run (sched ++ replicate 13 t) (singleflight.init n))) =
      S (singleflight.execs (singleflight.log (run sched (singleflight.init n)))) ∧
    quiet (run (sched ++ replicate 13 t) (singleflight.init n)).
Proof.
  intros Hq Hp. rewrite (run_app nil_val nil_err key fn).
  assert (idle (run sched (singleflight.init n))) as Hidle.
  { apply quiet_idle; [apply run_ginv, ginv_init | apply run_minv, minv_init | done]. }
  generalize dependent (run sched (singleflight.init n)). intros s Hq Hp Hidle.
  destruct (alone s t Hidle Hp) as [Hpcs Hex].
  destruct (fn (singleflight.execs (singleflight.log s))) as [v e] eqn:Hfn.
  exists v, e. split_and!; [done..|].
  intros t1 p1. rewrite Hpcs. intros Hp1.
  apply list_lookup_insert_Some in Hp1 as [(_ & <- & _)|[_ Hp1]].
  - right. eauto.
  - by apply (Hq t1).
Qed.

End singleflight_alone.

(** ** The hash ring: how peers are added *)

Section ring_order.

Abbreviation Map := consistenthash.Map.

Lemma sort_Ints_Permutation (l1 l2 : list Z) :
  l1 ≡ₚ l2 → consistenthash.sort_Ints l1 = consistenthash.sort_Ints l2.
Proof.
  intros Hp. unfold consistenthash.sort_Ints.
  apply (StronglySorted_unique Z.le).
  - apply StronglySorted_merge_sort; apply _.
  - apply StronglySorted_merge_sort; apply _.
  - by rewrite !merge_sort_Permutation.
Qed.

(** Two rings with the same hash function, replica count and map from nodes
    to peers. *)
Definition agree (m1 m2 : Map) : Prop :=
  consistenthash.hash m1 = consistenthash.hash m2 ∧
  consistenthash.replicas m1 = consistenthash.replicas m2 ∧
  consistenthash.hashMap m1 = consistenthash.hashMap m2.

Lemma agree_foldl_add_replica p (l : list Z) (m1 m2 : Map) :
  agree m1 m2 →
  agree (foldl (consistenthash.add_replica p) m1 l)
        (foldl (consistenthash.add_replica p) m2 l).
Proof.
  revert m1 m2. induction l as [|i l IH]; intros m1 m2 Hag; simpl; [done|].
  apply IH. destruct Hag as (Hh & Hr & Hm).
  unfold agree, consistenthash.add_replica. simpl. by rewrite Hh, Hr, Hm.
Qed.

Lemma agree_foldl_add_peer (ps : list string) (m1 m2 : Map) :
  agree m1 m2 →
  agree (foldl consistenthash.add_peer m1 ps)
        (foldl consistenthash.add_peer m2 ps).
Proof.
  revert m1 m2. induction ps as [|p ps IH]; intros m1 m2 Hag; simpl; [done|].
  apply IH. unfold consistenthash.add_peer.
  destruct Hag as (Hh & Hr & Hm). rewrite Hr.
  by apply agree_foldl_add_replica.
Qed.

Lemma NoDup_bind_unique {A B : Type} (f : A → list B) (l : list A) x1 x2 y :
  NoDup (l ≫= f) → x1 ∈ l → x2 ∈ l → y ∈ f x1 → y ∈ f x2 → x1 = x2.
Proof.
  induction l as [|a l IH]; [by intros _ ?%elem_of_nil|].
  rewrite bind_cons. intros (Ha & Hdis & Hl)%NoDup_app Hx1 Hx2 Hy1 Hy2.
  apply elem_of_cons in Hx1 as [->|Hx1]; apply elem_of_cons in Hx2 as [->|Hx2].
  - done.
  - destruct (Hdis y Hy1). apply list_elem_of_bind. eauto.
  - destruct (Hdis y Hy2). apply list_elem_of_bind. eauto.
  - by apply IH.
Qed.

(** X27.  Adding peers in two calls of [Add] makes the ring that adding
    them in one call makes. *)
Theorem Add_in_two_calls (m : Map) (ps qs : list string) :
  consistenthash.Add (consistenthash.Add m ps) qs =
  consistenthash.Add m (ps ++ qs).
Proof.
  unfold consistenthash.Add at 1 3. rewrite foldl_app.
  set (A := foldl consistenthash.add_peer m ps).
  set (m1 := consistenthash.Add m ps).
  assert (agree m1 A) as Hag by done.
  pose proof (agree_foldl_add_peer qs m1 A Hag) as (Hh & Hr & Hm).
  destruct (foldl_add_peer_nodes qs m1) as (_ & _ & Hk1 & _).
  destruct (foldl_add_peer_nodes qs A) as (_ & _ & Hk2 & _).
  simpl in Hk1, Hk2.
  assert (nodes_of m1 = nodes_of A) as Hn by done.
  rewrite Hh, Hr, Hm, Hk1, Hk2, Hn. f_equal.
  apply sort_Ints_Permutation. unfold m1, consistenthash.Add. simpl.
  fold A. unfold consistenthash.sort_Ints. by rewrite merge_sort_Permutation.
Qed.

(** X28.  The order in which one call of [Add] is given its peers does not
    matter, as long as no two of the virtual nodes of these peers have the
    same hash: the ring made is the same. *)
Theorem Add_order_irrelevant (m : Map) (ps qs : list string) :
  ps ≡ₚ qs → NoDup (ps ≫= nodes_of m) →
  consistenthash.Add m ps = consistenthash.Add m qs.
Proof.
  intros Hperm Hnd. unfold consistenthash.Add.
  destruct (foldl_add_peer_nodes ps m) as (Hh1 & Hr1 & Hk1 & Hm1).
  destruct (foldl_add_peer_nodes qs m) as (Hh2 & Hr2 & Hk2 & Hm2).
  simpl in *.
  assert (ps ≫= nodes_of m ≡ₚ qs ≫= nodes_of m) as HN by by rewrite Hperm.
  rewrite Hh1, Hh2, Hr1, Hr2, Hk1, Hk2. f_equal.
  - apply sort_Ints_Permutation. by rewrite HN.
  - apply map_eq. intros y. destruct (Hm1 y) as [Hin1 Hout1].
    destruct (Hm2 y) as [Hin2 Hout2].
    destruct (decide (y ∈ ps ≫= nodes_of m)) as [Hy|Hy].
    + destruct (Hin1 Hy) as (p & Hp & Hyp & ->).
      destruct (Hin2 ltac:(by rewrite <- HN)) as (q & Hq & Hyq & ->).
      f_equal. apply (NoDup_bind_unique (nodes_of m) ps p q y); try done.
      by rewrite Hperm.
    + rewrite Hout1 by done. rewrite Hout2; [done|]. by rewrite <- HN.
Qed.

End ring_order.

(** ** The LRU store with a negative capacity *)

Section lru_negative.
Context {V : Type} `{lru.Value V} {W : Type}.

Abbreviation Cache := (lru.Cache V W).

(** X24.  A store made with a negative capacity cannot take an entry: the
    eviction loop of [Add] removes every entry, the new one included, and
    then goes on without end, [RemoveOldest] doing nothing on the empty
    list while the guard [maxBytes < nbytes] stays true.  However many
    iterations the loop is given, it has not exited. *)
Theorem Add_negative_capacity_never_returns (c : Cache) k v w :
  reachable c → lru.maxBytes c < 0 →
  total (lru.ll c) + (lru.len k + lru.Len v) ≤ max_int64 →
  lru.Add c k v w = None ∧
  ∀ fuel, lru.evict fuel (lru.store c k v) w = None.
Proof.
  intros Hr Hneg Hfit. pose proof (reachable_inv c Hr) as Hinv.
  assert (∀ fuel, lru.evict fuel (lru.store c k v) w = None) as Hloop;
    [|split; [apply Hloop | done]].
  intros fuel.
  destruct (lru.evict fuel (lru.store c k v) w) as [[c' w']|] eqn:Hev; [|done].
  exfalso.
  pose proof (inv_store c k v Hinv) as Hinv1.
  pose proof (inv_evict _ _ _ _ _ Hinv1 Hev) as [_ Hcnt].
  pose proof (total_store_le c k v (proj1 Hinv)) as Hle.
  apply evict_spec in Hev as (Hover & Hmax & _ & ev & Hll & _).
  assert (total (lru.ll c') ≤ max_int64) as Hfit'.
  { pose proof (total_nonneg ev). rewrite Hll, total_app in Hle. lia. }
  apply counted_exact in Hcnt; [|done].
  pose proof (total_nonneg (lru.ll c')).
  assert (lru.maxBytes (lru.store c k v) = lru.maxBytes c) as Hst
    by (unfold lru.store; by destruct (lru.cache c !! k)).
  unfold lru.over in Hover. rewrite Hmax, Hst in Hover.
  apply andb_false_iff in Hover as [Hz|Hlt].
  - apply negb_false_iff, Z.eqb_eq in Hz. lia.
  - apply Z.ltb_ge in Hlt. lia.
Qed.

End lru_negative.

(** ** The registry of groups and the HTTP pool *)

Section http_facts.

(** The string has no ["/"] in it. *)
Fixpoint slash_free (s : string) : Prop :=
  match s with
  | EmptyString => True
  | String a s' => String a EmptyString ≠ "/" ∧ slash_free s'
  end.

Lemma HasPrefix_app (p rest : string) : http.HasPrefix (p +:+ rest) p = true.
Proof.
  unfold http.HasPrefix. induction p as [|a p IH]; simpl.
  - by destruct rest.
  - by destruct (Ascii.ascii_dec a a).
Qed.

Lemma HasPrefix_inv (s p : string) :
  http.HasPrefix s p = true → ∃ rest, s = p +:+ rest.
Proof.
  unfold http.HasPrefix. revert s. induction p as [|a p IH]; intros s Hp.
  - by exists s.
  - destruct s as [|b s]; simpl in Hp; [done|].
    destruct (Ascii.ascii_dec a b) as [->|]; [|done].
    destruct (IH s Hp) as [rest ->]. by exists rest.
Qed.

Lemma slice_from_app (p rest : string) :
  http.slice_from (String.length p) (p +:+ rest) = Some rest.
Proof. induction p as [|a p IH]; simpl; [by destruct rest | done]. Qed.

Lemma cut_slash_app (x y : string) :
  slash_free x → http.cut_slash (x +:+ "/" +:+ y) = Some (x, y).
Proof.
  induction x as [|a x IH]; simpl.
  - done.
  - intros [Ha Hx]. rewrite decide_False by done. by rewrite IH.
Qed.

Lemma cut_slash_Some (s x y : string) :
  http.cut_slash s = Some (x, y) → s = x +:+ "/" +:+ y ∧ slash_free x.
Proof.
  revert x. induction s as [|a s IH]; intros x; simpl; [done|].
  case_decide as Ha.
  - intros [= <- <-]. by injection Ha as ->.
  - destruct (http.cut_slash s) as [[x' y']|]; [|done].
    intros [= <- <-]. destruct (IH x' eq_refl) as [-> Hx]. done.
Qed.

Lemma cut_slash_None (s : string) : http.cut_slash s = None → slash_free s.
Proof.
  induction s as [|a s IH]; simpl; [done|].
  case_decide as Ha; [done|].
  destruct (http.cut_slash s) as [[x' y']|]; [done|]. auto.
Qed.

(** The line that [ServeHTTP] logs for a request. *)
Definition access_line (p : http.HTTPPool) (r : http.Request) : http.effect :=
  http.Log p (http.Method r +:+ " " +:+ http.Path r).

(** How [ServeHTTP] answers with the result of the group's lookup. *)
Definition answer (r : geecache.ByteView + geecache.error) : list http.effect :=
  match r with
  | inl view =>
      [http.HeaderSet "Content-Type" "application/octet-stream";
       http.Write (geecache.b view)]
  | inr err => [http.Error (geecache.Error err) 500]
  end.

(** X19.  A request for [basePath/group/key], for a registered group whose
    name has no slash, is answered by that group's [Get] of the key, the
    key being everything after the first slash that follows the group
    name, slashes included: the access is logged, the lookup runs, and the
    response is the value's bytes as an octet stream, or the error's text
    with status 500.  Only the group asked changes. *)
Theorem ServeHTTP_serves_group (p : http.HTTPPool) mth gn key s g grp :
  slash_free gn →
  registry.GetGroup gn s = Some g →
  registry.objs s !! g = Some grp →
  let r := http.mkRequest mth (http.basePath p +:+ gn +:+ "/" +:+ key) in
  http.ServeHTTP p r s =
    match geecache.Get key grp with
    | None => None
    | Some (res, grp', tr) =>
        Some (http.Returned,
              registry.mkstate (<[g := grp']> (registry.objs s)) (registry.groups s),
              access_line p r :: (http.GroupGet <$> tr) ++ answer res)
    end.
Proof.
  intros Hgn Hg Hgrp r. unfold http.ServeHTTP. simpl.
  rewrite HasPrefix_app, slice_from_app. simpl.
  unfold http.SplitN_slash_2. rewrite cut_slash_app by done.
  rewrite Hg. unfold registry.Get. rewrite Hgrp. simpl.
  destruct (geecache.Get key grp) as [[[[view|err] grp'] tr]|]; done.
Qed.

(** X20.  Every answer of [ServeHTTP] is one of four.  A path that does not
    start with the base path makes it panic, with nothing logged or
    written.  Otherwise the access is logged, and: a rest of the path
    without a slash is answered with status 400; a group name that is not
    registered with status 404, naming the group; and a registered group
    with the result of its lookup.  In the first three cases the registry
    and its groups are as they were, and the slicing of the path never
    panics. *)
Theorem ServeHTTP_answers (p : http.HTTPPool) r s out s' effs :
  http.ServeHTTP p r s = Some (out, s', effs) →
  (out = http.Panicked ("HTTPPool serving unexpected path: " +:+ http.Path r) ∧
   (∀ rest, http.Path r ≠ http.basePath p +:+ rest) ∧ s' = s ∧ effs = []) ∨
  (out = http.Returned ∧
   ∃ rest, http.Path r = http.basePath p +:+ rest ∧ slash_free rest ∧ s' = s ∧
           effs = [access_line p r; http.Error "bad request" 400]) ∨
  (out = http.Returned ∧
   ∃ gn key, http.Path r = http.basePath p +:+ gn +:+ "/" +:+ key ∧
             slash_free gn ∧ registry.GetGroup gn s = None ∧ s' = s ∧
             effs = [access_line p r;
                     http.Error ("no such group: " +:+ gn) 404]) ∨
  (out = http.Returned ∧
   ∃ gn key g grp res grp' tr,
     http.Path r = http.basePath p +:+ gn +:+ "/" +:+ key ∧
     slash_free gn ∧ registry.GetGroup gn s = Some g ∧
     registry.objs s !! g = Some grp ∧
     geecache.Get key grp = Some (res, grp', tr) ∧
     s' = registry.mkstate (<[g := grp']> (registry.objs s)) (registry.groups s) ∧
     effs = access_line p r :: (http.GroupGet <$> tr) ++ answer res).
Proof.
  unfold http.ServeHTTP.
  destruct (http.HasPrefix (http.Path r) (http.basePath p)) eqn:Hpre; simpl.
  - apply HasPrefix_inv in Hpre as [rest Hpath]. rewrite Hpath at 1.
    rewrite slice_from_app. unfold http.SplitN_slash_2.
    destruct (http.cut_slash rest) as [[gn key]|] eqn:Hcut.
    + apply cut_slash_Some in Hcut as [-> Hgn].
      destruct (registry.GetGroup gn s) as [g|] eqn:Hg.
      * unfold registry.Get.
        destruct (registry.objs s !! g) as [grp|] eqn:Hgrp; [|done]. simpl.
        destruct (geecache.Get key grp) as [[[res grp'] tr]|] eqn:Hget; [|done].
        simpl. intros Hres. right. right. right.
        assert (out = http.Returned ∧
                s' = registry.mkstate (<[g := grp']> (registry.objs s))
                       (registry.groups s) ∧
                effs = access_line p r :: (http.GroupGet <$> tr) ++ answer res)
          as (-> & -> & ->) by (destruct res; by injection Hres as <- <- <-).
        split; [done|]. by exists gn, key, g, grp, res, grp', tr.
      * intros [= <- <- <-]. right. right. left. split; [done|].
        by exists gn, key.
    + apply cut_slash_None in Hcut.
      intros [= <- <- <-]. right. left. split; [done|]. by exists rest.
  - intros [= <- <- <-]. left. split_and!; [done| |done..].
    intros rest Hpath. rewrite Hpath, HasPrefix_app in Hpre. done.
Qed.

(** *** The registry *)

Lemma add_cacheBytes (c c' : geecache.cache) key value :
  geecache.add c key value = Some c' →
  geecache.cacheBytes c' = geecache.cacheBytes c.
Proof.
  unfold geecache.add. destruct (lru.Add _ key value tt) as [[l' []]|]; [|done].
  by intros [= <-].
Qed.

Lemma add_cache_ok (c c' : geecache.cache) key value :
  cache_ok c → geecache.add c key value = Some c' → cache_ok c'.
Proof.
  intros Hc. destruct (lru_of_ok c Hc) as (Hr & Hmax & _).
  unfold geecache.add. fold (lru_of c).
  destruct (lru.Add (lru_of c) key value tt) as [[l' []]|] eqn:Hadd; [|done].
  intros [= <-]. simpl. split.
  - by apply (reachable_Add (lru_of c) key value tt l' tt).
  - apply Add_spec in Hadd as (_ & Hmax' & _). by rewrite Hmax'.
Qed.

Lemma get_cacheBytes (c : geecache.cache) key :
  geecache.cacheBytes (geecache.get c key).1 = geecache.cacheBytes c.
Proof.
  unfold geecache.get. destruct c as [[l|] cb]; simpl; [|done].
  by destruct (lru.Get l key).
Qed.

Lemma get_cache_ok (c : geecache.cache) key :
  cache_ok c → cache_ok (geecache.get c key).1.
Proof.
  unfold cache_ok, geecache.get. destruct c as [[l|] cb]; simpl; [|done].
  intros [Hr Hmax]. pose proof (reachable_Get l key Hr) as Hr'.
  unfold lru.Get in *. by destruct (lru.cache l !! key).
Qed.

(** A lookup leaves the name, the loader and the capacity of a group as
    they are. *)
Lemma Get_keeps (g g' : geecache.Group) key r tr :
  geecache.Get key g = Some (r, g', tr) →
  geecache.name g' = geecache.name g ∧
  geecache.getter g' = geecache.getter g ∧
  geecache.cacheBytes (geecache.mainCache g')
    = geecache.cacheBytes (geecache.mainCache g) ∧
  (cache_ok (geecache.mainCache g) → cache_ok (geecache.mainCache g')).
Proof.
  unfold geecache.Get. case_decide as Hkey; [by intros [= <- <- <-]|].
  unfold mbind, geecache.M_bind, geecache.mainCache_get.
  pose proof (get_cache_ok (geecache.mainCache g) key) as Hok1.
  pose proof (get_cacheBytes (geecache.mainCache g) key) as Hcb1.
  destruct (geecache.get (geecache.mainCache g) key) as [c1 [v|]]; simpl in *.
  - by intros [= <- <- <-].
  - unfold geecache.load, geecache.getLocally, mbind, geecache.M_bind,
      geecache.getter_Get. simpl.
    destruct (geecache.getter g key) as [bs|e]; simpl.
    + unfold geecache.populateCache. simpl.
      destruct (geecache.add c1 key _) as [c2|] eqn:Hadd; [|done]. simpl.
      intros [= <- <- <-]. simpl. split_and!; [done|done|..].
      * by rewrite (add_cacheBytes c1 c2 key _ Hadd).
      * intros Hok. by apply (add_cache_ok c1 c2 key _ (Hok1 Hok) Hadd).
    + by intros [= <- <- <-].
Qed.

(** With a capacity that is not negative, a lookup returns. *)
Lemma Get_returns (g : geecache.Group) key :
  cache_ok (geecache.mainCache g) →
  0 ≤ geecache.cacheBytes (geecache.mainCache g) →
  ∃ r g' tr, geecache.Get key g = Some (r, g', tr).
Proof.
  intros Hok Hcb. destruct (decide (key = "")) as [->|Hkey]; [by eauto|].
  destruct (cached g key) as [v|] eqn:Hc.
  - unfold geecache.Get. rewrite decide_False by done.
    unfold mbind, geecache.M_bind, geecache.mainCache_get.
    unfold cached in Hc.
    destruct (geecache.get (geecache.mainCache g) key) as [c1 r0].
    simpl in Hc. subst r0. simpl. eauto.
  - rewrite Get_miss_eq by done.
    destruct (geecache.getter g key) as [bs|e]; [|by eauto]. simpl.
    destruct (add_returns (geecache.mainCache g) key
                (geecache.mkByteView (geecache.cloneBytes bs)) Hok Hcb)
      as (c' & -> & _).
    eauto.
Qed.

(** Every name of the registry leads to a group of that name, and the
    caches of all groups are stores made by [add]. *)
Definition registry_ok (s : registry.state) : Prop :=
  (∀ name g, registry.groups s !! name = Some g →
     ∃ grp, registry.objs s !! g = Some grp ∧ geecache.name grp = name) ∧
  Forall (λ grp, cache_ok (geecache.mainCache grp)) (registry.objs s).

(** The capacities of all groups are not negative. *)
Definition capacities_ok (s : registry.state) : Prop :=
  Forall (λ grp, 0 ≤ geecache.cacheBytes (geecache.mainCache grp))
    (registry.objs s).

(** The states of the registry: the empty one, and what [NewGroup],
    a lookup in a group and [ServeHTTP] make of a state. *)
Inductive registry_reachable : registry.state → Prop :=
  | reachable_empty : registry_reachable registry.empty
  | reachable_NewGroup s name cacheBytes getter g s' :
      registry_reachable s →
      registry.NewGroup name cacheBytes getter s = registry.Ok (g, s') →
      registry_reachable s'
  | reachable_group_Get s g key r s' tr :
      registry_reachable s →
      registry.Get g key s = Some (r, s', tr) →
      registry_reachable s'
  | reachable_ServeHTTP s p r out s' effs :
      registry_reachable s →
      http.ServeHTTP p r s = Some (out, s', effs) →
      registry_reachable s'.

Lemma registry_Get_ok (s s' : registry.state) g key r tr :
  registry_ok s → registry.Get g key s = Some (r, s', tr) → registry_ok s'.
Proof.
  intros [Hnames Hcaches]. unfold registry.Get.
  destruct (registry.objs s !! g) as [grp|] eqn:Hgrp; [|done]. simpl.
  destruct (geecache.Get key grp) as [[[r0 grp'] tr0]|] eqn:Hget; [|done].
  simpl. intros [= <- <- <-].
  destruct (Get_keeps grp grp' key r0 tr0 Hget) as (Hname & _ & _ & Hok).
  split; simpl.
  - intros name g0 Hg0. destruct (Hnames name g0 Hg0) as (grp0 & Hgrp0 & Hn0).
    destruct (decide (g0 = g)) as [->|Hne].
    + exists grp'. rewrite list_lookup_insert_eq by by apply lookup_lt_Some in Hgrp.
      split; [done|]. by simplify_eq.
    + exists grp0. by rewrite list_lookup_insert_ne.
  - apply Forall_insert; [done|]. apply Hok.
    by apply (Forall_lookup_1 _ _ _ _ Hcaches Hgrp).
Qed.

Lemma ServeHTTP_state (p : http.HTTPPool) r (s s' : registry.state) out effs :
  http.ServeHTTP p r s = Some (out, s', effs) →
  s' = s ∨ ∃ g key res tr, registry.Get g key s = Some (res, s', tr).
Proof.
  unfold http.ServeHTTP.
  destruct (negb _); [by intros [= <- <- <-]; left|].
  destruct (http.slice_from _ _) as [rest|]; [|by intros [= <- <- <-]; left].
  destruct (http.SplitN_slash_2 rest) as [|gn [|key [|]]];
    try (by intros [= <- <- <-]; left).
  destruct (registry.GetGroup gn s) as [g|]; [|by intros [= <- <- <-]; left].
  destruct (registry.Get g key s) as [[[[view|err] s1] tr]|] eqn:Hget; [..|done].
  - intros [= <- <- <-]. right. eauto.
  - intros [= <- <- <-]. right. eauto.
Qed.

Lemma registry_reachable_ok (s : registry.state) :
  registry_reachable s → registry_ok s.
Proof.
  induction 1 as [|s name cb getter g s' _ IH Hnew|s g key r s' tr _ IH Hget
                  |s p r out s' effs _ IH Hserve].
  - split; [|by constructor]. intros name g. simpl. by rewrite lookup_empty.
  - destruct IH as [Hnames Hcaches]. unfold registry.NewGroup in Hnew.
    destruct getter as [f|]; [|done]. injection Hnew as <- <-. split; simpl.
    + intros name0 g0. destruct (decide (name0 = name)) as [->|Hne].
      * rewrite lookup_insert_eq. intros [= <-].
        eexists. split; [by apply list_lookup_middle | done].
      * rewrite lookup_insert_ne by done. intros Hg0.
        destruct (Hnames name0 g0 Hg0) as (grp0 & Hgrp0 & Hn0).
        exists grp0. split; [|done]. by apply lookup_app_l_Some.
    + apply Forall_app. split; [done|]. by repeat constructor.
  - by apply (registry_Get_ok s s' g key r tr).
  - apply ServeHTTP_state in Hserve as [->|(g & key & res & tr & Hget)]; [done|].
    by apply (registry_Get_ok s s' g key res tr).
Qed.

(** X21.  In every state of the registry, a name that [GetGroup] finds
    leads to a live group that carries this name: groups are found under
    the name they were made with, and a lookup in a group never renames
    it. *)
Theorem GetGroup_finds_named_group (s : registry.state) name g :
  registry_reachable s → registry.GetGroup name s = Some g →
  ∃ grp, registry.objs s !! g = Some grp ∧ geecache.name grp = name.
Proof.
  intros Hs Hg. destruct (registry_reachable_ok s Hs) as [Hnames _].
  by apply Hnames.
Qed.

(** X22.  In every state of the registry in which no group has a negative
    capacity, [ServeHTTP] returns or panics, whatever the request: it does
    not hang.  It panics exactly for a path that does not start with the
    base path, and it leaves the capacities as they are. *)
Theorem ServeHTTP_returns (p : http.HTTPPool) r (s : registry.state) :
  registry_reachable s → capacities_ok s →
  ∃ out s' effs,
    http.ServeHTTP p r s = Some (out, s', effs) ∧
    capacities_ok s' ∧
    (out = http.Returned ↔ ∃ rest, http.Path r = http.basePath p +:+ rest).
Proof.
  intros Hs Hcap. destruct (registry_reachable_ok s Hs) as [Hnames Hcaches].
  unfold http.ServeHTTP.
  destruct (http.HasPrefix (http.Path r) (http.basePath p)) eqn:Hpre; simpl.
  - destruct (HasPrefix_inv _ _ Hpre) as [rest Hpath].
    assert (http.slice_from (String.length (http.basePath p)) (http.Path r)
            = Some rest) as -> by (rewrite Hpath; apply slice_from_app).
    assert (∀ out : http.outcome,
              out = http.Returned →
              out = http.Returned ↔
              ∃ rest, http.Path r = http.basePath p +:+ rest) as Hret
      by (intros out ->; split; [by exists rest | done]).
    destruct (http.SplitN_slash_2 rest) as [|gn [|key [|]]];
      try (by eexists _, _, _; split_and!; [done|done|apply Hret]).
    destruct (registry.GetGroup gn s) as [g|] eqn:Hg;
      [|by eexists _, _, _; split_and!; [done|done|apply Hret]].
    destruct (Hnames gn g Hg) as (grp & Hgrp & _).
    pose proof (Forall_lookup_1 _ _ _ _ Hcaches Hgrp) as Hok.
    pose proof (Forall_lookup_1 _ _ _ _ Hcap Hgrp) as Hcb. simpl in Hok, Hcb.
    destruct (Get_returns grp key Hok Hcb) as (res & grp' & tr & Hget).
    destruct (Get_keeps grp grp' key res tr Hget) as (_ & _ & Hcb' & _).
    unfold registry.Get. rewrite Hgrp. simpl. rewrite Hget. simpl.
    assert (capacities_ok
              (registry.mkstate (<[g := grp']> (registry.objs s))
                 (registry.groups s))) as Hcap'.
    { unfold capacities_ok. simpl. apply Forall_insert; [done|]. lia. }
    destruct res as [view|err]; eexists _, _, _; split_and!; try done;
      by apply Hret.
  - eexists _, _, _. split_and!; [done|done|]. split; [done|].
    intros [rest Hpath]. rewrite Hpath, HasPrefix_app in Hpre. done.
Qed.

(** X23.  A group made by [NewGroup] is served over HTTP at once, from an
    empty cache and whatever was registered under its name before: the
    first request for a key that is not empty reads the cache, calls the
    loader, and answers with the loader's bytes, which it has put into the
    cache, or with status 500 and the loader's error as "getter failed:
    ...".  The groups made earlier, the one that had the name included, are
    as they were. *)
Theorem NewGroup_then_ServeHTTP (s : registry.state) name cb f
    (p : http.HTTPPool) mth key :
  slash_free name → key ≠ "" → 0 ≤ cb →
  ∃ g s1 s2,
    registry.NewGroup name cb (Some f) s = registry.Ok (g, s1) ∧
    let r := http.mkRequest mth (http.basePath p +:+ name +:+ "/" +:+ key) in
    http.ServeHTTP p r s1 =
      Some (http.Returned, s2,
            access_line p r ::
            http.GroupGet (geecache.EvCacheGet key) ::
            http.GroupGet (geecache.EvGetter key) ::
            match f key with
            | inl bs =>
                [http.GroupGet (geecache.EvCacheAdd key (geecache.mkByteView bs));
                 http.HeaderSet "Content-Type" "application/octet-stream";
                 http.Write bs]
            | inr err =>
                [http.Error ("getter failed: " +:+ geecache.Error err) 500]
            end) ∧
    registry.GetGroup name s2 = Some g ∧
    (∀ name', name' ≠ name →
              registry.GetGroup name' s2 = registry.GetGroup name' s) ∧
    take (length (registry.objs s)) (registry.objs s2) = registry.objs s.
Proof.
  intros Hname Hkey Hcb. unfold registry.NewGroup.
  set (grp := geecache.NewGroup name cb f).
  set (g := length (registry.objs s)).
  set (s1 := registry.mkstate (registry.objs s ++ [grp])
               (<[name := g]> (registry.groups s))).
  assert (∃ res grp' tr,
            geecache.Get key grp = Some (res, grp', tr) ∧
            (http.GroupGet <$> tr) ++ answer res =
              http.GroupGet (geecache.EvCacheGet key) ::
              http.GroupGet (geecache.EvGetter key) ::
              match f key with
              | inl bs =>
                  [http.GroupGet
                     (geecache.EvCacheAdd key (geecache.mkByteView bs));
                   http.HeaderSet "Content-Type" "application/octet-stream";
                   http.Write bs]
              | inr err =>
                  [http.Error ("getter failed: " +:+ geecache.Error err) 500]
              end) as (res & grp' & tr & Hget & Htr).
  { rewrite Get_miss_eq by done. simpl. destruct (f key) as [bs|err].
    - destruct (add_returns (geecache.mainCache grp) key
                  (geecache.mkByteView (geecache.cloneBytes bs)) I Hcb)
        as (c' & Hadd & _).
      simpl in Hadd. rewrite Hadd. by eexists _, _, _.
    - by eexists _, _, _. }
  exists g, s1,
    (registry.mkstate (<[g := grp']> (registry.objs s1)) (registry.groups s1)).
  split; [done|].
  assert (registry.GetGroup name s1 = Some g) as Hg
    by apply lookup_insert_eq.
  assert (registry.objs s1 !! g = Some grp) as Hgrp
    by by apply list_lookup_middle.
  split_and!.
  - unfold http.ServeHTTP. simpl.
    rewrite HasPrefix_app, slice_from_app. simpl.
    unfold http.SplitN_slash_2. rewrite cut_slash_app by done.
    rewrite Hg. unfold registry.Get. rewrite Hgrp. simpl. rewrite Hget. simpl.
    rewrite <- Htr. by destruct res.
  - done.
  - intros name' Hne. unfold registry.GetGroup. simpl.
    by rewrite lookup_insert_ne.
  - simpl. unfold g. rewrite insert_app_r_alt by done.
    by rewrite take_app_length.
Qed.

End http_facts.

(** ** Byte views over shared memory *)

Section byteview_facts.

Abbreviation slice := byteview.slice.
Abbreviation mem := byteview.mem.

(** The slice lies within an array of the memory. *)
Definition valid (m : mem) (s : slice) : Prop :=
  ∃ a, m !! byteview.arr s = Some a ∧
       (byteview.off s + byteview.len s ≤ length a)%nat.

(** A sequence of writes [s[i] = x], each through some slice. *)
Fixpoint writes (ws : list (slice * nat * Byte.byte)) (m : mem) : option mem :=
  match ws with
  | [] => Some m
  | (s, i, x) :: ws' =>
      match byteview.set s i x m with
      | Some m' => writes ws' m'
      | None => None
      end
  end.

Lemma bytes_length (m : mem) s :
  valid m s → length (byteview.bytes m s) = byteview.len s.
Proof.
  intros (a & Ha & Hle). unfold byteview.bytes. rewrite Ha.
  rewrite length_take, length_drop. lia.
Qed.

Lemma bytes_app (m : mem) a s :
  (byteview.arr s < length m)%nat →
  byteview.bytes (m ++ [a]) s = byteview.bytes m s.
Proof. intros Hs. unfold byteview.bytes. by rewrite lookup_app_l. Qed.

(** [cloneBytes] adds one array to the memory, which holds the bytes of the
    slice, and returns the slice that is the whole of it. *)
Lemma cloneBytes_eq (m : mem) s :
  valid m s →
  byteview.cloneBytes s m =
    (byteview.mkslice (length m) 0 (byteview.len s),
     m ++ [byteview.bytes m s]).
Proof.
  intros Hs. pose proof (bytes_length m s Hs) as Hlen.
  destruct Hs as (a & Ha & Hle).
  unfold byteview.cloneBytes, byteview.make, byteview.copy. simpl.
  rewrite list_lookup_middle by done.
  rewrite bytes_app by by apply lookup_lt_Some in Ha.
  rewrite Nat.min_id, <- Hlen, firstn_all, Hlen.
  rewrite drop_replicate, Nat.sub_diag. simpl. rewrite app_nil_r.
  f_equal. rewrite insert_app_r_alt by done. by rewrite Nat.sub_diag.
Qed.

Lemma set_lookup_ne (m m' : mem) s i x a :
  byteview.set s i x m = Some m' → a ≠ byteview.arr s → m' !! a = m !! a.
Proof.
  unfold byteview.set. case_decide; [|done].
  destruct (m !! byteview.arr s); [|done]. simpl. intros [= <-] Hne.
  by rewrite list_lookup_insert_ne.
Qed.

Lemma writes_lookup_ne ws (m m' : mem) a :
  writes ws m = Some m' →
  Forall (λ w, byteview.arr w.1.1 ≠ a) ws → m' !! a = m !! a.
Proof.
  revert m. induction ws as [|[[s i] x] ws IH]; intros m; simpl.
  - by intros [= <-].
  - destruct (byteview.set s i x m) as [m1|] eqn:Hset; [|done].
    intros Hws Hall. apply Forall_cons in Hall as [Hs Hall]. simpl in Hs.
    rewrite (IH m1 Hws Hall). by apply (set_lookup_ne m m1 s i x).
Qed.

Lemma bytes_lookup (m m' : mem) s :
  m' !! byteview.arr s = m !! byteview.arr s →
  byteview.bytes m' s = byteview.bytes m s.
Proof. unfold byteview.bytes. by intros ->. Qed.

(** X25.  [cloneBytes] returns a slice of the same bytes on an array of its
    own.  The slices there were before still show what they showed.
    Afterwards no write through another array, such as a write by the
    owner of the slice that was cloned, changes what the clone shows; and
    no write through the clone's array changes what an earlier slice
    shows, the slice that was cloned included. *)
Theorem cloneBytes_detaches (m : mem) s c m' :
  valid m s → byteview.cloneBytes s m = (c, m') →
  byteview.bytes m' c = byteview.bytes m s ∧
  valid m' c ∧
  (∀ s', valid m s' → valid m' s' ∧ byteview.bytes m' s' = byteview.bytes m s') ∧
  (∀ ws m'', writes ws m' = Some m'' →
     Forall (λ w, byteview.arr w.1.1 ≠ byteview.arr c) ws →
     byteview.bytes m'' c = byteview.bytes m s) ∧
  (∀ ws m'', writes ws m' = Some m'' →
     Forall (λ w, byteview.arr w.1.1 = byteview.arr c) ws →
     ∀ s', valid m s' → byteview.bytes m'' s' = byteview.bytes m s').
Proof.
  intros Hs Hclone. rewrite cloneBytes_eq in Hclone by done.
  injection Hclone as <- <-.
  pose proof (bytes_length m s Hs) as Hlen.
  assert (byteview.bytes (m ++ [byteview.bytes m s])
            (byteview.mkslice (length m) 0 (byteview.len s))
          = byteview.bytes m s) as Hc.
  { unfold byteview.bytes at 1. simpl. rewrite list_lookup_middle by done.
    simpl. by rewrite <- Hlen, firstn_all. }
  assert (∀ s', valid m s' →
            valid (m ++ [byteview.bytes m s]) s' ∧
            byteview.bytes (m ++ [byteview.bytes m s]) s' = byteview.bytes m s')
    as Hold.
  { intros s' (a & Ha & Hle). split.
    - exists a. split; [by apply lookup_app_l_Some | done].
    - apply bytes_app. by apply lookup_lt_Some in Ha. }
  split_and!.
  - done.
  - exists (byteview.bytes m s). simpl. split; [by apply list_lookup_middle | lia].
  - done.
  - intros ws m'' Hws Hall. rewrite <- Hc. apply bytes_lookup.
    by apply (writes_lookup_ne ws).
  - intros ws m'' Hws Hall s' Hs'. destruct (Hold s' Hs') as [_ <-].
    apply bytes_lookup. apply (writes_lookup_ne ws); [done|].
    destruct Hs' as (a & Ha & _). apply lookup_lt_Some in Ha.
    eapply Forall_impl; [exact Hall|]. simpl. intros w ->. lia.
Qed.

(** X26.  A view cannot be changed through what [ByteSlice] hands out: the
    slice returned shows the bytes of the view, and whatever is written
    through it, or through any slice of its array, the view has the length
    and the string it had. *)
Theorem ByteSlice_protects_view (m : mem) (v : byteview.ByteView) c m' ws m'' :
  valid m (byteview.b v) → byteview.ByteSlice v m = (c, m') →
  Forall (λ w, byteview.arr w.1.1 = byteview.arr c) ws →
  writes ws m' = Some m'' →
  byteview.bytes m' c = byteview.bytes m (byteview.b v) ∧
  Z.of_nat (length (byteview.bytes m' c)) = byteview.Len v ∧
  byteview.String v m' = byteview.String v m ∧
  byteview.String v m'' = byteview.String v m.
Proof.
  intros Hv Hclone Hall Hws. unfold byteview.ByteSlice in Hclone.
  rewrite cloneBytes_eq in Hclone by done. injection Hclone as <- <-.
  pose proof (bytes_length m _ Hv) as Hlen.
  assert (byteview.bytes (m ++ [byteview.bytes m (byteview.b v)]) (byteview.b v)
          = byteview.bytes m (byteview.b v)) as Hsame.
  { apply bytes_app. destruct Hv as (a & Ha & _). by apply lookup_lt_Some in Ha. }
  assert (byteview.bytes (m ++ [byteview.bytes m (byteview.b v)])
            (byteview.mkslice (length m) 0 (byteview.len (byteview.b v)))
          = byteview.bytes m (byteview.b v)) as Hc.
  { unfold byteview.bytes at 1. simpl. rewrite list_lookup_middle by done.
    simpl. by rewrite <- Hlen, firstn_all. }
  split_and!.
  - done.
  - rewrite Hc, Hlen. done.
  - unfold byteview.String. by rewrite Hsame.
  - unfold byteview.String. rewrite <- Hsame. f_equal. apply bytes_lookup.
    apply (writes_lookup_ne ws); [done|].
    destruct Hv as (a & Ha & _). apply lookup_lt_Some in Ha.
    eapply Forall_impl; [exact Hall|]. simpl. intros w ->. lia.
Qed.

End byteview_facts.

(** ** The properties above at concrete inputs *)

(** The store of capacity four after [Add] of A, of B and of C: A has been
    evicted. *)
Definition store_BC : lru.Cache geecache.ByteView (list (string * geecache.ByteView)) :=
  lru.mkCache 4 4 [lru.Entry "C" bytes3; lru.Entry "B" bytes2]
    (<["C" := lru.Entry "C" bytes3]> (<["B" := lru.Entry "B" bytes2]> ∅))
    (Some record_eviction).

Lemma Add_then_Get_witness :
  let c := store_AB in
  reachable c ∧
  total (lru.ll c) + (lru.len "C" + lru.Len bytes3) ≤ max_int64 ∧
  (lru.maxBytes c = 0 ∨ lru.len "C" + lru.Len bytes3 ≤ lru.maxBytes c) ∧
  ∃ c' w', lru.Add c "C" bytes3 [] = Some (c', w') ∧
           lru.Get c' "C" = (c', Some bytes3).
Proof.
  intros c.
  assert (total (lru.ll c) + (lru.len "C" + lru.Len bytes3) ≤ max_int64) as Hfit
    by (vm_compute; discriminate).
  assert (lru.maxBytes c = 0 ∨ lru.len "C" + lru.Len bytes3 ≤ lru.maxBytes c)
    as Hcap by (right; vm_compute; discriminate).
  split_and!; [apply store_AB_reachable | done | done |].
  exact (Add_then_Get c "C" bytes3 [] store_AB_reachable Hfit Hcap).
Defined.

Lemma Add_accounts_for_entries_witness :
  let c := store_AB in
  let c' := store_BC in
  let w' := [("A", bytes1)] in
  reachable c ∧ lru.Add c "C" bytes3 [] = Some (c', w') ∧
  ∃ ev, lru.Entry "C" bytes3 :: lru.remove_elem "C" (lru.ll c) = lru.ll c' ++ ev ∧
        w' = notify (lru.OnEvicted c) (reverse ev) [] ∧
        (∀ k' e, k' ≠ "C" → lru.cache c !! k' = Some e →
                 lru.cache c' !! k' = Some e ∨
                 (lru.cache c' !! k' = None ∧ e ∈ ev)) ∧
        (∀ k' e, k' ≠ "C" → lru.cache c' !! k' = Some e →
                 lru.cache c !! k' = Some e).
Proof.
  intros c c' w'.
  assert (lru.Add c "C" bytes3 [] = Some (c', w')) as Hadd
    by (vm_compute; reflexivity).
  split_and!; [apply store_AB_reachable | done |].
  exact (Add_accounts_for_entries c "C" bytes3 [] c' w' store_AB_reachable Hadd).
Defined.

Lemma Add_evicts_only_when_over_witness :
  let c := store_AB in
  let c' := store_BC in
  let w' := [("A", bytes1)] in
  let e := lru.Entry "A" bytes1 in
  reachable c ∧
  total (lru.ll c) + (lru.len "C" + lru.Len bytes3) ≤ max_int64 ∧
  lru.Add c "C" bytes3 [] = Some (c', w') ∧
  lru.Entry "C" bytes3 :: lru.remove_elem "C" (lru.ll c) = lru.ll c' ++ e :: [] ∧
  lru.maxBytes c ≠ 0 ∧ lru.maxBytes c < total (lru.ll c') + size e.
Proof.
  intros c c' w' e.
  assert (total (lru.ll c) + (lru.len "C" + lru.Len bytes3) ≤ max_int64) as Hfit
    by (vm_compute; discriminate).
  assert (lru.Add c "C" bytes3 [] = Some (c', w')) as Hadd
    by (vm_compute; reflexivity).
  assert (lru.Entry "C" bytes3 :: lru.remove_elem "C" (lru.ll c)
          = lru.ll c' ++ e :: []) as Hev by (vm_compute; reflexivity).
  split_and!; [apply store_AB_reachable | done | done | done | |];
    apply (Add_evicts_only_when_over c "C" bytes3 [] c' w' e []
             store_AB_reachable Hfit Hadd Hev).
Defined.

Lemma Len_counts_keys_witness :
  let c := store_AB in
  reachable c ∧
  lru.CacheLen c = Z.of_nat (base.size (lru.cache c)) ∧
  ∀ k, is_Some (lru.cache c !! k) ↔ k ∈ lru.key <$> lru.ll c.
Proof.
  intros c. split; [apply store_AB_reachable|].
  exact (Len_counts_keys c store_AB_reachable).
Defined.

(** The group [scores] after a lookup of alice. *)
Definition scores_alice : geecache.Group :=
  match geecache.Get "alice" scores with
  | Some (_, g, _) => g
  | None => scores
  end.

Lemma hit_path_witness :
  let g := scores_alice in
  let key := "alice" in
  let v := geecache.mkByteView [Byte.x34; Byte.x32] in
  key ≠ "" ∧ cached g key = Some v ∧
  ∃ g', geecache.Get key g =
          Some (inl v, g',
                [geecache.EvCacheGet key; geecache.EvLog "[GeeCache] hit"]) ∧
        geecache.name g' = geecache.name g ∧
        geecache.getter g' = geecache.getter g ∧
        ∀ k, cached g' k = cached g k.
Proof.
  intros g key v.
  assert (key ≠ "") as Hkey by discriminate.
  assert (cached g key = Some v) as Hhit by (vm_compute; reflexivity).
  split_and!; [done..|].
  exact (hit_path g key v Hkey Hhit).
Defined.

Lemma fill_then_hit_witness :
  let g := scores in
  let key := "alice" in
  let bs := [Byte.x34; Byte.x32] in
  key ≠ "" ∧ cached g key = None ∧ cache_ok (geecache.mainCache g) ∧
  geecache.getter g key = inl bs ∧
  held (geecache.mainCache g) + (lru.len key + Z.of_nat (length bs)) ≤ max_int64 ∧
  (geecache.cacheBytes (geecache.mainCache g) = 0 ∨
   lru.len key + Z.of_nat (length bs) ≤ geecache.cacheBytes (geecache.mainCache g)) ∧
  ∃ g1,
    geecache.Get key g =
      Some (inl (geecache.mkByteView bs), g1,
            [geecache.EvCacheGet key; geecache.EvGetter key;
             geecache.EvCacheAdd key (geecache.mkByteView bs)]) ∧
    geecache.Get key g1 =
      Some (inl (geecache.mkByteView bs), g1,
            [geecache.EvCacheGet key; geecache.EvLog "[GeeCache] hit"]).
Proof.
  intros g key bs.
  assert (key ≠ "") as Hkey by discriminate.
  assert (cached g key = None) as Hmiss by (vm_compute; reflexivity).
  assert (cache_ok (geecache.mainCache g)) as Hok by exact I.
  assert (geecache.getter g key = inl bs) as Hget by (vm_compute; reflexivity).
  assert (held (geecache.mainCache g) + (lru.len key + Z.of_nat (length bs))
          ≤ max_int64) as Hfit by (vm_compute; discriminate).
  assert (geecache.cacheBytes (geecache.mainCache g) = 0 ∨
          lru.len key + Z.of_nat (length bs)
          ≤ geecache.cacheBytes (geecache.mainCache g)) as Hcap
    by (right; vm_compute; discriminate).
  split_and!; [done..|].
  exact (fill_then_hit g key bs Hkey Hmiss Hok Hget Hfit Hcap).
Defined.

Lemma oversized_value_not_cached_witness :
  let g := geecache.NewGroup "scores" 3 scores_loader in
  let key := "alice" in
  let bs := [Byte.x34; Byte.x32] in
  key ≠ "" ∧ cached g key = None ∧ cache_ok (geecache.mainCache g) ∧
  geecache.getter g key = inl bs ∧
  held (geecache.mainCache g) + (lru.len key + Z.of_nat (length bs)) ≤ max_int64 ∧
  0 < geecache.cacheBytes (geecache.mainCache g)
    < lru.len key + Z.of_nat (length bs) ∧
  ∃ g1 g2,
    geecache.Get key g =
      Some (inl (geecache.mkByteView bs), g1,
            [geecache.EvCacheGet key; geecache.EvGetter key;
             geecache.EvCacheAdd key (geecache.mkByteView bs)]) ∧
    (∀ k, cached g1 k = None) ∧
    geecache.Get key g1 =
      Some (inl (geecache.mkByteView bs), g2,
            [geecache.EvCacheGet key; geecache.EvGetter key;
             geecache.EvCacheAdd key (geecache.mkByteView bs)]).
Proof.
  intros g key bs.
  assert (key ≠ "") as Hkey by discriminate.
  assert (cached g key = None) as Hmiss by (vm_compute; reflexivity).
  assert (cache_ok (geecache.mainCache g)) as Hok by exact I.
  assert (geecache.getter g key = inl bs) as Hget by (vm_compute; reflexivity).
  assert (held (geecache.mainCache g) + (lru.len key + Z.of_nat (length bs))
          ≤ max_int64) as Hfit by (vm_compute; discriminate).
  assert (0 < geecache.cacheBytes (geecache.mainCache g)
            < lru.len key + Z.of_nat (length bs)) as Hcap
    by (split; vm_compute; reflexivity).
  split_and!; [done..|].
  exact (oversized_value_not_cached g key bs Hkey Hmiss Hok Hget Hfit Hcap).
Defined.

Lemma Add_moves_keys_only_to_new_peers_witness :
  let m := ring_642 in
  ring m ∧
  (consistenthash.Get (consistenthash.Add m ["8"]) "27" = consistenthash.Get m "27" ∨
   consistenthash.Get (consistenthash.Add m ["8"]) "27" ∈ ["8"]).
Proof.
  intros m.
  assert (ring m) as Hm by (apply ring_Add, ring_New).
  split; [exact Hm|].
  exact (Add_moves_keys_only_to_new_peers m ["8"] "27" Hm).
Defined.

Lemma Get_returns_added_peer_witness :
  let m := ring_642 in
  let P := ["6"; "4"; "2"] in
  ring_of m P ∧
  (consistenthash.keys m ≠ [] → consistenthash.Get m "27" ∈ P) ∧
  (0 < consistenthash.replicas m → P ≠ [] → consistenthash.keys m ≠ []).
Proof.
  intros m P.
  assert (ring_of m P) as Hm
    by exact (ring_of_Add _ [] ["6"; "4"; "2"]
                (ring_of_New (λ _, 0) 3 (Some atoi))).
  split; [exact Hm|].
  exact (Get_returns_added_peer m P "27" Hm).
Defined.

(** Three callers: the first has registered its call and is about to run
    [fn], the second has found the call and waits for it. *)
Definition sched_waiting : list nat := replicate 7 0%nat ++ replicate 4 1%nat.

Lemma Do_never_faults_witness :
  let s := singleflight.run 0%nat false "k" counting_fn sched_waiting
             (singleflight.init 3) in
  singleflight.pcs s !! 1%nat = Some (singleflight.L48_Wait 0) ∧
  singleflight.Do_step 0%nat false "k" counting_fn 1 s = None ∧
  blocked_by s (singleflight.L48_Wait 0).
Proof.
  intros s.
  assert (singleflight.pcs s !! 1%nat = Some (singleflight.L48_Wait 0)) as Hp
    by (vm_compute; reflexivity).
  assert (singleflight.Do_step 0%nat false "k" counting_fn 1 s = None) as Hstep
    by (vm_compute; reflexivity).
  split_and!; [done..|].
  exact (Do_never_faults 0%nat false "k" counting_fn 3 sched_waiting 1 _ Hp Hstep).
Defined.

Lemma Do_mutual_exclusion_witness :
  let s := singleflight.run 0%nat false "k" counting_fn [0%nat; 0%nat]
             (singleflight.init 3) in
  let p : singleflight.pc nat bool := singleflight.L46_lookup in
  singleflight.pcs s !! 0%nat = Some p ∧ locked p = true ∧
  0%nat = 0%nat ∧ singleflight.mu (singleflight.g s) = true.
Proof.
  intros s p.
  assert (singleflight.pcs s !! 0%nat = Some p) as Hp by (vm_compute; reflexivity).
  assert (locked p = true) as Hl by reflexivity.
  split_and!; [done | done | |];
    apply (Do_mutual_exclusion 0%nat false "k" counting_fn 3 [0%nat; 0%nat]
             0%nat 0%nat p p Hp Hp Hl Hl).
Defined.

Lemma Do_deadlock_free_witness :
  let s := singleflight.run 0%nat false "k" counting_fn sched_waiting
             (singleflight.init 3) in
  let p : singleflight.pc nat bool := singleflight.L48_Wait 0 in
  singleflight.pcs s !! 1%nat = Some p ∧
  (∀ v e, p ≠ singleflight.Returned v e) ∧
  ∃ t' s', singleflight.Do_step 0%nat false "k" counting_fn t' s = Some s'.
Proof.
  intros s p.
  assert (singleflight.pcs s !! 1%nat = Some p) as Hp by (vm_compute; reflexivity).
  assert (∀ v e, p ≠ singleflight.Returned v e) as Hne by discriminate.
  split_and!; [done..|].
  exact (Do_deadlock_free 0%nat false "k" counting_fn 3 sched_waiting 1 p Hp Hne).
Defined.

Lemma Do_returns_a_result_of_fn_witness :
  let s := singleflight.run 0%nat false "k" counting_fn sched_late
             (singleflight.init 2) in
  singleflight.pcs s !! 1%nat = Some (singleflight.Returned 2%nat false) ∧
  ∃ j, (j < singleflight.execs (singleflight.log s))%nat ∧
       counting_fn j = (2%nat, false).
Proof.
  intros s.
  assert (singleflight.pcs s !! 1%nat = Some (singleflight.Returned 2%nat false))
    as Hp by (vm_compute; reflexivity).
  split; [done|].
  exact (Do_returns_a_result_of_fn 0%nat false "k" counting_fn 2 sched_late 1
           2%nat false Hp).
Defined.

(** The registry in which the group [scores] has been made, and the pool of
    a node. *)
Definition registry_scores : registry.state :=
  match registry.NewGroup "scores" 64 (Some scores_loader) registry.empty with
  | registry.Ok (_, s) => s
  | registry.Panic _ => registry.empty
  end.

Definition pool_8001 : http.HTTPPool := http.NewHTTPPool "http://localhost:8001".

Lemma registry_scores_reachable : registry_reachable registry_scores.
Proof.
  apply (reachable_NewGroup registry.empty "scores" 64 (Some scores_loader)
           0%nat registry_scores); [constructor | reflexivity].
Defined.

Lemma ServeHTTP_serves_group_witness :
  let s := registry_scores in
  let r := http.mkRequest "GET" (http.basePath pool_8001 +:+ "scores" +:+ "/" +:+ "alice") in
  slash_free "scores" ∧
  registry.GetGroup "scores" s = Some 0%nat ∧
  registry.objs s !! 0%nat = Some scores ∧
  http.ServeHTTP pool_8001 r s =
    match geecache.Get "alice" scores with
    | None => None
    | Some (res, grp', tr) =>
        Some (http.Returned,
              registry.mkstate (<[0%nat := grp']> (registry.objs s)) (registry.groups s),
              access_line pool_8001 r :: (http.GroupGet <$> tr) ++ answer res)
    end.
Proof.
  intros s r.
  assert (slash_free "scores") as Hgn by (simpl; split_and!; discriminate || exact I).
  assert (registry.GetGroup "scores" s = Some 0%nat) as Hg
    by (vm_compute; reflexivity).
  assert (registry.objs s !! 0%nat = Some scores) as Hgrp by reflexivity.
  split_and!; [done..|].
  exact (ServeHTTP_serves_group pool_8001 "GET" "scores" "alice" s 0%nat scores
           Hgn Hg Hgrp).
Defined.

Lemma ServeHTTP_answers_witness :
  let p := pool_8001 in
  let r := http.mkRequest "GET" "/_geecache/nobody/alice" in
  let s := registry.empty in
  let effs := [access_line p r; http.Error "no such group: nobody" 404] in
  http.ServeHTTP p r s = Some (http.Returned, s, effs) ∧
  ((http.Returned = http.Panicked ("HTTPPool serving unexpected path: " +:+ http.Path r) ∧
    (∀ rest, http.Path r ≠ http.basePath p +:+ rest) ∧ s = s ∧ effs = []) ∨
   (http.Returned = http.Returned ∧
    ∃ rest, http.Path r = http.basePath p +:+ rest ∧ slash_free rest ∧ s = s ∧
            effs = [access_line p r; http.Error "bad request" 400]) ∨
   (http.Returned = http.Returned ∧
    ∃ gn key, http.Path r = http.basePath p +:+ gn +:+ "/" +:+ key ∧
              slash_free gn ∧ registry.GetGroup gn s = None ∧ s = s ∧
              effs = [access_line p r;
                      http.Error ("no such group: " +:+ gn) 404]) ∨
   (http.Returned = http.Returned ∧
    ∃ gn key g grp res grp' tr,
      http.Path r = http.basePath p +:+ gn +:+ "/" +:+ key ∧
      slash_free gn ∧ registry.GetGroup gn s = Some g ∧
      registry.objs s !! g = Some grp ∧
      geecache.Get key grp = Some (res, grp', tr) ∧
      s = registry.mkstate (<[g := grp']> (registry.objs s)) (registry.groups s) ∧
      effs = access_line p r :: (http.GroupGet <$> tr) ++ answer res)).
Proof.
  intros p r s effs.
  assert (http.ServeHTTP p r s = Some (http.Returned, s, effs)) as Hserve
    by (vm_compute; reflexivity).
  split; [done|].
  exact (ServeHTTP_answers p r s http.Returned s effs Hserve).
Defined.

Lemma GetGroup_finds_named_group_witness :
  let s := registry_scores in
  registry_reachable s ∧ registry.GetGroup "scores" s = Some 0%nat ∧
  ∃ grp, registry.objs s !! 0%nat = Some grp ∧ geecache.name grp = "scores".
Proof.
  intros s.
  assert (registry.GetGroup "scores" s = Some 0%nat) as Hg
    by (vm_compute; reflexivity).
  split_and!; [apply registry_scores_reachable | done |].
  exact (GetGroup_finds_named_group s "scores" 0%nat registry_scores_reachable Hg).
Defined.

Lemma ServeHTTP_returns_witness :
  let s := registry_scores in
  let p := pool_8001 in
  let r := http.mkRequest "GET" "/_geecache/scores/alice" in
  registry_reachable s ∧ capacities_ok s ∧
  ∃ out s' effs,
    http.ServeHTTP p r s = Some (out, s', effs) ∧
    capacities_ok s' ∧
    (out = http.Returned ↔ ∃ rest, http.Path r = http.basePath p +:+ rest).
Proof.
  intros s p r.
  assert (capacities_ok s) as Hcap
    by (repeat constructor; vm_compute; discriminate).
  split_and!; [apply registry_scores_reachable | done |].
  exact (ServeHTTP_returns p r s registry_scores_reachable Hcap).
Defined.

Lemma NewGroup_then_ServeHTTP_witness :
  let s := registry_scores in
  let p := pool_8001 in
  let f := scores_loader in
  let r := http.mkRequest "GET" (http.basePath p +:+ "scores" +:+ "/" +:+ "alice") in
  slash_free "scores" ∧ "alice" ≠ "" ∧ 0 ≤ 64 ∧
  ∃ g s1 s2,
    registry.NewGroup "scores" 64 (Some f) s = registry.Ok (g, s1) ∧
    http.ServeHTTP p r s1 =
      Some (http.Returned, s2,
            access_line p r ::
            http.GroupGet (geecache.EvCacheGet "alice") ::
            http.GroupGet (geecache.EvGetter "alice") ::
            match f "alice" with
            | inl bs =>
                [http.GroupGet (geecache.EvCacheAdd "alice" (geecache.mkByteView bs));
                 http.HeaderSet "Content-Type" "application/octet-stream";
                 http.Write bs]
            | inr err =>
                [http.Error ("getter failed: " +:+ geecache.Error err) 500]
            end) ∧
    registry.GetGroup "scores" s2 = Some g ∧
    (∀ name', name' ≠ "scores" →
              registry.GetGroup name' s2 = registry.GetGroup name' s) ∧
    take (length (registry.objs s)) (registry.objs s2) = registry.objs s.
Proof.
  intros s p f r.
  assert (slash_free "scores") as Hgn by (simpl; split_and!; discriminate || exact I).
  assert ("alice" ≠ "") as Hkey by discriminate.
  assert (0 ≤ 64) as Hcb by lia.
  split_and!; [done..|].
  exact (NewGroup_then_ServeHTTP s "scores" 64 f p "GET" "alice" Hgn Hkey Hcb).
Defined.

Lemma Add_negative_capacity_never_returns_witness :
  let c : lru.Cache geecache.ByteView (list (string * geecache.ByteView)) :=
    lru.New (-1) (Some record_eviction) in
  reachable c ∧ lru.maxBytes c < 0 ∧
  total (lru.ll c) + (lru.len "A" + lru.Len bytes1) ≤ max_int64 ∧
  lru.Add c "A" bytes1 [] = None ∧
  ∀ fuel, lru.evict fuel (lru.store c "A" bytes1) [] = None.
Proof.
  intros c.
  assert (reachable c) as Hr by constructor.
  assert (lru.maxBytes c < 0) as Hneg by (vm_compute; reflexivity).
  assert (total (lru.ll c) + (lru.len "A" + lru.Len bytes1) ≤ max_int64) as Hfit
    by (vm_compute; discriminate).
  do 3 (split; [done|]).
  exact (Add_negative_capacity_never_returns c "A" bytes1 [] Hr Hneg Hfit).
Defined.

(** A memory of one array, and the slice of its second and third byte. *)
Definition mem_123 : byteview.mem := [[Byte.x31; Byte.x32; Byte.x33]].
Definition slice_23 : byteview.slice := byteview.mkslice 0 1 2.

Lemma cloneBytes_detaches_witness :
  let m := mem_123 in
  let s := slice_23 in
  let c := byteview.mkslice 1 0 2 in
  let m' := [[Byte.x31; Byte.x32; Byte.x33]; [Byte.x32; Byte.x33]] in
  valid m s ∧ byteview.cloneBytes s m = (c, m') ∧
  byteview.bytes m' c = byteview.bytes m s ∧
  valid m' c ∧
  (∀ s', valid m s' → valid m' s' ∧ byteview.bytes m' s' = byteview.bytes m s') ∧
  (∀ ws m'', writes ws m' = Some m'' →
     Forall (λ w, byteview.arr w.1.1 ≠ byteview.arr c) ws →
     byteview.bytes m'' c = byteview.bytes m s) ∧
  (∀ ws m'', writes ws m' = Some m'' →
     Forall (λ w, byteview.arr w.1.1 = byteview.arr c) ws →
     ∀ s', valid m s' → byteview.bytes m'' s' = byteview.bytes m s').
Proof.
  intros m s c m'.
  assert (valid m s) as Hs by (eexists; split; [reflexivity | simpl; lia]).
  assert (byteview.cloneBytes s m = (c, m')) as Hclone by reflexivity.
  split; [done|]. split; [done|].
  exact (cloneBytes_detaches m s c m' Hs Hclone).
Defined.

Lemma ByteSlice_protects_view_witness :
  let m := mem_123 in
  let v := byteview.mkByteView slice_23 in
  let c := byteview.mkslice 1 0 2 in
  let m' := [[Byte.x31; Byte.x32; Byte.x33]; [Byte.x32; Byte.x33]] in
  let ws := [(c, 0%nat, Byte.x00); (c, 1%nat, Byte.x00)] in
  let m'' := [[Byte.x31; Byte.x32; Byte.x33]; [Byte.x00; Byte.x00]] in
  valid m (byteview.b v) ∧ byteview.ByteSlice v m = (c, m') ∧
  Forall (λ w, byteview.arr w.1.1 = byteview.arr c) ws ∧
  writes ws m' = Some m'' ∧
  byteview.bytes m' c = byteview.bytes m (byteview.b v) ∧
  Z.of_nat (length (byteview.bytes m' c)) = byteview.Len v ∧
  byteview.String v m' = byteview.String v m ∧
  byteview.String v m'' = byteview.String v m.
Proof.
  intros m v c m' ws m''.
  assert (valid m (byteview.b v)) as Hv
    by (eexists; split; [reflexivity | simpl; lia]).
  assert (byteview.ByteSlice v m = (c, m')) as Hclone by reflexivity.
  assert (Forall (λ w, byteview.arr w.1.1 = byteview.arr c) ws) as Hall
    by (repeat constructor).
  assert (writes ws m' = Some m'') as Hws by reflexivity.
  do 4 (split; [done|]).
  exact (ByteSlice_protects_view m v c m' ws m'' Hv Hclone Hall Hws).
Defined.

Lemma Add_order_irrelevant_witness :
  let m := consistenthash.New (λ _, 0) 3 (Some atoi) in
  let ps := ["6"; "4"; "2"] in
  let qs := ["2"; "4"; "6"] in
  ps ≡ₚ qs ∧ NoDup (ps ≫= nodes_of m) ∧
  consistenthash.Add m ps = consistenthash.Add m qs.
Proof.
  intros m ps qs.
  assert (ps ≡ₚ qs) as Hperm by exact (symmetry (reverse_Permutation ps)).
  assert (NoDup (ps ≫= nodes_of m)) as Hnd
    by (apply (bool_decide_unpack (NoDup (ps ≫= nodes_of m)));
        vm_compute; exact I).
  split_and!; [done..|].
  exact (Add_order_irrelevant m ps qs Hperm Hnd).
Defined.

Lemma Do_alone_runs_fn_witness :
  let sched := replicate 13 0%nat in
  let s := singleflight.run 0%nat false "k" counting_fn sched (singleflight.init 2) in
  let s' := singleflight.run 0%nat false "k" counting_fn (sched ++ replicate 13 1%nat)
              (singleflight.init 2) in
  quiet s ∧ singleflight.pcs s !! 1%nat = Some singleflight.L38_Lock ∧
  ∃ v e,
    counting_fn (singleflight.execs (singleflight.log s)) = (v, e) ∧
    singleflight.pcs s' = <[1%nat := singleflight.Returned v e]> (singleflight.pcs s) ∧
    singleflight.execs (singleflight.log s') = S (singleflight.execs (singleflight.log s)) ∧
    quiet s'.
Proof.
  intros sched s s'.
  assert (quiet s) as Hq.
  { intros t p. destruct t as [|[|t]]; vm_compute; intros [= <-]; eauto. }
  assert (singleflight.pcs s !! 1%nat = Some singleflight.L38_Lock) as Hp
    by (vm_compute; reflexivity).
  split_and!; [done..|].
  exact (Do_alone_runs_fn 0%nat false "k" counting_fn 2 sched 1 Hq Hp).
Defined.
